(** * SimpleLockup: linear vesting with cliff, release and revocation

    A shallow embedding of the two shapes of the [SimpleLockup] contract of
    this repository and the proofs of their vesting arithmetic and lifecycle:

    - [Single]: [contracts/SimpleLockup.sol], one lockup per contract, [uint64]
      schedule fields, [Math.mulDiv] in the vesting formula;
    - [PerAddress]: the shape with [mapping(address => LockupInfo) lockups],
      [uint256] schedule fields and a native-width multiplication.

    Unsigned integers are integers of [Z] with the checked arithmetic of
    Solidity 0.8 written out: an operation that leaves its width reverts with
    [Panic 0x11], a division by zero with [Panic 0x12].  A reverted call leaves
    the contract as it was.  The token is an external contract: what it answers
    during a call is an input of the call ([Token]), what the contract asks of it
    and the events it emits are the call's trace. *)

From Stdlib Require Import ZArith Lia Bool List.
From stdpp Require Import base option gmap.
Import ListNotations.
Open Scope Z_scope.

(** ** Errors, results and checked arithmetic *)

Inductive Error :=
| InvalidAmount
| InvalidDuration
| InvalidBeneficiary
| InvalidTokenAddress
| LockupAlreadyExists
| NoLockupFound
| NoTokensAvailable
| NotRevocable
| AlreadyRevoked
| NotBeneficiary
| InsufficientBalance
| InsufficientAllowance
| InsufficientTokensReceived (received expected : Z)
| NothingToRevoke
| OwnableUnauthorizedAccount (account : Z)
| ReentrancyGuardReentrantCall
| SafeERC20FailedOperation
| MathOverflowedMulDiv
| Panic (code : Z).

Inductive Result (A : Type) :=
| Ok (a : A)
| Revert (e : Error).
Arguments Ok {A} a.
Arguments Revert {A} e.

#[export] Instance Result_ret : MRet Result := fun A a => Ok a.
#[export] Instance Result_bind : MBind Result := fun A B f r =>
  match r with
  | Ok a => f a
  | Revert e => Revert e
  end.

Definition ARITHMETIC_OVERFLOW : Z := 17.
Definition DIVISION_BY_ZERO : Z := 18.

Definition UINT64_MAX : Z := 18446744073709551615.
Definition UINT160_MAX : Z := Eval cbv in 2 ^ 160 - 1.
Definition UINT256_MAX : Z := Eval cbv in 2 ^ 256 - 1.
Definition TWO_256 : Z := Eval cbv in 2 ^ 256.

Definition uint_max (w : Z) : Z := 2 ^ w - 1.

Definition is_uint (w x : Z) : Prop := 0 <= x <= uint_max w.

(** [if (cond) revert E();] *)
Definition revert_if (cond : bool) (e : Error) : Result unit :=
  if cond then Revert e else Ok tt.

Definition checked_add (w a b : Z) : Result Z :=
  if a + b <=? uint_max w then Ok (a + b) else Revert (Panic ARITHMETIC_OVERFLOW).

Definition checked_sub (a b : Z) : Result Z :=
  if b <=? a then Ok (a - b) else Revert (Panic ARITHMETIC_OVERFLOW).

Definition checked_mul (w a b : Z) : Result Z :=
  if a * b <=? uint_max w then Ok (a * b) else Revert (Panic ARITHMETIC_OVERFLOW).

Definition checked_div (a b : Z) : Result Z :=
  if b =? 0 then Revert (Panic DIVISION_BY_ZERO) else Ok (a / b).

(** Modelled from the spec: [Math.mulDiv] is OpenZeppelin's, imported by
    [contracts/SimpleLockup.sol] and not among the sources.  §4.1 asks for a
    widened multiply-then-divide whose division works on the full-width
    intermediate: the 512-bit product [prod1 * 2^256 + prod0] of [x] and [y] is
    divided by [denominator]; a product that fits 256 bits takes the plain
    division, a quotient that would not fit 256 bits is refused. *)
Definition mulDiv (x y denominator : Z) : Result Z :=
  let prod0 := (x * y) mod TWO_256 in
  let prod1 := (x * y) / TWO_256 in
  if prod1 =? 0 then checked_div prod0 denominator
  else if denominator <=? prod1 then Revert MathOverflowedMulDiv
  else Ok ((prod1 * TWO_256 + prod0) / denominator).

(** ** Calls, the token's answers, traces *)

Record Msg := {
  msg_sender : Z;
  block_timestamp : Z
}.

(** What the token contract answers during one call of the lockup contract. *)
Record Token := {
  balanceOf_sender : Z;
  allowance_sender : Z;
  balanceOf_this_before : Z;
  balanceOf_this_after : Z;
  transfer_ok : bool
}.

Inductive Effect :=
| SafeTransferFrom (from to amount : Z)
| SafeTransfer (to amount : Z)
| TokensLocked (beneficiary amount startTime cliffDuration vestingDuration : Z)
    (revocable : bool)
| TokensReleased (beneficiary amount : Z)
| LockupRevoked (beneficiary refundAmount : Z).

(** A call of a state-changing function: what it asked of the token and
    emitted, in order, and how it ended.  When it ends in [Revert] the trace is
    what had been asked before the revert undid it. *)
Record Tx (A : Type) := mkTx {
  trace : list Effect;
  outcome : Result A
}.
Arguments mkTx {A} trace outcome.
Arguments trace {A} t.
Arguments outcome {A} t.

#[export] Instance Tx_ret : MRet Tx := fun A a => mkTx [] (Ok a).
#[export] Instance Tx_bind : MBind Tx := fun A B f t =>
  match outcome t with
  | Ok a => mkTx (trace t ++ trace (f a)) (outcome (f a))
  | Revert e => mkTx (trace t) (Revert e)
  end.

Definition lift {A : Type} (r : Result A) : Tx A := mkTx [] r.

Definition emit (e : Effect) : Tx unit := mkTx [e] (Ok tt).

(** A [SafeERC20] call: the request is made, and the call reverts when the token
    does not carry it out. *)
Definition request (e : Effect) (ok : bool) : Tx unit :=
  mkTx [e] (if ok then Ok tt else Revert SafeERC20FailedOperation).

(** ** The lockup record *)

(** [struct LockupInfo].  The fields [startTime], [cliffDuration] and
    [vestingDuration] are [uint64] in [Single] and [uint256] in [PerAddress];
    the amounts are [uint256] in both. *)
Record LockupInfo := {
  totalAmount : Z;
  releasedAmount : Z;
  startTime : Z;
  cliffDuration : Z;
  vestingDuration : Z;
  revocable : bool;
  revoked : bool;
  vestedAtRevoke : Z
}.

(** The all-zero record of untouched storage. *)
Definition noLockup : LockupInfo := {|
  totalAmount := 0;
  releasedAmount := 0;
  startTime := 0;
  cliffDuration := 0;
  vestingDuration := 0;
  revocable := false;
  revoked := false;
  vestedAtRevoke := 0
|}.

Definition with_releasedAmount (l : LockupInfo) (v : Z) : LockupInfo := {|
  totalAmount := totalAmount l;
  releasedAmount := v;
  startTime := startTime l;
  cliffDuration := cliffDuration l;
  vestingDuration := vestingDuration l;
  revocable := revocable l;
  revoked := revoked l;
  vestedAtRevoke := vestedAtRevoke l
|}.

Definition with_revoked (l : LockupInfo) (vested : Z) : LockupInfo := {|
  totalAmount := totalAmount l;
  releasedAmount := releasedAmount l;
  startTime := startTime l;
  cliffDuration := cliffDuration l;
  vestingDuration := vestingDuration l;
  revocable := revocable l;
  revoked := true;
  vestedAtRevoke := vested
|}.

(** [10 * 365 days] *)
Definition MAX_VESTING_DURATION : Z := 315360000.

(** ** The specification's vesting schedule, in its own words *)

(** §4.1 of the specification: no record, revoked, before the cliff, at or
    after the end, and the linear part, on the integers. *)
Definition vested_spec (l : LockupInfo) (now : Z) : Z :=
  if totalAmount l =? 0 then 0
  else if revoked l then vestedAtRevoke l
  else if now <? startTime l + cliffDuration l then 0
  else if startTime l + vestingDuration l <=? now then totalAmount l
  else totalAmount l * (now - startTime l) / vestingDuration l.

(** §4.3 of the specification. *)
Definition progress_spec (l : LockupInfo) (now : Z) : Z :=
  if totalAmount l =? 0 then 0
  else if revoked l then 100
  else if now <? startTime l + cliffDuration l then 0
  else if startTime l + vestingDuration l <=? now then 100
  else (now - startTime l) * 100 / vestingDuration l.

(** ** [contracts/SimpleLockup.sol]: one lockup per contract *)

Module Single.

(** The storage of the contract: [lockupInfo], [beneficiary], the owner of
    [Ownable] and the status of [ReentrancyGuard]; [this] is [address(this)]. *)
Record Contract := {
  owner : Z;
  this : Z;
  entered : bool;
  lockupInfo : LockupInfo;
  beneficiary : Z
}.

Definition with_lockup (c : Contract) (b : Z) (l : LockupInfo) : Contract := {|
  owner := owner c;
  this := this c;
  entered := entered c;
  lockupInfo := l;
  beneficiary := b
|}.

Definition with_entered (c : Contract) (e : bool) : Contract := {|
  owner := owner c;
  this := this c;
  entered := e;
  lockupInfo := lockupInfo c;
  beneficiary := beneficiary c
|}.

(** [constructor(address _token)]; [size] is [extcodesize(_token)]. *)
Definition constructor (deployer self _token size : Z) : Result Contract :=
  _ ← revert_if (_token =? 0) InvalidTokenAddress;
  _ ← revert_if (size =? 0) InvalidTokenAddress;
  mret {| owner := deployer; this := self; entered := false;
          lockupInfo := noLockup; beneficiary := 0 |}.

(** [modifier onlyOwner] *)
Definition onlyOwner (c : Contract) (m : Msg) : Result unit :=
  revert_if (negb (owner c =? msg_sender m))
    (OwnableUnauthorizedAccount (msg_sender m)).

(** [modifier nonReentrant]: the status is checked, set for the body and
    cleared after it. *)
Definition nonReentrant (c : Contract) (body : Contract -> Tx Contract) : Tx Contract :=
  _ ← lift (revert_if (entered c) ReentrancyGuardReentrantCall);
  c' ← body (with_entered c true);
  mret (with_entered c' false).

(** [_vestedAmount()], on the storage record [l] at [block.timestamp = now]. *)
Definition _vestedAmount (l : LockupInfo) (now : Z) : Result Z :=
  if totalAmount l =? 0 then Ok 0
  else if revoked l then Ok (vestedAtRevoke l)
  else
    cliffEnd ← checked_add 64 (startTime l) (cliffDuration l);
    if now <? cliffEnd then Ok 0
    else
      vestEnd ← checked_add 64 (startTime l) (vestingDuration l);
      if vestEnd <=? now then Ok (totalAmount l)
      else
        timeFromStart ← checked_sub now (startTime l);
        mulDiv (totalAmount l) timeFromStart (vestingDuration l).

(** [_releasableAmount()]; [&&] evaluates the sum only for a record that is
    not revoked. *)
Definition _releasableAmount (l : LockupInfo) (now : Z) : Result Z :=
  vested ← _vestedAmount l now;
  complete ← (if negb (revoked l)
              then vestEnd ← checked_add 64 (startTime l) (vestingDuration l);
                   Ok (vestEnd <=? now)
              else Ok false);
  if complete : bool then checked_sub (totalAmount l) (releasedAmount l)
  else checked_sub vested (releasedAmount l).

Definition vestedAmount (c : Contract) (now : Z) : Result Z :=
  _vestedAmount (lockupInfo c) now.

Definition releasableAmount (c : Contract) (now : Z) : Result Z :=
  _releasableAmount (lockupInfo c) now.

(** [getVestingProgress()] *)
Definition getVestingProgress (l : LockupInfo) (now : Z) : Result Z :=
  if totalAmount l =? 0 then Ok 0
  else if revoked l then Ok 100
  else
    cliffEnd ← checked_add 64 (startTime l) (cliffDuration l);
    if now <? cliffEnd then Ok 0
    else
      vestEnd ← checked_add 64 (startTime l) (vestingDuration l);
      if vestEnd <=? now then Ok 100
      else
        elapsed ← checked_sub now (startTime l);
        scaled ← checked_mul 256 elapsed 100;
        checked_div scaled (vestingDuration l).

(** [getRemainingVestingTime()] *)
Definition getRemainingVestingTime (l : LockupInfo) (now : Z) : Result Z :=
  if totalAmount l =? 0 then Ok 0
  else if revoked l then Ok 0
  else
    endTime ← checked_add 64 (startTime l) (vestingDuration l);
    if endTime <=? now then Ok 0
    else checked_sub endTime now.

(** [createLockup(_beneficiary, amount, cliffDuration, vestingDuration, revocable)] *)
Definition createLockup (c : Contract) (m : Msg) (tok : Token)
    (_beneficiary amount cliff vesting : Z) (revocable_ : bool) : Tx Contract :=
  _ ← lift (onlyOwner c m);
  nonReentrant c (fun c =>
    _ ← lift (revert_if (negb (beneficiary c =? 0)) LockupAlreadyExists);
    _ ← lift (revert_if (amount =? 0) InvalidAmount);
    _ ← lift (revert_if (vesting =? 0) InvalidDuration);
    _ ← lift (revert_if (vesting <=? cliff) InvalidDuration);
    _ ← lift (revert_if (MAX_VESTING_DURATION <? vesting) InvalidDuration);
    _ ← lift (revert_if (_beneficiary =? 0) InvalidBeneficiary);
    _ ← lift (revert_if (_beneficiary =? this c) InvalidBeneficiary);
    let ownerBalance := balanceOf_sender tok in
    let allowance := allowance_sender tok in
    _ ← lift (revert_if (ownerBalance <? amount) InsufficientBalance);
    _ ← lift (revert_if (allowance <? amount) InsufficientAllowance);
    let balanceBefore := balanceOf_this_before tok in
    let start := block_timestamp m mod (UINT64_MAX + 1) in
    let c' := with_lockup c _beneficiary {|
      totalAmount := amount;
      releasedAmount := 0;
      startTime := start;
      cliffDuration := cliff;
      vestingDuration := vesting;
      revocable := revocable_;
      revoked := false;
      vestedAtRevoke := 0
    |} in
    _ ← request (SafeTransferFrom (msg_sender m) (this c) amount) (transfer_ok tok);
    let balanceAfter := balanceOf_this_after tok in
    actualReceived ← lift (checked_sub balanceAfter balanceBefore);
    _ ← lift (revert_if (actualReceived <? amount)
                (InsufficientTokensReceived actualReceived amount));
    _ ← emit (TokensLocked _beneficiary amount start cliff vesting revocable_);
    mret c').

(** [release()] *)
Definition release (c : Contract) (m : Msg) (tok : Token) : Tx Contract :=
  nonReentrant c (fun c =>
    _ ← lift (revert_if (negb (msg_sender m =? beneficiary c)) NotBeneficiary);
    _ ← lift (revert_if (totalAmount (lockupInfo c) =? 0) NoLockupFound);
    releasable ← lift (_releasableAmount (lockupInfo c) (block_timestamp m));
    _ ← lift (revert_if (releasable =? 0) NoTokensAvailable);
    released ← lift (checked_add 256 (releasedAmount (lockupInfo c)) releasable);
    let c' := with_lockup c (beneficiary c)
                (with_releasedAmount (lockupInfo c) released) in
    _ ← request (SafeTransfer (msg_sender m) releasable) (transfer_ok tok);
    _ ← emit (TokensReleased (msg_sender m) releasable);
    mret c').

(** [revoke()] *)
Definition revoke (c : Contract) (m : Msg) (tok : Token) : Tx Contract :=
  _ ← lift (onlyOwner c m);
  nonReentrant c (fun c =>
    _ ← lift (revert_if (totalAmount (lockupInfo c) =? 0) NoLockupFound);
    _ ← lift (revert_if (revoked (lockupInfo c)) AlreadyRevoked);
    _ ← lift (revert_if (negb (revocable (lockupInfo c))) NotRevocable);
    vested0 ← lift (_vestedAmount (lockupInfo c) (block_timestamp m));
    let vested := if totalAmount (lockupInfo c) <? vested0
                  then totalAmount (lockupInfo c) else vested0 in
    refund ← lift (checked_sub (totalAmount (lockupInfo c)) vested);
    _ ← lift (revert_if (refund =? 0) NothingToRevoke);
    let c' := with_lockup c (beneficiary c) (with_revoked (lockupInfo c) vested) in
    _ ← request (SafeTransfer (owner c) refund) (transfer_ok tok);
    _ ← emit (LockupRevoked (beneficiary c) refund);
    mret c').

(** The state-changing entry points and the transitions of the contract. *)
Inductive Call :=
| CreateLockup (_beneficiary amount cliffDuration vestingDuration : Z) (revocable : bool)
| Release
| Revoke.

Definition exec (c : Contract) (m : Msg) (tok : Token) (call : Call) : Tx Contract :=
  match call with
  | CreateLockup b a cl v r => createLockup c m tok b a cl v r
  | Release => release c m tok
  | Revoke => revoke c m tok
  end.

(** A reverted call changes nothing. *)
Definition step (c : Contract) (m : Msg) (tok : Token) (call : Call) : Contract :=
  match outcome (exec c m tok call) with
  | Ok c' => c'
  | Revert _ => c
  end.

(** What the ABI decoder lets through: addresses, [uint256] amounts,
    [uint64] durations, and a [uint256] timestamp. *)
Definition valid_call (call : Call) : Prop :=
  match call with
  | CreateLockup b a cl v _ =>
      is_uint 160 b /\ is_uint 256 a /\ is_uint 64 cl /\ is_uint 64 v
  | Release | Revoke => True
  end.

Definition valid_msg (m : Msg) : Prop :=
  is_uint 160 (msg_sender m) /\ 0 < msg_sender m /\ is_uint 256 (block_timestamp m).

Definition deployed (deployer self : Z) : Contract := {|
  owner := deployer; this := self; entered := false;
  lockupInfo := noLockup; beneficiary := 0
|}.

Inductive reachable : Contract -> Prop :=
| reachable_deployed deployer self : reachable (deployed deployer self)
| reachable_step c m tok call :
    reachable c -> valid_msg m -> valid_call call ->
    reachable (step c m tok call).

(** Any number of further calls. *)
Fixpoint run (c : Contract) (calls : list (Msg * Token * Call)) : Contract :=
  match calls with
  | [] => c
  | (m, tok, call) :: rest => run (step c m tok call) rest
  end.

(** The fields of a record are of their Solidity types. *)
Definition well_typed (l : LockupInfo) : Prop :=
  is_uint 256 (totalAmount l) /\ is_uint 256 (releasedAmount l) /\
  is_uint 64 (startTime l) /\ is_uint 64 (cliffDuration l) /\
  is_uint 64 (vestingDuration l) /\ is_uint 256 (vestedAtRevoke l).

(** The schedule ends within [uint64]: so it is whenever the record was
    created at a timestamp more than ten years below [2^64]. *)
Definition schedule_fits (l : LockupInfo) : Prop :=
  startTime l + cliffDuration l <= UINT64_MAX /\
  startTime l + vestingDuration l <= UINT64_MAX.

End Single.

(** ** The shape with one lockup per address *)

Module PerAddress.

(** The storage: [mapping(address => LockupInfo) lockups], the owner of
    [Ownable] and the status of [ReentrancyGuard]; [this] is [address(this)]. *)
Record Contract := {
  owner : Z;
  this : Z;
  entered : bool;
  lockups : gmap Z LockupInfo
}.

(** [lockups[beneficiary]]: a key never written reads as the zero record. *)
Definition lockup_at (m : gmap Z LockupInfo) (beneficiary : Z) : LockupInfo :=
  default noLockup (m !! beneficiary).

Definition with_lockups (c : Contract) (m : gmap Z LockupInfo) : Contract := {|
  owner := owner c;
  this := this c;
  entered := entered c;
  lockups := m
|}.

Definition with_entered (c : Contract) (e : bool) : Contract := {|
  owner := owner c;
  this := this c;
  entered := e;
  lockups := lockups c
|}.

(** [constructor(address _token)]; [size] is [extcodesize(_token)]. *)
Definition constructor (deployer self _token size : Z) : Result Contract :=
  _ ← revert_if (_token =? 0) InvalidTokenAddress;
  _ ← revert_if (size =? 0) InvalidTokenAddress;
  mret {| owner := deployer; this := self; entered := false; lockups := ∅ |}.

Definition onlyOwner (c : Contract) (m : Msg) : Result unit :=
  revert_if (negb (owner c =? msg_sender m))
    (OwnableUnauthorizedAccount (msg_sender m)).

Definition nonReentrant (c : Contract) (body : Contract -> Tx Contract) : Tx Contract :=
  _ ← lift (revert_if (entered c) ReentrancyGuardReentrantCall);
  c' ← body (with_entered c true);
  mret (with_entered c' false).

(** [_vestedAmount(beneficiary)] at [block.timestamp = now]: the product is
    taken at the native width. *)
Definition _vestedAmount (m : gmap Z LockupInfo) (beneficiary now : Z) : Result Z :=
  let lockup := lockup_at m beneficiary in
  if totalAmount lockup =? 0 then Ok 0
  else if revoked lockup then Ok (vestedAtRevoke lockup)
  else
    cliffEnd ← checked_add 256 (startTime lockup) (cliffDuration lockup);
    if now <? cliffEnd then Ok 0
    else
      vestEnd ← checked_add 256 (startTime lockup) (vestingDuration lockup);
      if vestEnd <=? now then Ok (totalAmount lockup)
      else
        timeFromStart ← checked_sub now (startTime lockup);
        product ← checked_mul 256 (totalAmount lockup) timeFromStart;
        checked_div product (vestingDuration lockup).

(** [_releasableAmount(beneficiary)] *)
Definition _releasableAmount (m : gmap Z LockupInfo) (beneficiary now : Z) : Result Z :=
  let lockup := lockup_at m beneficiary in
  vested ← _vestedAmount m beneficiary now;
  complete ← (if negb (revoked lockup)
              then vestEnd ← checked_add 256 (startTime lockup) (vestingDuration lockup);
                   Ok (vestEnd <=? now)
              else Ok false);
  if complete : bool then checked_sub (totalAmount lockup) (releasedAmount lockup)
  else checked_sub vested (releasedAmount lockup).

Definition vestedAmount (c : Contract) (beneficiary now : Z) : Result Z :=
  _vestedAmount (lockups c) beneficiary now.

Definition releasableAmount (c : Contract) (beneficiary now : Z) : Result Z :=
  _releasableAmount (lockups c) beneficiary now.

(** [getVestingProgress(beneficiary)] *)
Definition getVestingProgress (m : gmap Z LockupInfo) (beneficiary now : Z) : Result Z :=
  let lockup := lockup_at m beneficiary in
  if totalAmount lockup =? 0 then Ok 0
  else if revoked lockup then Ok 100
  else
    cliffEnd ← checked_add 256 (startTime lockup) (cliffDuration lockup);
    if now <? cliffEnd then Ok 0
    else
      vestEnd ← checked_add 256 (startTime lockup) (vestingDuration lockup);
      if vestEnd <=? now then Ok 100
      else
        elapsed ← checked_sub now (startTime lockup);
        scaled ← checked_mul 256 elapsed 100;
        checked_div scaled (vestingDuration lockup).

(** [getRemainingVestingTime(beneficiary)] *)
Definition getRemainingVestingTime (m : gmap Z LockupInfo) (beneficiary now : Z) : Result Z :=
  let lockup := lockup_at m beneficiary in
  if totalAmount lockup =? 0 then Ok 0
  else if revoked lockup then Ok 0
  else
    endTime ← checked_add 256 (startTime lockup) (vestingDuration lockup);
    if endTime <=? now then Ok 0
    else checked_sub endTime now.

(** [createLockup(beneficiary, amount, cliffDuration, vestingDuration, revocable)] *)
Definition createLockup (c : Contract) (m : Msg) (tok : Token)
    (beneficiary amount cliff vesting : Z) (revocable_ : bool) : Tx Contract :=
  _ ← lift (onlyOwner c m);
  nonReentrant c (fun c =>
    _ ← lift (revert_if (beneficiary =? 0) InvalidBeneficiary);
    _ ← lift (revert_if (beneficiary =? this c) InvalidBeneficiary);
    _ ← lift (revert_if (amount =? 0) InvalidAmount);
    _ ← lift (revert_if (vesting =? 0) InvalidDuration);
    _ ← lift (revert_if (MAX_VESTING_DURATION <? vesting) InvalidDuration);
    _ ← lift (revert_if (vesting <? cliff) InvalidDuration);
    _ ← lift (revert_if (negb (totalAmount (lockup_at (lockups c) beneficiary) =? 0))
                LockupAlreadyExists);
    let c' := with_lockups c (<[beneficiary := {|
      totalAmount := amount;
      releasedAmount := 0;
      startTime := block_timestamp m;
      cliffDuration := cliff;
      vestingDuration := vesting;
      revocable := revocable_;
      revoked := false;
      vestedAtRevoke := 0
    |}]> (lockups c)) in
    _ ← request (SafeTransferFrom (msg_sender m) (this c) amount) (transfer_ok tok);
    _ ← emit (TokensLocked beneficiary amount (block_timestamp m) cliff vesting revocable_);
    mret c').

(** [release()]: the record is the caller's. *)
Definition release (c : Contract) (m : Msg) (tok : Token) : Tx Contract :=
  nonReentrant c (fun c =>
    let lockup := lockup_at (lockups c) (msg_sender m) in
    _ ← lift (revert_if (totalAmount lockup =? 0) NoLockupFound);
    releasable ← lift (_releasableAmount (lockups c) (msg_sender m) (block_timestamp m));
    _ ← lift (revert_if (releasable =? 0) NoTokensAvailable);
    released ← lift (checked_add 256 (releasedAmount lockup) releasable);
    let c' := with_lockups c
                (<[msg_sender m := with_releasedAmount lockup released]> (lockups c)) in
    _ ← request (SafeTransfer (msg_sender m) releasable) (transfer_ok tok);
    _ ← emit (TokensReleased (msg_sender m) releasable);
    mret c').

(** [revoke(beneficiary)]: the refund is paid when there is one, and the
    record is marked revoked either way. *)
Definition revoke (c : Contract) (m : Msg) (tok : Token) (beneficiary : Z) : Tx Contract :=
  _ ← lift (onlyOwner c m);
  nonReentrant c (fun c =>
    let lockup := lockup_at (lockups c) beneficiary in
    _ ← lift (revert_if (totalAmount lockup =? 0) NoLockupFound);
    _ ← lift (revert_if (revoked lockup) AlreadyRevoked);
    _ ← lift (revert_if (negb (revocable lockup)) NotRevocable);
    vested0 ← lift (_vestedAmount (lockups c) beneficiary (block_timestamp m));
    let vested := if totalAmount lockup <? vested0 then totalAmount lockup else vested0 in
    refund ← lift (checked_sub (totalAmount lockup) vested);
    let c' := with_lockups c
                (<[beneficiary := with_revoked lockup vested]> (lockups c)) in
    _ ← (if 0 <? refund
         then request (SafeTransfer (owner c) refund) (transfer_ok tok)
         else mret tt);
    _ ← emit (LockupRevoked beneficiary refund);
    mret c').

Inductive Call :=
| CreateLockup (beneficiary amount cliffDuration vestingDuration : Z) (revocable : bool)
| Release
| Revoke (beneficiary : Z).

Definition exec (c : Contract) (m : Msg) (tok : Token) (call : Call) : Tx Contract :=
  match call with
  | CreateLockup b a cl v r => createLockup c m tok b a cl v r
  | Release => release c m tok
  | Revoke b => revoke c m tok b
  end.

Definition step (c : Contract) (m : Msg) (tok : Token) (call : Call) : Contract :=
  match outcome (exec c m tok call) with
  | Ok c' => c'
  | Revert _ => c
  end.

Definition valid_call (call : Call) : Prop :=
  match call with
  | CreateLockup b a cl v _ =>
      is_uint 160 b /\ is_uint 256 a /\ is_uint 256 cl /\ is_uint 256 v
  | Release => True
  | Revoke b => is_uint 160 b
  end.

Definition valid_msg (m : Msg) : Prop :=
  is_uint 160 (msg_sender m) /\ 0 < msg_sender m /\ is_uint 256 (block_timestamp m).

Definition deployed (deployer self : Z) : Contract := {|
  owner := deployer; this := self; entered := false; lockups := ∅
|}.

Inductive reachable : Contract -> Prop :=
| reachable_deployed deployer self : reachable (deployed deployer self)
| reachable_step c m tok call :
    reachable c -> valid_msg m -> valid_call call ->
    reachable (step c m tok call).

Fixpoint run (c : Contract) (calls : list (Msg * Token * Call)) : Contract :=
  match calls with
  | [] => c
  | (m, tok, call) :: rest => run (step c m tok call) rest
  end.

Definition well_typed (l : LockupInfo) : Prop :=
  is_uint 256 (totalAmount l) /\ is_uint 256 (releasedAmount l) /\
  is_uint 256 (startTime l) /\ is_uint 256 (cliffDuration l) /\
  is_uint 256 (vestingDuration l) /\ is_uint 256 (vestedAtRevoke l).

(** The schedule ends within [uint256]. *)
Definition schedule_fits (l : LockupInfo) : Prop :=
  startTime l + cliffDuration l <= UINT256_MAX /\
  startTime l + vestingDuration l <= UINT256_MAX.

End PerAddress.

(** ** The invariants of the reachable states *)

(** [Single]: the guard is released between calls, the record is well typed,
    nothing beyond the total is released or frozen, and the record exists
    exactly when [beneficiary] is set. *)
Definition single_inv (c : Single.Contract) : Prop :=
  let l := Single.lockupInfo c in
  Single.entered c = false /\
  Single.well_typed l /\
  releasedAmount l <= totalAmount l /\
  vestedAtRevoke l <= totalAmount l /\
  (Single.beneficiary c = 0 -> l = noLockup) /\
  (Single.beneficiary c <> 0 ->
   0 < totalAmount l /\ cliffDuration l < vestingDuration l <= MAX_VESTING_DURATION) /\
  (revoked l = false -> vestedAtRevoke l = 0).

(** What holds of every slot of [lockups], written or not. *)
Definition record_inv (l : LockupInfo) : Prop :=
  PerAddress.well_typed l /\
  releasedAmount l <= totalAmount l /\
  vestedAtRevoke l <= totalAmount l /\
  (totalAmount l = 0 -> l = noLockup) /\
  (totalAmount l <> 0 ->
   0 < vestingDuration l /\ cliffDuration l <= vestingDuration l <= MAX_VESTING_DURATION) /\
  (revoked l = false -> vestedAtRevoke l = 0).

Definition peraddress_inv (c : PerAddress.Contract) : Prop :=
  PerAddress.entered c = false /\
  forall b, record_inv (PerAddress.lockup_at (PerAddress.lockups c) b).

(** What a revoked record keeps through a call. *)
Definition single_frozen (v : Z) (c : Single.Contract) : Prop :=
  revoked (Single.lockupInfo c) = true /\
  totalAmount (Single.lockupInfo c) <> 0 /\
  Single.beneficiary c <> 0 /\
  vestedAtRevoke (Single.lockupInfo c) = v.

Definition peraddress_frozen (b v : Z) (c : PerAddress.Contract) : Prop :=
  let l := PerAddress.lockup_at (PerAddress.lockups c) b in
  revoked l = true /\ totalAmount l <> 0 /\ vestedAtRevoke l = v.

(** Block timestamps count seconds and stay more than ten years below the end
    of [uint64]. *)
Definition plausible_time (m : Msg) : Prop :=
  0 <= block_timestamp m /\ block_timestamp m + MAX_VESTING_DURATION <= UINT64_MAX.

(** A call refused before anything was asked of the token. *)
Definition rejected {A : Type} (t : Tx A) : Prop :=
  exists e, t = mkTx [] (Revert e).

(** ** Sample deployments and calls, for the examples *)

Definition at_time (sender t : Z) : Msg :=
  {| msg_sender := sender; block_timestamp := t |}.

(** A token that holds enough and carries every transfer out. *)
Definition sample_token : Token := {|
  balanceOf_sender := UINT256_MAX;
  allowance_sender := UINT256_MAX;
  balanceOf_this_before := 0;
  balanceOf_this_after := UINT256_MAX;
  transfer_ok := true
|}.

Definition TWO_255 : Z := Eval cbv in 2 ^ 255.
Definition TWO_254 : Z := Eval cbv in 2 ^ 254.
Definition TWO_230 : Z := Eval cbv in 2 ^ 230.

(** Owner [1] locks [2^255] units for address [7] over 100 seconds. *)
Definition huge_per_address : PerAddress.Contract :=
  PerAddress.step (PerAddress.deployed 1 2) (at_time 1 1700000000) sample_token
    (PerAddress.CreateLockup 7 TWO_255 0 100 true).

(** Owner [1] locks [2^230] units for address [7] over ten years with a
    one-year cliff. *)
Definition decade_per_address : PerAddress.Contract :=
  PerAddress.step (PerAddress.deployed 1 2) (at_time 1 1700000000) sample_token
    (PerAddress.CreateLockup 7 TWO_230 31536000 315360000 true).

Definition decade_single : Single.Contract :=
  Single.step (Single.deployed 1 2) (at_time 1 1700000000) sample_token
    (Single.CreateLockup 7 TWO_230 31536000 315360000 true).

(** Owner [1] locks 1000 units for address [7] over 1000 seconds, no cliff. *)
Definition small_per_address : PerAddress.Contract :=
  PerAddress.step (PerAddress.deployed 1 2) (at_time 1 1700000000) sample_token
    (PerAddress.CreateLockup 7 1000 0 1000 true).

Definition small_single : Single.Contract :=
  Single.step (Single.deployed 1 2) (at_time 1 1700000000) sample_token
    (Single.CreateLockup 7 1000 0 1000 true).

Definition decade_lockup : LockupInfo := {|
  totalAmount := TWO_230;
  releasedAmount := 0;
  startTime := 1700000000;
  cliffDuration := 31536000;
  vestingDuration := 315360000;
  revocable := true;
  revoked := false;
  vestedAtRevoke := 0
|}.

Definition small_lockup : LockupInfo := {|
  totalAmount := 1000;
  releasedAmount := 0;
  startTime := 1700000000;
  cliffDuration := 0;
  vestingDuration := 1000;
  revocable := true;
  revoked := false;
  vestedAtRevoke := 0
|}.

(** ** Further notions, for what else the code shows *)

(** What [createLockup] fixes of a record. *)
Definition same_schedule (l l' : LockupInfo) : Prop :=
  totalAmount l' = totalAmount l /\ startTime l' = startTime l /\
  cliffDuration l' = cliffDuration l /\ vestingDuration l' = vestingDuration l /\
  revocable l' = revocable l.

(** Owner [1] locks 1000 units for address [7] over 1000 seconds, no cliff, and
    gives up the right to revoke. *)
Definition firm_per_address : PerAddress.Contract :=
  PerAddress.step (PerAddress.deployed 1 2) (at_time 1 1700000000) sample_token
    (PerAddress.CreateLockup 7 1000 0 1000 false).

Definition firm_single : Single.Contract :=
  Single.step (Single.deployed 1 2) (at_time 1 1700000000) sample_token
    (Single.CreateLockup 7 1000 0 1000 false).

(** ** Accounts of the tokens moved *)

(** What a record still sets aside: the total, or after a revocation the amount
    frozen for the beneficiary, less what has been released. *)
Definition held (l : LockupInfo) : Z :=
  (if revoked l then vestedAtRevoke l else totalAmount l) - releasedAmount l.

Definition held_all (lk : gmap Z LockupInfo) : Z :=
  map_fold (fun _ l acc => held l + acc) 0 lk.

(** Tokens a request moves into the contract; a payment out counts negative. *)
Definition moved (e : Effect) : Z :=
  match e with
  | SafeTransferFrom _ _ amount => amount
  | SafeTransfer _ amount => - amount
  | _ => 0
  end.

Definition net_inflow (tr : list Effect) : Z :=
  foldr (fun e acc => moved e + acc) 0 tr.

(** What remains of a call: its trace when it went through, nothing when it
    reverted. *)
Definition carried_out {A : Type} (t : Tx A) : list Effect :=
  match outcome t with
  | Ok _ => trace t
  | Revert _ => []
  end.

Fixpoint single_history (c : Single.Contract)
    (calls : list (Msg * Token * Single.Call)) : list Effect :=
  match calls with
  | [] => []
  | (m, tok, call) :: rest =>
      carried_out (Single.exec c m tok call) ++
      single_history (Single.step c m tok call) rest
  end.

Fixpoint peraddress_history (c : PerAddress.Contract)
    (calls : list (Msg * Token * PerAddress.Call)) : list Effect :=
  match calls with
  | [] => []
  | (m, tok, call) :: rest =>
      carried_out (PerAddress.exec c m tok call) ++
      peraddress_history (PerAddress.step c m tok call) rest
  end.

(** Block timestamps never go back: from [t] on, each call comes no earlier
    than the one before it. *)
Fixpoint in_time_order {C : Type} (t : Z) (calls : list (Msg * Token * C)) : Prop :=
  match calls with
  | [] => True
  | (m, _, _) :: rest =>
      t <= block_timestamp m /\ in_time_order (block_timestamp m) rest
  end.

(** A record has released no more than its schedule gives from [t] on, or than
    was frozen at its revocation. *)
Definition paid_within (t : Z) (l : LockupInfo) : Prop :=
  (revoked l = true -> releasedAmount l <= vestedAtRevoke l) /\
  (revoked l = false -> forall t', t <= t' -> releasedAmount l <= vested_spec l t').

Definition single_valid (x : Msg * Token * Single.Call) : Prop :=
  Single.valid_msg x.1.1 /\ Single.valid_call x.2.

Definition peraddress_valid (x : Msg * Token * PerAddress.Call) : Prop :=
  PerAddress.valid_msg x.1.1 /\ PerAddress.valid_call x.2.

(** ** Checked arithmetic: when it returns, and what *)

Section Arithmetic.

Lemma uint_max_64 : uint_max 64 = UINT64_MAX.
Proof. reflexivity. Qed.

Lemma uint_max_256 : uint_max 256 = UINT256_MAX.
Proof. reflexivity. Qed.

Lemma two_256_succ : TWO_256 = UINT256_MAX + 1.
Proof. reflexivity. Qed.

Lemma checked_add_ok w a b :
  a + b <= uint_max w -> checked_add w a b = Ok (a + b).
Proof.
  intros H. unfold checked_add.
  destruct (Z.leb_spec (a + b) (uint_max w)); [reflexivity | lia].
Qed.

Lemma checked_add_inv w a b r :
  checked_add w a b = Ok r -> r = a + b /\ a + b <= uint_max w.
Proof.
  unfold checked_add.
  destruct (Z.leb_spec (a + b) (uint_max w)); intros Hr; inversion Hr; auto.
Qed.

Lemma checked_sub_ok a b : b <= a -> checked_sub a b = Ok (a - b).
Proof.
  intros H. unfold checked_sub.
  destruct (Z.leb_spec b a); [reflexivity | lia].
Qed.

Lemma checked_sub_inv a b r : checked_sub a b = Ok r -> r = a - b /\ b <= a.
Proof.
  unfold checked_sub.
  destruct (Z.leb_spec b a); intros Hr; inversion Hr; auto.
Qed.

Lemma checked_mul_ok w a b :
  a * b <= uint_max w -> checked_mul w a b = Ok (a * b).
Proof.
  intros H. unfold checked_mul.
  destruct (Z.leb_spec (a * b) (uint_max w)); [reflexivity | lia].
Qed.

Lemma checked_mul_inv w a b r :
  checked_mul w a b = Ok r -> r = a * b /\ a * b <= uint_max w.
Proof.
  unfold checked_mul.
  destruct (Z.leb_spec (a * b) (uint_max w)); intros Hr; inversion Hr; auto.
Qed.

Lemma checked_mul_overflow w a b :
  uint_max w < a * b -> checked_mul w a b = Revert (Panic ARITHMETIC_OVERFLOW).
Proof.
  intros H. unfold checked_mul.
  destruct (Z.leb_spec (a * b) (uint_max w)); [lia | reflexivity].
Qed.

Lemma checked_div_ok a b : b <> 0 -> checked_div a b = Ok (a / b).
Proof.
  intros H. unfold checked_div.
  destruct (Z.eqb_spec b 0); [contradiction | reflexivity].
Qed.

Lemma checked_div_inv a b r : checked_div a b = Ok r -> r = a / b /\ b <> 0.
Proof.
  unfold checked_div.
  destruct (Z.eqb_spec b 0); intros Hr; inversion Hr; auto.
Qed.

(** The linear part never passes the total. *)
Lemma linear_le_total total t d :
  0 <= total -> 0 <= t < d -> total * t / d <= total.
Proof.
  intros Htot [Ht Hd].
  apply Z.div_le_upper_bound; [lia | nia].
Qed.

Lemma linear_nonneg total t d :
  0 <= total -> 0 <= t -> 0 < d -> 0 <= total * t / d.
Proof.
  intros Htot Ht Hd. apply Z.div_pos; nia.
Qed.

(** It stays strictly below a positive total. *)
Lemma linear_lt_total total t d :
  0 < total -> 0 <= t < d -> total * t / d < total.
Proof.
  intros Htot [Ht Hd].
  apply Z.div_lt_upper_bound; [lia | nia].
Qed.

Lemma linear_mono total t1 t2 d :
  0 <= total -> 0 < d -> t1 <= t2 -> total * t1 / d <= total * t2 / d.
Proof.
  intros Htot Hd Ht. apply Z.div_le_mono; [lia | nia].
Qed.

(** [mulDiv] is the exact quotient whenever the quotient fits 256 bits,
    whatever the width of the product. *)
Lemma mulDiv_exact x y d :
  0 <= x -> 0 <= y -> 0 < d -> x * y / d <= UINT256_MAX ->
  mulDiv x y d = Ok (x * y / d).
Proof.
  intros Hx Hy Hd Hq. unfold mulDiv.
  assert (Hp : 0 <= x * y) by nia.
  assert (H256 : 0 < TWO_256) by (unfold TWO_256; lia).
  destruct (Z.eqb_spec (x * y / TWO_256) 0) as [Hhi | Hhi].
  - rewrite Z.mod_small.
    + apply checked_div_ok. lia.
    + split; [lia |].
      destruct (Z.lt_ge_cases (x * y) TWO_256) as [Hlt | Hge]; [exact Hlt |].
      exfalso. assert (1 <= x * y / TWO_256); [| lia].
      apply Z.div_le_lower_bound; lia.
  - assert (Hlt : x * y / TWO_256 < d).
    { apply Z.div_lt_upper_bound; [lia |].
      assert (Hb : x * y < d * (UINT256_MAX + 1)).
      { pose proof (Z.mul_succ_div_gt (x * y) d Hd) as Hs.
        assert (d * Z.succ (x * y / d) <= d * (UINT256_MAX + 1)) by nia.
        lia. }
      rewrite two_256_succ. lia. }
    destruct (Z.leb_spec d (x * y / TWO_256)); [lia |].
    f_equal. f_equal.
    pose proof (Z.div_mod (x * y) TWO_256) as Hdm. lia.
Qed.

Lemma mulDiv_inv x y d r :
  0 <= x * y -> mulDiv x y d = Ok r -> r = x * y / d /\ d <> 0.
Proof.
  intros Hp. unfold mulDiv.
  assert (H256 : 0 < TWO_256) by (unfold TWO_256; lia).
  destruct (Z.eqb_spec (x * y / TWO_256) 0) as [Hhi | Hhi].
  - intros H. apply checked_div_inv in H as [-> Hd]. split; [| exact Hd].
    f_equal. apply Z.mod_small.
    apply Z.div_small_iff in Hhi; [| lia]. lia.
  - destruct (Z.leb_spec d (x * y / TWO_256)) as [Hle | Hgt]; [discriminate |].
    intros H. inversion H. split.
    + f_equal. pose proof (Z.div_mod (x * y) TWO_256). lia.
    + assert (0 <= x * y / TWO_256) by (apply Z.div_pos; lia).
      lia.
Qed.

End Arithmetic.

(** ** Proof steps shared by the two shapes *)

Lemma uint_max_160 : uint_max 160 = UINT160_MAX.
Proof. reflexivity. Qed.

(** Bring every width to its literal, for [lia]. *)
Ltac widths :=
  unfold Single.well_typed, Single.schedule_fits, Single.valid_msg,
    PerAddress.well_typed, PerAddress.schedule_fits,
    PerAddress.valid_msg, is_uint in *;
  rewrite ?uint_max_64, ?uint_max_256, ?uint_max_160 in *;
  unfold UINT64_MAX, UINT256_MAX, UINT160_MAX, MAX_VESTING_DURATION in *.

(** Close a side condition on concrete numbers. *)
Ltac concrete :=
  cbn; widths; cbn;
  unfold UINT64_MAX, UINT256_MAX, UINT160_MAX, TWO_256, TWO_255, TWO_254, TWO_230,
    MAX_VESTING_DURATION;
  lia.

(** Decide the next comparison of the goal. *)
Ltac branch :=
  match goal with
  | |- context [?a =? ?b] => destruct (Z.eqb_spec a b)
  | |- context [?a <? ?b] => destruct (Z.ltb_spec a b)
  | |- context [?a <=? ?b] => destruct (Z.leb_spec a b)
  end.

(** Run the binds whose left side is a value. *)
Ltac reduce :=
  cbn [mbind mret Result_bind Result_ret Tx_bind Tx_ret lift emit request
       outcome trace revert_if negb app] in *.

Lemma bind_ok {A B : Type} (r : Result A) (f : A -> Result B) (a : A) :
  r = Ok a -> (r ≫= f) = f a.
Proof. intros ->. reflexivity. Qed.

Lemma bind_inv {A B : Type} (r : Result A) (f : A -> Result B) (b : B) :
  (r ≫= f) = Ok b -> exists a, r = Ok a /\ f a = Ok b.
Proof. destruct r as [a | e]; [eauto | discriminate]. Qed.

Lemma outcome_bind {A B : Type} (t : Tx A) (f : A -> Tx B) :
  outcome (t ≫= f) =
  match outcome t with
  | Ok a => outcome (f a)
  | Revert e => Revert e
  end.
Proof. unfold mbind, Tx_bind. destruct (outcome t); reflexivity. Qed.

Lemma trace_bind {A B : Type} (t : Tx A) (f : A -> Tx B) :
  trace (t ≫= f) =
  match outcome t with
  | Ok a => trace t ++ trace (f a)
  | Revert _ => trace t
  end.
Proof. unfold mbind, Tx_bind. destruct (outcome t); reflexivity. Qed.

(** A check that passes hands over to the rest of the call; one that fails ends
    it with nothing asked of the token. *)
Lemma lift_bind {A B : Type} (r : Result A) (f : A -> Tx B) :
  (lift r ≫= f) =
  match r with
  | Ok a => f a
  | Revert e => mkTx [] (Revert e)
  end.
Proof.
  unfold mbind, Tx_bind, lift. destruct r as [a | e]; cbn; [| reflexivity].
  destruct (f a); reflexivity.
Qed.

(** The closing of [nonReentrant] keeps the trace of the body. *)
Lemma bind_mret {A B : Type} (t : Tx A) (g : A -> B) :
  (t ≫= λ a, mret (g a)) =
  mkTx (trace t) (match outcome t with
                  | Ok a => Ok (g a)
                  | Revert e => Revert e
                  end).
Proof.
  unfold mbind, mret, Tx_bind, Tx_ret. destruct (outcome t); cbn; [| reflexivity].
  rewrite app_nil_r. reflexivity.
Qed.

(** Take the next check of a call that goes through: the branch where the
    check fails is closed at once. *)
Ltac check_with spec :=
  rewrite lift_bind; destruct spec;
  cbn [revert_if negb outcome trace]; try discriminate.

(** ** [Single]: the vesting schedule *)

Section SingleVesting.

Variable l : LockupInfo.
Hypothesis Htyped : Single.well_typed l.
Hypothesis Hfits : Single.schedule_fits l.

(** [_vestedAmount] returns, and returns the schedule of the specification. *)
Lemma single_vestedAmount_spec now :
  0 <= now <= UINT256_MAX ->
  Single._vestedAmount l now = Ok (vested_spec l now).
Proof.
  intros Hnow. unfold Single._vestedAmount, vested_spec.
  branch; [reflexivity |].
  destruct (revoked l); [reflexivity |].
  widths.
  rewrite (checked_add_ok 64 (startTime l) (cliffDuration l)) by (widths; lia).
  reduce. branch; [reflexivity |].
  rewrite (checked_add_ok 64 (startTime l) (vestingDuration l)) by (widths; lia).
  reduce. branch; [reflexivity |].
  rewrite checked_sub_ok by lia. reduce.
  apply mulDiv_exact; try lia.
  pose proof (linear_le_total (totalAmount l) (now - startTime l)
                (vestingDuration l)).
  unfold UINT256_MAX. lia.
Qed.

(** In the linear part the quotient is exact and the call returns, however
    wide the product. *)
Lemma single_vestedAmount_linear now :
  totalAmount l <> 0 -> revoked l = false ->
  startTime l + cliffDuration l <= now < startTime l + vestingDuration l ->
  Single._vestedAmount l now =
    Ok (totalAmount l * (now - startTime l) / vestingDuration l).
Proof.
  intros Htot Hrev Hphase.
  rewrite single_vestedAmount_spec by (widths; lia).
  unfold vested_spec. rewrite Hrev.
  repeat branch; try reflexivity; lia.
Qed.

Lemma single_vested_le_total now v :
  vestedAtRevoke l <= totalAmount l ->
  Single._vestedAmount l now = Ok v -> 0 <= v <= totalAmount l.
Proof.
  intros Hsnap. unfold Single._vestedAmount. widths.
  branch; [intros Hv; inversion Hv; lia |].
  destruct (revoked l); [intros Hv; inversion Hv; lia |].
  intros Hv. apply bind_inv in Hv as (cliffEnd & Hc & Hv).
  apply checked_add_inv in Hc as [-> _].
  revert Hv. branch; [intros Hv; inversion Hv; lia |].
  intros Hv. apply bind_inv in Hv as (vestEnd & He & Hv).
  apply checked_add_inv in He as [-> _].
  revert Hv. branch; [intros Hv; inversion Hv; lia |].
  intros Hv. apply bind_inv in Hv as (t & Ht & Hv).
  apply checked_sub_inv in Ht as [-> _].
  apply mulDiv_inv in Hv as [-> Hd]; [| nia].
  split.
  - apply linear_nonneg; lia.
  - apply linear_le_total; lia.
Qed.

End SingleVesting.

(** ** The schedule of the specification: bounds and monotonicity *)

Section Schedule.

Variable l : LockupInfo.
Hypothesis Htotal : 0 <= totalAmount l.
Hypothesis Hstart : 0 <= startTime l.
Hypothesis Hcliff : 0 <= cliffDuration l.
Hypothesis Hsnap : revoked l = true -> 0 <= vestedAtRevoke l <= totalAmount l.

Lemma vested_spec_bounds now : 0 <= vested_spec l now <= totalAmount l.
Proof.
  unfold vested_spec.
  branch; [lia |].
  destruct (revoked l); [apply Hsnap; reflexivity |].
  branch; [lia |].
  branch; [lia |].
  split.
  - apply linear_nonneg; lia.
  - apply linear_le_total; lia.
Qed.

Lemma vested_spec_mono t1 t2 :
  revoked l = false -> t1 <= t2 -> vested_spec l t1 <= vested_spec l t2.
Proof.
  intros Hrev Ht.
  pose proof (vested_spec_bounds t2) as Hb2.
  unfold vested_spec in *. rewrite Hrev in *.
  destruct (Z.eqb_spec (totalAmount l) 0); [lia |].
  destruct (Z.ltb_spec t1 (startTime l + cliffDuration l)); [lia |].
  destruct (Z.ltb_spec t2 (startTime l + cliffDuration l)); [lia |].
  destruct (Z.leb_spec (startTime l + vestingDuration l) t1);
    destruct (Z.leb_spec (startTime l + vestingDuration l) t2); try lia.
  - apply linear_le_total; lia.
  - apply linear_mono; lia.
Qed.

End Schedule.

(** Whatever [Single._vestedAmount] returns is the schedule's value. *)
Lemma single_vestedAmount_inv l now v :
  0 <= totalAmount l ->
  Single._vestedAmount l now = Ok v -> v = vested_spec l now.
Proof.
  intros Htot. unfold Single._vestedAmount, vested_spec.
  destruct (Z.eqb_spec (totalAmount l) 0); [congruence |].
  destruct (revoked l); [congruence |].
  intros Hv. apply bind_inv in Hv as (cliffEnd & Hc & Hv).
  apply checked_add_inv in Hc as [-> _].
  destruct (Z.ltb_spec now (startTime l + cliffDuration l)); [congruence |].
  apply bind_inv in Hv as (vestEnd & He & Hv).
  apply checked_add_inv in He as [-> _].
  destruct (Z.leb_spec (startTime l + vestingDuration l) now); [congruence |].
  apply bind_inv in Hv as (t & Ht & Hv).
  apply checked_sub_inv in Ht as [-> Hge].
  apply mulDiv_inv in Hv as [-> _]; [reflexivity | nia].
Qed.

(** ** [PerAddress]: the vesting schedule *)

Section PerAddressVesting.

Variable m : gmap Z LockupInfo.
Variable b : Z.

Let l := PerAddress.lockup_at m b.

(** Whatever [_vestedAmount] returns is the schedule's value. *)
Lemma peraddress_vestedAmount_inv now v :
  PerAddress._vestedAmount m b now = Ok v -> v = vested_spec l now.
Proof.
  unfold PerAddress._vestedAmount, vested_spec. fold l.
  destruct (Z.eqb_spec (totalAmount l) 0); [congruence |].
  destruct (revoked l); [congruence |].
  intros Hv. apply bind_inv in Hv as (cliffEnd & Hc & Hv).
  apply checked_add_inv in Hc as [-> _].
  destruct (Z.ltb_spec now (startTime l + cliffDuration l)); [congruence |].
  apply bind_inv in Hv as (vestEnd & He & Hv).
  apply checked_add_inv in He as [-> _].
  destruct (Z.leb_spec (startTime l + vestingDuration l) now); [congruence |].
  apply bind_inv in Hv as (t & Ht & Hv).
  apply checked_sub_inv in Ht as [-> _].
  apply bind_inv in Hv as (p & Hp & Hv).
  apply checked_mul_inv in Hp as [-> _].
  apply checked_div_inv in Hv as [-> _]. reflexivity.
Qed.

Hypothesis Htyped : PerAddress.well_typed l.
Hypothesis Hfits : PerAddress.schedule_fits l.

(** It returns whenever the native product fits [uint256]. *)
Lemma peraddress_vestedAmount_spec now :
  0 <= now ->
  (totalAmount l <> 0 -> revoked l = false ->
   startTime l + cliffDuration l <= now < startTime l + vestingDuration l ->
   totalAmount l * (now - startTime l) <= UINT256_MAX) ->
  PerAddress._vestedAmount m b now = Ok (vested_spec l now).
Proof.
  intros Hnow Hprod. unfold PerAddress._vestedAmount, vested_spec. fold l.
  destruct (Z.eqb_spec (totalAmount l) 0); [reflexivity |].
  destruct (revoked l); [reflexivity |].
  specialize (Hprod ltac:(assumption) eq_refl).
  rewrite (checked_add_ok 256 (startTime l) (cliffDuration l)) by (widths; lia).
  reduce.
  destruct (Z.ltb_spec now (startTime l + cliffDuration l)); [reflexivity |].
  rewrite (checked_add_ok 256 (startTime l) (vestingDuration l)) by (widths; lia).
  reduce.
  destruct (Z.leb_spec (startTime l + vestingDuration l) now); [reflexivity |].
  rewrite checked_sub_ok by (widths; lia). reduce.
  rewrite checked_mul_ok by (rewrite uint_max_256; apply Hprod; lia). reduce.
  apply checked_div_ok. widths. lia.
Qed.

(** In the linear part a product beyond [uint256] aborts the call. *)
Lemma peraddress_vestedAmount_overflow now :
  totalAmount l <> 0 -> revoked l = false ->
  startTime l + cliffDuration l <= now < startTime l + vestingDuration l ->
  UINT256_MAX < totalAmount l * (now - startTime l) ->
  PerAddress._vestedAmount m b now = Revert (Panic ARITHMETIC_OVERFLOW).
Proof.
  intros Htot Hrev Hphase Hprod. unfold PerAddress._vestedAmount. fold l.
  destruct (Z.eqb_spec (totalAmount l) 0); [contradiction |].
  rewrite Hrev.
  rewrite (checked_add_ok 256 (startTime l) (cliffDuration l)) by (widths; lia).
  reduce.
  destruct (Z.ltb_spec now (startTime l + cliffDuration l)); [lia |].
  rewrite (checked_add_ok 256 (startTime l) (vestingDuration l)) by (widths; lia).
  reduce.
  destruct (Z.leb_spec (startTime l + vestingDuration l) now); [lia |].
  rewrite checked_sub_ok by (widths; lia). reduce.
  rewrite checked_mul_overflow by (rewrite uint_max_256; lia).
  reflexivity.
Qed.

End PerAddressVesting.

(** ** [Single]: what a call that goes through has checked and done *)

Ltac open_single c :=
  destruct c as [o s e l b];
  cbn [Single.entered Single.lockupInfo Single.beneficiary Single.with_entered
       Single.with_lockup Single.owner Single.this] in *.

Lemma single_createLockup_inv c m tok b_ amount cliff vesting rev c' :
  outcome (Single.createLockup c m tok b_ amount cliff vesting rev) = Ok c' ->
  Single.owner c = msg_sender m /\ Single.entered c = false /\
  Single.beneficiary c = 0 /\ amount <> 0 /\ vesting <> 0 /\
  cliff < vesting <= MAX_VESTING_DURATION /\
  b_ <> 0 /\ b_ <> Single.this c /\
  amount <= balanceOf_sender tok /\ amount <= allowance_sender tok /\
  transfer_ok tok = true /\
  amount <= balanceOf_this_after tok - balanceOf_this_before tok /\
  c' = Single.with_lockup c b_ {|
         totalAmount := amount;
         releasedAmount := 0;
         startTime := block_timestamp m mod (UINT64_MAX + 1);
         cliffDuration := cliff;
         vestingDuration := vesting;
         revocable := rev;
         revoked := false;
         vestedAtRevoke := 0 |} /\
  trace (Single.createLockup c m tok b_ amount cliff vesting rev) =
    [SafeTransferFrom (msg_sender m) (Single.this c) amount;
     TokensLocked b_ amount (block_timestamp m mod (UINT64_MAX + 1)) cliff vesting rev].
Proof.
  unfold Single.createLockup, Single.nonReentrant, Single.onlyOwner.
  open_single c.
  check_with (Z.eqb_spec o (msg_sender m)).
  rewrite bind_mret. cbn [outcome trace].
  check_with e.
  check_with (Z.eqb_spec b 0).
  check_with (Z.eqb_spec amount 0).
  check_with (Z.eqb_spec vesting 0).
  check_with (Z.leb_spec vesting cliff).
  check_with (Z.ltb_spec MAX_VESTING_DURATION vesting).
  check_with (Z.eqb_spec b_ 0).
  check_with (Z.eqb_spec b_ s).
  check_with (Z.ltb_spec (balanceOf_sender tok) amount).
  check_with (Z.ltb_spec (allowance_sender tok) amount).
  destruct (transfer_ok tok); [| discriminate].
  destruct (checked_sub (balanceOf_this_after tok) (balanceOf_this_before tok))
    as [received | err] eqn:Hsub; [| reduce; discriminate].
  apply checked_sub_inv in Hsub as [-> _]. reduce.
  destruct (Z.ltb_spec (balanceOf_this_after tok - balanceOf_this_before tok) amount);
    [discriminate |].
  reduce. intros Hc'. inversion Hc'. subst.
  repeat split; auto; lia.
Qed.

Lemma single_release_inv c m tok c' :
  outcome (Single.release c m tok) = Ok c' ->
  Single.entered c = false /\ msg_sender m = Single.beneficiary c /\
  totalAmount (Single.lockupInfo c) <> 0 /\ transfer_ok tok = true /\
  exists releasable,
    Single._releasableAmount (Single.lockupInfo c) (block_timestamp m) = Ok releasable /\
    releasable <> 0 /\
    releasedAmount (Single.lockupInfo c) + releasable <= UINT256_MAX /\
    c' = Single.with_lockup c (Single.beneficiary c)
           (with_releasedAmount (Single.lockupInfo c)
              (releasedAmount (Single.lockupInfo c) + releasable)) /\
    trace (Single.release c m tok) =
      [SafeTransfer (msg_sender m) releasable; TokensReleased (msg_sender m) releasable].
Proof.
  unfold Single.release, Single.nonReentrant.
  open_single c.
  destruct e; [discriminate |]. reduce.
  destruct (Z.eqb_spec (msg_sender m) b); [| discriminate]. reduce.
  destruct (Z.eqb_spec (totalAmount l) 0); [discriminate |]. reduce.
  destruct (Single._releasableAmount l (block_timestamp m)) as [releasable | err];
    [| discriminate].
  reduce.
  destruct (Z.eqb_spec releasable 0); [discriminate |]. reduce.
  destruct (checked_add 256 (releasedAmount l) releasable) as [released | err] eqn:Hadd;
    [| discriminate].
  apply checked_add_inv in Hadd as [-> Hle]. reduce.
  destruct (transfer_ok tok); [| discriminate]. reduce.
  intros Hc'. inversion Hc'. subst.
  repeat split; auto. exists releasable. repeat split; auto.
Qed.

Lemma single_revoke_inv c m tok c' :
  outcome (Single.revoke c m tok) = Ok c' ->
  Single.owner c = msg_sender m /\ Single.entered c = false /\
  totalAmount (Single.lockupInfo c) <> 0 /\
  revoked (Single.lockupInfo c) = false /\
  revocable (Single.lockupInfo c) = true /\
  transfer_ok tok = true /\
  exists vested0,
    Single._vestedAmount (Single.lockupInfo c) (block_timestamp m) = Ok vested0 /\
    let vested := Z.min vested0 (totalAmount (Single.lockupInfo c)) in
    let refund := totalAmount (Single.lockupInfo c) - vested in
    0 < refund /\
    c' = Single.with_lockup c (Single.beneficiary c)
           (with_revoked (Single.lockupInfo c) vested) /\
    trace (Single.revoke c m tok) =
      [SafeTransfer (Single.owner c) refund;
       LockupRevoked (Single.beneficiary c) refund].
Proof.
  unfold Single.revoke, Single.nonReentrant, Single.onlyOwner.
  open_single c.
  destruct (Z.eqb_spec o (msg_sender m)); [| discriminate]. reduce.
  destruct e; [discriminate |]. reduce.
  destruct (Z.eqb_spec (totalAmount l) 0); [discriminate |]. reduce.
  destruct (revoked l) eqn:Hrev; [discriminate |]. reduce.
  destruct (revocable l) eqn:Hable; [| discriminate]. reduce.
  destruct (Single._vestedAmount l (block_timestamp m)) as [vested0 | err];
    [| discriminate].
  reduce.
  assert (Hmin : (if totalAmount l <? vested0 then totalAmount l else vested0)
                 = Z.min vested0 (totalAmount l)).
  { destruct (Z.ltb_spec (totalAmount l) vested0); lia. }
  rewrite Hmin.
  destruct (checked_sub (totalAmount l) (Z.min vested0 (totalAmount l)))
    as [refund | err] eqn:Hsub; [| discriminate].
  apply checked_sub_inv in Hsub as [-> Hle]. reduce.
  destruct (Z.eqb_spec (totalAmount l - Z.min vested0 (totalAmount l)) 0);
    [discriminate |].
  reduce.
  destruct (transfer_ok tok); [| discriminate]. reduce.
  intros Hc'. inversion Hc'. subst.
  repeat split; auto. exists vested0. repeat split; auto. lia.
Qed.

(** ** [Single]: the releasable amount *)

Lemma single_releasableAmount_inv l now r :
  Single._releasableAmount l now = Ok r ->
  exists vested,
    Single._vestedAmount l now = Ok vested /\
    ((revoked l = false /\ startTime l + vestingDuration l <= now /\
      r = totalAmount l - releasedAmount l /\ releasedAmount l <= totalAmount l) \/
     ((revoked l = true \/ now < startTime l + vestingDuration l) /\
      r = vested - releasedAmount l /\ releasedAmount l <= vested)).
Proof.
  unfold Single._releasableAmount. intros Hr.
  apply bind_inv in Hr as (vested & Hv & Hr). exists vested. split; [exact Hv |].
  apply bind_inv in Hr as (complete & Hc & Hr).
  destruct (revoked l); cbn [negb] in Hc.
  - inversion Hc. subst complete.
    apply checked_sub_inv in Hr as [-> Hle]. right. auto.
  - apply bind_inv in Hc as (vestEnd & He & Hc).
    apply checked_add_inv in He as [-> _]. inversion Hc. subst complete.
    destruct (Z.leb_spec (startTime l + vestingDuration l) now);
      apply checked_sub_inv in Hr as [-> Hle]; [left | right]; auto.
Qed.

Lemma single_releasableAmount_complete l now :
  Single.well_typed l -> Single.schedule_fits l ->
  releasedAmount l <= totalAmount l -> revoked l = false ->
  startTime l + vestingDuration l <= now <= UINT256_MAX ->
  Single._releasableAmount l now = Ok (totalAmount l - releasedAmount l).
Proof.
  intros Htyped Hfits Hrel Hrev Hnow. unfold Single._releasableAmount.
  rewrite single_vestedAmount_spec by (auto; widths; lia). reduce.
  rewrite Hrev. reduce.
  rewrite (checked_add_ok 64 (startTime l) (vestingDuration l)) by (widths; lia).
  reduce.
  destruct (Z.leb_spec (startTime l + vestingDuration l) now); [| lia].
  apply checked_sub_ok. exact Hrel.
Qed.

(** ** [Single]: the invariant of the reachable states *)

Lemma single_inv_deployed deployer self : single_inv (Single.deployed deployer self).
Proof.
  unfold single_inv, Single.deployed. cbn. widths. cbn.
  repeat split; auto; lia.
Qed.

Lemma single_inv_step c m tok call :
  single_inv c -> Single.valid_msg m -> Single.valid_call call ->
  single_inv (Single.step c m tok call).
Proof.
  intros Hinv Hm Hcall. unfold Single.step.
  destruct (outcome (Single.exec c m tok call)) as [c' | err] eqn:Hexec; [| exact Hinv].
  destruct Hinv as (Hent & Htyped & Hrel & Hsnap & Hnone & Hsome & Hzero).
  destruct call as [b_ amount cliff vesting rev | |]; cbn [Single.exec] in Hexec.
  - apply single_createLockup_inv in Hexec
      as (_ & _ & Hb & Ha & Hv & Hcv & Hb_ & _ & _ & _ & _ & _ & -> & _).
    open_single c. cbn in Hcall.
    assert (0 <= block_timestamp m mod (UINT64_MAX + 1) < UINT64_MAX + 1)
      by (apply Z.mod_pos_bound; unfold UINT64_MAX; lia).
    unfold single_inv. widths. cbn in *.
    repeat split; auto; try lia; try congruence.
  - apply single_release_inv in Hexec
      as (_ & Hsender & Htot & _ & r & Hr & Hr0 & Hmax & -> & _).
    apply single_releasableAmount_inv in Hr as (vested & Hv & Hcases).
    apply single_vested_le_total in Hv as Hvb; auto.
    open_single c. unfold single_inv. widths. cbn in *.
    repeat split; auto; try lia; try (apply Hsome; assumption).
  - apply single_revoke_inv in Hexec
      as (_ & _ & Htot & Hrev & _ & _ & vested0 & Hv & Hpos & -> & _).
    apply single_vested_le_total in Hv as Hvb; auto.
    open_single c. unfold single_inv. widths. cbn in *.
    repeat split; auto; try lia; try (apply Hsome; assumption).
    intros Hb0. rewrite (Hnone Hb0) in Htot. cbn in Htot. lia.
Qed.

Lemma single_reachable_inv c : Single.reachable c -> single_inv c.
Proof.
  induction 1 as [deployer self | c m tok call _ IH Hm Hcall].
  - apply single_inv_deployed.
  - apply single_inv_step; assumption.
Qed.

(** ** [PerAddress]: what a call that goes through has checked and done *)

Ltac open_per c :=
  destruct c as [o s e lk];
  cbn [PerAddress.entered PerAddress.lockups PerAddress.with_entered
       PerAddress.with_lockups PerAddress.owner PerAddress.this] in *.

Lemma peraddress_createLockup_inv c m tok b amount cliff vesting rev c' :
  outcome (PerAddress.createLockup c m tok b amount cliff vesting rev) = Ok c' ->
  PerAddress.owner c = msg_sender m /\ PerAddress.entered c = false /\
  b <> 0 /\ b <> PerAddress.this c /\ amount <> 0 /\ vesting <> 0 /\
  cliff <= vesting <= MAX_VESTING_DURATION /\
  totalAmount (PerAddress.lockup_at (PerAddress.lockups c) b) = 0 /\
  transfer_ok tok = true /\
  c' = PerAddress.with_lockups c (<[b := {|
         totalAmount := amount;
         releasedAmount := 0;
         startTime := block_timestamp m;
         cliffDuration := cliff;
         vestingDuration := vesting;
         revocable := rev;
         revoked := false;
         vestedAtRevoke := 0 |}]> (PerAddress.lockups c)) /\
  trace (PerAddress.createLockup c m tok b amount cliff vesting rev) =
    [SafeTransferFrom (msg_sender m) (PerAddress.this c) amount;
     TokensLocked b amount (block_timestamp m) cliff vesting rev].
Proof.
  unfold PerAddress.createLockup, PerAddress.nonReentrant, PerAddress.onlyOwner.
  open_per c.
  destruct (Z.eqb_spec o (msg_sender m)); [| discriminate]. reduce.
  destruct e; [discriminate |]. reduce.
  destruct (Z.eqb_spec b 0); [discriminate |]. reduce.
  destruct (Z.eqb_spec b s); [discriminate |]. reduce.
  destruct (Z.eqb_spec amount 0); [discriminate |]. reduce.
  destruct (Z.eqb_spec vesting 0); [discriminate |]. reduce.
  destruct (Z.ltb_spec MAX_VESTING_DURATION vesting); [discriminate |]. reduce.
  destruct (Z.ltb_spec vesting cliff); [discriminate |]. reduce.
  destruct (Z.eqb_spec (totalAmount (PerAddress.lockup_at lk b)) 0); [| discriminate].
  reduce.
  destruct (transfer_ok tok); [| discriminate]. reduce.
  intros Hc'. inversion Hc'. subst.
  repeat split; auto; lia.
Qed.

Lemma peraddress_release_inv c m tok c' :
  outcome (PerAddress.release c m tok) = Ok c' ->
  let l := PerAddress.lockup_at (PerAddress.lockups c) (msg_sender m) in
  PerAddress.entered c = false /\ totalAmount l <> 0 /\ transfer_ok tok = true /\
  exists releasable,
    PerAddress._releasableAmount (PerAddress.lockups c) (msg_sender m)
      (block_timestamp m) = Ok releasable /\
    releasable <> 0 /\
    releasedAmount l + releasable <= UINT256_MAX /\
    c' = PerAddress.with_lockups c
           (<[msg_sender m := with_releasedAmount l (releasedAmount l + releasable)]>
              (PerAddress.lockups c)) /\
    trace (PerAddress.release c m tok) =
      [SafeTransfer (msg_sender m) releasable; TokensReleased (msg_sender m) releasable].
Proof.
  unfold PerAddress.release, PerAddress.nonReentrant.
  open_per c.
  destruct e; [discriminate |]. reduce.
  destruct (Z.eqb_spec (totalAmount (PerAddress.lockup_at lk (msg_sender m))) 0);
    [discriminate |].
  reduce.
  destruct (PerAddress._releasableAmount lk (msg_sender m) (block_timestamp m))
    as [releasable | err]; [| discriminate].
  reduce.
  destruct (Z.eqb_spec releasable 0); [discriminate |]. reduce.
  destruct (checked_add 256 (releasedAmount (PerAddress.lockup_at lk (msg_sender m)))
              releasable) as [released | err] eqn:Hadd; [| discriminate].
  apply checked_add_inv in Hadd as [-> Hle]. reduce.
  destruct (transfer_ok tok); [| discriminate]. reduce.
  intros Hc'. inversion Hc'. subst.
  repeat split; auto. exists releasable. repeat split; auto.
Qed.

Lemma peraddress_revoke_inv c m tok b c' :
  outcome (PerAddress.revoke c m tok b) = Ok c' ->
  let l := PerAddress.lockup_at (PerAddress.lockups c) b in
  PerAddress.owner c = msg_sender m /\ PerAddress.entered c = false /\
  totalAmount l <> 0 /\ revoked l = false /\ revocable l = true /\
  exists vested0,
    PerAddress._vestedAmount (PerAddress.lockups c) b (block_timestamp m) = Ok vested0 /\
    let vested := Z.min vested0 (totalAmount l) in
    let refund := totalAmount l - vested in
    0 <= refund /\
    (0 < refund -> transfer_ok tok = true) /\
    c' = PerAddress.with_lockups c
           (<[b := with_revoked l vested]> (PerAddress.lockups c)) /\
    trace (PerAddress.revoke c m tok b) =
      (if 0 <? refund then [SafeTransfer (PerAddress.owner c) refund] else []) ++
      [LockupRevoked b refund].
Proof.
  unfold PerAddress.revoke, PerAddress.nonReentrant, PerAddress.onlyOwner.
  open_per c.
  destruct (Z.eqb_spec o (msg_sender m)); [| discriminate]. reduce.
  destruct e; [discriminate |]. reduce.
  cbv zeta. set (l := PerAddress.lockup_at lk b).
  destruct (Z.eqb_spec (totalAmount l) 0); [discriminate |]. reduce.
  destruct (revoked l) eqn:Hrev; [discriminate |]. reduce.
  destruct (revocable l) eqn:Hable; [| discriminate]. reduce.
  destruct (PerAddress._vestedAmount lk b (block_timestamp m)) as [vested0 | err];
    [| discriminate].
  reduce.
  assert (Hmin : (if totalAmount l <? vested0 then totalAmount l else vested0)
                 = Z.min vested0 (totalAmount l)).
  { destruct (Z.ltb_spec (totalAmount l) vested0); lia. }
  rewrite Hmin.
  destruct (checked_sub (totalAmount l) (Z.min vested0 (totalAmount l)))
    as [refund | err] eqn:Hsub; [| discriminate].
  apply checked_sub_inv in Hsub as [-> Hle]. reduce.
  destruct (Z.ltb_spec 0 (totalAmount l - Z.min vested0 (totalAmount l))).
  - reduce. destruct (transfer_ok tok); [| discriminate]. reduce.
    intros Hc'. inversion Hc'. subst.
    repeat split; auto. exists vested0. repeat split; auto; try lia.
    destruct (Z.ltb_spec 0 (totalAmount l - Z.min vested0 (totalAmount l)));
      [reflexivity | lia].
  - reduce. intros Hc'. inversion Hc'. subst.
    repeat split; auto. exists vested0. repeat split; auto; try lia.
    destruct (Z.ltb_spec 0 (totalAmount l - Z.min vested0 (totalAmount l)));
      [lia | reflexivity].
Qed.

(** ** [PerAddress]: the releasable amount and the invariant *)

Lemma lockup_at_insert (lk : gmap Z LockupInfo) (b b' : Z) (r : LockupInfo) :
  PerAddress.lockup_at (<[b := r]> lk) b' =
  if decide (b = b') then r else PerAddress.lockup_at lk b'.
Proof.
  unfold PerAddress.lockup_at. rewrite lookup_insert.
  destruct (decide (b = b')); reflexivity.
Qed.

Lemma lockup_at_insert_eq (lk : gmap Z LockupInfo) (b : Z) (r : LockupInfo) :
  PerAddress.lockup_at (<[b := r]> lk) b = r.
Proof. rewrite lockup_at_insert. destruct (decide (b = b)); [reflexivity | contradiction]. Qed.

Lemma lockup_at_insert_ne (lk : gmap Z LockupInfo) (b b' : Z) (r : LockupInfo) :
  b <> b' -> PerAddress.lockup_at (<[b := r]> lk) b' = PerAddress.lockup_at lk b'.
Proof.
  intros Hne. rewrite lockup_at_insert.
  destruct (decide (b = b')); [contradiction | reflexivity].
Qed.

Lemma lockup_at_empty (b : Z) : PerAddress.lockup_at ∅ b = noLockup.
Proof. unfold PerAddress.lockup_at. rewrite lookup_empty. reflexivity. Qed.

Lemma peraddress_releasableAmount_inv (lk : gmap Z LockupInfo) b now r :
  let l := PerAddress.lockup_at lk b in
  PerAddress._releasableAmount lk b now = Ok r ->
  exists vested,
    PerAddress._vestedAmount lk b now = Ok vested /\
    ((revoked l = false /\ startTime l + vestingDuration l <= now /\
      r = totalAmount l - releasedAmount l /\ releasedAmount l <= totalAmount l) \/
     ((revoked l = true \/ now < startTime l + vestingDuration l) /\
      r = vested - releasedAmount l /\ releasedAmount l <= vested)).
Proof.
  intros l. unfold PerAddress._releasableAmount. fold l. intros Hr.
  apply bind_inv in Hr as (vested & Hv & Hr). exists vested. split; [exact Hv |].
  apply bind_inv in Hr as (complete & Hc & Hr).
  destruct (revoked l); cbn [negb] in Hc.
  - inversion Hc. subst complete.
    apply checked_sub_inv in Hr as [-> Hle]. right. auto.
  - apply bind_inv in Hc as (vestEnd & He & Hc).
    apply checked_add_inv in He as [-> _]. inversion Hc. subst complete.
    destruct (Z.leb_spec (startTime l + vestingDuration l) now);
      apply checked_sub_inv in Hr as [-> Hle]; [left | right]; auto.
Qed.

Lemma peraddress_releasableAmount_complete (lk : gmap Z LockupInfo) b now :
  let l := PerAddress.lockup_at lk b in
  PerAddress.well_typed l -> PerAddress.schedule_fits l ->
  releasedAmount l <= totalAmount l -> revoked l = false ->
  startTime l + vestingDuration l <= now ->
  PerAddress._releasableAmount lk b now = Ok (totalAmount l - releasedAmount l).
Proof.
  intros l Htyped Hfits Hrel Hrev Hnow. unfold PerAddress._releasableAmount. fold l.
  rewrite peraddress_vestedAmount_spec; fold l; auto; try (widths; lia).
  reduce. rewrite Hrev. reduce.
  rewrite (checked_add_ok 256 (startTime l) (vestingDuration l)) by (widths; lia).
  reduce.
  destruct (Z.leb_spec (startTime l + vestingDuration l) now); [| lia].
  apply checked_sub_ok. exact Hrel.
Qed.

Lemma peraddress_vested_le_total (lk : gmap Z LockupInfo) b now v :
  let l := PerAddress.lockup_at lk b in
  PerAddress.well_typed l -> vestedAtRevoke l <= totalAmount l ->
  PerAddress._vestedAmount lk b now = Ok v -> 0 <= v <= totalAmount l.
Proof.
  intros l Htyped Hsnap Hv.
  apply peraddress_vestedAmount_inv in Hv as ->. fold l.
  apply vested_spec_bounds; widths; lia.
Qed.

Lemma record_inv_noLockup : record_inv noLockup.
Proof. unfold record_inv. widths. cbn. repeat split; auto; lia. Qed.

Lemma peraddress_inv_deployed deployer self :
  peraddress_inv (PerAddress.deployed deployer self).
Proof.
  split; [reflexivity |]. intros b. cbn. rewrite lockup_at_empty.
  apply record_inv_noLockup.
Qed.

Lemma peraddress_inv_step c m tok call :
  peraddress_inv c -> PerAddress.valid_msg m -> PerAddress.valid_call call ->
  peraddress_inv (PerAddress.step c m tok call).
Proof.
  intros Hinv Hm Hcall. unfold PerAddress.step.
  destruct (outcome (PerAddress.exec c m tok call)) as [c' | err] eqn:Hexec;
    [| exact Hinv].
  destruct Hinv as (Hent & Hall).
  destruct call as [b amount cliff vesting rev | | b]; cbn [PerAddress.exec] in Hexec.
  - apply peraddress_createLockup_inv in Hexec
      as (_ & _ & Hb & _ & Ha & Hv & Hcv & _ & _ & -> & _).
    open_per c. split; [exact Hent |]. intros b'. cbn.
    rewrite lockup_at_insert. destruct (decide (b = b')); [| apply Hall].
    cbn in Hcall. unfold record_inv. widths. cbn.
    repeat split; auto; try lia; try congruence.
  - apply peraddress_release_inv in Hexec
      as (_ & Htot & _ & r & Hr & Hr0 & Hmax & -> & _).
    apply peraddress_releasableAmount_inv in Hr as (vested & Hv & Hcases).
    open_per c. split; [exact Hent |]. intros b'. cbn.
    rewrite lockup_at_insert. destruct (decide (msg_sender m = b')); [| apply Hall].
    specialize (Hall (msg_sender m)).
    destruct Hall as (Htyped & Hrel & Hsnap & Hnone & Hsome & Hzero).
    apply peraddress_vested_le_total in Hv as Hvb; auto.
    set (l := PerAddress.lockup_at lk (msg_sender m)) in *.
    unfold record_inv. widths. cbn in *.
    repeat split; auto; try lia; try (apply Hsome; assumption).
  - apply peraddress_revoke_inv in Hexec
      as (_ & _ & Htot & Hrev & _ & vested0 & Hv & Hpos & _ & -> & _).
    open_per c. split; [exact Hent |]. intros b'. cbn.
    rewrite lockup_at_insert. destruct (decide (b = b')); [| apply Hall].
    specialize (Hall b).
    destruct Hall as (Htyped & Hrel & Hsnap & Hnone & Hsome & Hzero).
    apply peraddress_vested_le_total in Hv as Hvb; auto.
    set (l := PerAddress.lockup_at lk b) in *.
    unfold record_inv. widths. cbn in *.
    repeat split; auto; try lia; try (apply Hsome; assumption).
Qed.

Lemma peraddress_reachable_inv c : PerAddress.reachable c -> peraddress_inv c.
Proof.
  induction 1 as [deployer self | c m tok call _ IH Hm Hcall].
  - apply peraddress_inv_deployed.
  - apply peraddress_inv_step; assumption.
Qed.


(** ** Deployment, and the schedules of created records *)

Lemma single_constructor_deployed deployer self _token size c :
  Single.constructor deployer self _token size = Ok c ->
  _token <> 0 /\ size <> 0 /\ c = Single.deployed deployer self.
Proof.
  unfold Single.constructor.
  destruct (Z.eqb_spec _token 0); [discriminate |].
  destruct (Z.eqb_spec size 0); [discriminate |].
  intros Hc. inversion Hc. auto.
Qed.

Lemma peraddress_constructor_deployed deployer self _token size c :
  PerAddress.constructor deployer self _token size = Ok c ->
  _token <> 0 /\ size <> 0 /\ c = PerAddress.deployed deployer self.
Proof.
  unfold PerAddress.constructor.
  destruct (Z.eqb_spec _token 0); [discriminate |].
  destruct (Z.eqb_spec size 0); [discriminate |].
  intros Hc. inversion Hc. auto.
Qed.

(** While block timestamps are plausible, every schedule fits the width of its
    fields. *)
Lemma single_schedule_fits_step c m tok call :
  Single.valid_call call -> plausible_time m ->
  Single.schedule_fits (Single.lockupInfo c) ->
  Single.schedule_fits (Single.lockupInfo (Single.step c m tok call)).
Proof.
  intros Hcall [Hnow Hfar] Hfits. unfold Single.step.
  destruct (outcome (Single.exec c m tok call)) as [c' | err] eqn:Hexec;
    [| exact Hfits].
  destruct call as [b_ amount cliff vesting rev | |]; cbn [Single.exec] in Hexec.
  - apply single_createLockup_inv in Hexec
      as (_ & _ & _ & _ & _ & Hcv & _ & _ & _ & _ & _ & _ & -> & _).
    cbn in Hcall. unfold Single.schedule_fits. cbn.
    rewrite Z.mod_small by (unfold UINT64_MAX, MAX_VESTING_DURATION in *; lia).
    widths. lia.
  - apply single_release_inv in Hexec as (_ & _ & _ & _ & r & _ & _ & _ & -> & _).
    exact Hfits.
  - apply single_revoke_inv in Hexec as (_ & _ & _ & _ & _ & _ & v & _ & _ & -> & _).
    exact Hfits.
Qed.

Lemma peraddress_schedule_fits_step c m tok call :
  PerAddress.valid_call call -> plausible_time m ->
  (forall b, PerAddress.schedule_fits (PerAddress.lockup_at (PerAddress.lockups c) b)) ->
  forall b,
    PerAddress.schedule_fits
      (PerAddress.lockup_at (PerAddress.lockups (PerAddress.step c m tok call)) b).
Proof.
  intros Hcall [Hnow Hfar] Hfits b. unfold PerAddress.step.
  destruct (outcome (PerAddress.exec c m tok call)) as [c' | err] eqn:Hexec;
    [| apply Hfits].
  destruct call as [b0 amount cliff vesting rev | | b0]; cbn [PerAddress.exec] in Hexec.
  - apply peraddress_createLockup_inv in Hexec
      as (_ & _ & _ & _ & _ & _ & Hcv & _ & _ & -> & _).
    cbn. rewrite lockup_at_insert.
    destruct (decide (b0 = b)) as [_ | _]; [| apply Hfits].
    unfold PerAddress.schedule_fits. cbn. widths. lia.
  - apply peraddress_release_inv in Hexec as (_ & _ & _ & r & _ & _ & _ & -> & _).
    cbn. rewrite lockup_at_insert.
    destruct (decide (msg_sender m = b)) as [<- | _]; apply Hfits.
  - apply peraddress_revoke_inv in Hexec as (_ & _ & _ & _ & _ & v & _ & _ & _ & -> & _).
    cbn. rewrite lockup_at_insert.
    destruct (decide (b0 = b)) as [-> | _]; apply Hfits.
Qed.

(** ** The samples are reachable states *)

Lemma small_single_reachable : Single.reachable small_single.
Proof.
  unfold small_single. apply Single.reachable_step.
  - apply Single.reachable_deployed.
  - concrete.
  - concrete.
Qed.

Lemma small_per_address_reachable : PerAddress.reachable small_per_address.
Proof.
  unfold small_per_address. apply PerAddress.reachable_step.
  - apply PerAddress.reachable_deployed.
  - concrete.
  - concrete.
Qed.

(** ** The properties of the specification *)

(** Sanity of the samples: scenario A of the specification, in both shapes. *)
Example scenario_A_single :
  Single.lockupInfo small_single = small_lockup /\
  Single.vestedAmount small_single 1700000500 = Ok 500 /\
  Single.release small_single (at_time 7 1700000500) sample_token =
    mkTx [SafeTransfer 7 500; TokensReleased 7 500]
      (Ok (Single.with_lockup small_single 7 (with_releasedAmount small_lockup 500))).
Proof. repeat split; reflexivity. Qed.

Example scenario_A_per_address :
  PerAddress.lockup_at (PerAddress.lockups small_per_address) 7 = small_lockup /\
  PerAddress.vestedAmount small_per_address 7 1700000500 = Ok 500 /\
  trace (PerAddress.release small_per_address (at_time 7 1700000500) sample_token) =
    [SafeTransfer 7 500; TokensReleased 7 500].
Proof. repeat split; reflexivity. Qed.

(** C1, on the failing input.  The per-address shape is asked for the vested
    amount of a reachable record in the linear part of its schedule: the
    specification's value is [2^254], the call aborts with [Panic 0x11]
    because [totalAmount * timeFromStart] is taken at 256 bits.  The single
    shape returns the value on the same record. *)
Theorem C1_vestedAmount_cases_fail_per_address :
  PerAddress.reachable huge_per_address /\
  vested_spec (PerAddress.lockup_at (PerAddress.lockups huge_per_address) 7) 1700000050
    = TWO_254 /\
  PerAddress.vestedAmount huge_per_address 7 1700000050
    = Revert (Panic ARITHMETIC_OVERFLOW) /\
  Single._vestedAmount
    (PerAddress.lockup_at (PerAddress.lockups huge_per_address) 7) 1700000050
    = Ok TWO_254.
Proof.
  split.
  - unfold huge_per_address. apply PerAddress.reachable_step.
    + apply PerAddress.reachable_deployed.
    + cbn. widths. cbn. lia.
    + cbn. widths. unfold TWO_255. lia.
  - repeat split; reflexivity.
Qed.

(** C4, on the failing input.  A reachable ten-year lockup of [2^230] units,
    five years in: the record is in its linear part and
    [totalAmount * (now - startTime)] exceeds [2^256 - 1].  The per-address shape
    multiplies at 256 bits and aborts with [Panic 0x11]; the single shape, with
    [Math.mulDiv], returns the exact quotient. *)
Theorem C4_linear_product_aborts_per_address :
  let l := PerAddress.lockup_at (PerAddress.lockups decade_per_address) 7 in
  let now := 1700000000 + 157680000 in
  PerAddress.reachable decade_per_address /\
  startTime l + cliffDuration l <= now < startTime l + vestingDuration l /\
  UINT256_MAX < totalAmount l * (now - startTime l) /\
  PerAddress.vestedAmount decade_per_address 7 now
    = Revert (Panic ARITHMETIC_OVERFLOW) /\
  Single.lockupInfo decade_single = l /\
  Single.vestedAmount decade_single now
    = Ok (totalAmount l * (now - startTime l) / vestingDuration l).
Proof.
  cbv zeta. split.
  - unfold decade_per_address. apply PerAddress.reachable_step.
    + apply PerAddress.reachable_deployed.
    + cbn. widths. cbn. lia.
    + cbn. widths. unfold TWO_230. lia.
  - repeat split; try reflexivity; vm_compute; congruence.
Qed.

(** With it, in the per-address shape, [release] and [revoke] abort too for as
    long as the product does not fit. *)
Example linear_overflow_blocks_release_and_revoke :
  PerAddress.release decade_per_address (at_time 7 1857680000) sample_token
    = mkTx [] (Revert (Panic ARITHMETIC_OVERFLOW)) /\
  PerAddress.revoke decade_per_address (at_time 1 1857680000) sample_token 7
    = mkTx [] (Revert (Panic ARITHMETIC_OVERFLOW)).
Proof. split; reflexivity. Qed.

(** C2.  For a record that is not revoked, at or after
    [startTime + vestingDuration] the releasable amount is
    [totalAmount - releasedAmount], and a release that goes through then leaves
    [releasedAmount = totalAmount], whatever had been released before; in both
    shapes. *)
Theorem C2_release_after_completion_leaves_no_dust :
  (forall l now,
     Single.well_typed l -> Single.schedule_fits l ->
     releasedAmount l <= totalAmount l -> revoked l = false ->
     startTime l + vestingDuration l <= now <= UINT256_MAX ->
     Single._releasableAmount l now = Ok (totalAmount l - releasedAmount l)) /\
  (forall c m tok c',
     outcome (Single.release c m tok) = Ok c' ->
     revoked (Single.lockupInfo c) = false ->
     startTime (Single.lockupInfo c) + vestingDuration (Single.lockupInfo c)
       <= block_timestamp m ->
     releasedAmount (Single.lockupInfo c') = totalAmount (Single.lockupInfo c') /\
     totalAmount (Single.lockupInfo c') = totalAmount (Single.lockupInfo c)) /\
  (forall (lk : gmap Z LockupInfo) b now,
     let l := PerAddress.lockup_at lk b in
     PerAddress.well_typed l -> PerAddress.schedule_fits l ->
     releasedAmount l <= totalAmount l -> revoked l = false ->
     startTime l + vestingDuration l <= now ->
     PerAddress._releasableAmount lk b now = Ok (totalAmount l - releasedAmount l)) /\
  (forall c m tok c',
     let l := PerAddress.lockup_at (PerAddress.lockups c) (msg_sender m) in
     let l' := PerAddress.lockup_at (PerAddress.lockups c') (msg_sender m) in
     outcome (PerAddress.release c m tok) = Ok c' ->
     revoked l = false ->
     startTime l + vestingDuration l <= block_timestamp m ->
     releasedAmount l' = totalAmount l' /\ totalAmount l' = totalAmount l).
Proof.
  split; [| split; [| split]].
  - intros l now. apply single_releasableAmount_complete.
  - intros c m tok c' Hok Hrev Hdone.
    apply single_release_inv in Hok as (_ & _ & _ & _ & r & Hr & _ & _ & -> & _).
    apply single_releasableAmount_inv in Hr as (vested & _ & [Hc | Hc]).
    + destruct Hc as (_ & _ & -> & _). cbn. split; [lia | reflexivity].
    + destruct Hc as ([Hc | Hc] & _); [congruence | lia].
  - intros lk b now. apply peraddress_releasableAmount_complete.
  - intros c m tok c' l l' Hok Hrev Hdone. subst l'.
    apply peraddress_release_inv in Hok as (_ & _ & _ & r & Hr & _ & _ & -> & _).
    apply peraddress_releasableAmount_inv in Hr as (vested & _ & [Hc | Hc]).
    + destruct Hc as (_ & _ & -> & _). cbn.
      rewrite lockup_at_insert_eq. cbn. fold l. split; [lia | reflexivity].
    + destruct Hc as ([Hc | Hc] & _); fold l in Hc; [congruence | lia].
Qed.

(** C2 at work: 300 of 1000 units were released earlier, vesting is over. *)
Lemma C2_witness :
  Single._releasableAmount (with_releasedAmount small_lockup 300) 1700001000 = Ok 700 /\
  PerAddress._releasableAmount
    (<[7 := with_releasedAmount small_lockup 300]> ∅) 7 1700001000 = Ok 700.
Proof.
  destruct C2_release_after_completion_leaves_no_dust as (Hs & _ & Hp & _).
  split.
  - apply (Hs (with_releasedAmount small_lockup 300) 1700001000).
    + concrete.
    + concrete.
    + concrete.
    + reflexivity.
    + concrete.
  - pose proof (Hp (<[7 := with_releasedAmount small_lockup 300]> ∅) 7 1700001000)
      as H.
    cbv zeta in H. rewrite lockup_at_insert_eq in H. apply H.
    + concrete.
    + concrete.
    + concrete.
    + reflexivity.
    + concrete.
Defined.

(** No call lowers [releasedAmount]: [Single]. *)
Lemma single_released_monotone c m tok call :
  single_inv c ->
  releasedAmount (Single.lockupInfo c)
    <= releasedAmount (Single.lockupInfo (Single.step c m tok call)).
Proof.
  intros (_ & _ & _ & _ & Hnone & _). unfold Single.step.
  destruct (outcome (Single.exec c m tok call)) as [c' | err] eqn:Hexec; [| lia].
  destruct call as [b_ amount cliff vesting rev | |]; cbn [Single.exec] in Hexec.
  - apply single_createLockup_inv in Hexec
      as (_ & _ & Hb & _ & _ & _ & _ & _ & _ & _ & _ & _ & -> & _).
    rewrite (Hnone Hb). cbn. lia.
  - apply single_release_inv in Hexec as (_ & _ & _ & _ & r & Hr & _ & _ & -> & _).
    apply single_releasableAmount_inv in Hr as (vested & _ & Hcases). cbn. lia.
  - apply single_revoke_inv in Hexec as (_ & _ & _ & _ & _ & _ & v & _ & _ & -> & _).
    cbn. lia.
Qed.

(** No call lowers [releasedAmount] of any address: [PerAddress]. *)
Lemma peraddress_released_monotone c m tok call b :
  peraddress_inv c ->
  releasedAmount (PerAddress.lockup_at (PerAddress.lockups c) b)
    <= releasedAmount
         (PerAddress.lockup_at (PerAddress.lockups (PerAddress.step c m tok call)) b).
Proof.
  intros (_ & Hall). unfold PerAddress.step.
  destruct (outcome (PerAddress.exec c m tok call)) as [c' | err] eqn:Hexec; [| lia].
  destruct call as [b0 amount cliff vesting rev | | b0]; cbn [PerAddress.exec] in Hexec.
  - apply peraddress_createLockup_inv in Hexec
      as (_ & _ & _ & _ & _ & _ & _ & Hfree & _ & -> & _).
    cbn. rewrite lockup_at_insert. destruct (decide (b0 = b)) as [-> | _]; [| lia].
    destruct (Hall b) as (_ & _ & _ & Hnone & _).
    rewrite (Hnone Hfree). cbn. lia.
  - apply peraddress_release_inv in Hexec as (_ & _ & _ & r & Hr & _ & _ & -> & _).
    apply peraddress_releasableAmount_inv in Hr as (vested & _ & Hcases).
    cbn. rewrite lockup_at_insert.
    destruct (decide (msg_sender m = b)) as [<- | _]; cbn; lia.
  - apply peraddress_revoke_inv in Hexec as (_ & _ & _ & _ & _ & v & _ & _ & _ & -> & _).
    cbn. rewrite lockup_at_insert.
    destruct (decide (b0 = b)) as [-> | _]; cbn; lia.
Qed.

(** C3.  In every state reached from the deployed contract by
    [createLockup], [release] and [revoke] calls, [releasedAmount] is at most
    [totalAmount], and whatever call follows, [releasedAmount] does not
    decrease; for the one record of [Single] and for every address of
    [PerAddress]. *)
Theorem C3_released_bounded_and_never_decreases :
  (forall c,
     Single.reachable c ->
     0 <= releasedAmount (Single.lockupInfo c) <= totalAmount (Single.lockupInfo c) /\
     forall m tok call,
       releasedAmount (Single.lockupInfo c)
         <= releasedAmount (Single.lockupInfo (Single.step c m tok call))) /\
  (forall c,
     PerAddress.reachable c ->
     forall b,
       let released c := releasedAmount (PerAddress.lockup_at (PerAddress.lockups c) b) in
       0 <= released c <= totalAmount (PerAddress.lockup_at (PerAddress.lockups c) b) /\
       forall m tok call, released c <= released (PerAddress.step c m tok call)).
Proof.
  split.
  - intros c Hreach. apply single_reachable_inv in Hreach as Hinv. split.
    + destruct Hinv as (_ & Htyped & Hrel & _). widths. lia.
    + intros m tok call. apply single_released_monotone. exact Hinv.
  - intros c Hreach b released. apply peraddress_reachable_inv in Hreach as Hinv.
    split.
    + destruct Hinv as (_ & Hall). destruct (Hall b) as (Htyped & Hrel & _).
      subst released. widths. lia.
    + intros m tok call. apply peraddress_released_monotone. exact Hinv.
Qed.

(** C3 at work, on the sample lockups halfway through vesting. *)
Lemma C3_witness :
  (0 <= releasedAmount (Single.lockupInfo small_single) <= 1000 /\
   releasedAmount (Single.lockupInfo small_single)
     <= releasedAmount (Single.lockupInfo
          (Single.step small_single (at_time 7 1700000500) sample_token Single.Release))) /\
  (0 <= releasedAmount (PerAddress.lockup_at (PerAddress.lockups small_per_address) 7)
     <= 1000).
Proof.
  destruct C3_released_bounded_and_never_decreases as (Hs & Hp).
  split.
  - destruct (Hs small_single small_single_reachable) as (Hb & Hm). split.
    + exact Hb.
    + apply Hm.
  - destruct (Hp small_per_address small_per_address_reachable 7) as (Hb & _).
    exact Hb.
Defined.

(** ** Revocation freezes the vested amount *)

Lemma single_vestedAmount_revoked l t :
  totalAmount l <> 0 -> revoked l = true ->
  Single._vestedAmount l t = Ok (vestedAtRevoke l).
Proof.
  intros Htot Hrev. unfold Single._vestedAmount.
  destruct (Z.eqb_spec (totalAmount l) 0); [contradiction |].
  rewrite Hrev. reflexivity.
Qed.

Lemma peraddress_vestedAmount_revoked (lk : gmap Z LockupInfo) b t :
  let l := PerAddress.lockup_at lk b in
  totalAmount l <> 0 -> revoked l = true ->
  PerAddress._vestedAmount lk b t = Ok (vestedAtRevoke l).
Proof.
  intros l Htot Hrev. unfold PerAddress._vestedAmount. fold l.
  destruct (Z.eqb_spec (totalAmount l) 0); [contradiction |].
  rewrite Hrev. reflexivity.
Qed.

Lemma single_frozen_step v c m tok call :
  single_frozen v c -> single_frozen v (Single.step c m tok call).
Proof.
  intros (Hrev & Htot & Hben & Hv). unfold Single.step.
  destruct (outcome (Single.exec c m tok call)) as [c' | err] eqn:Hexec;
    [| repeat split; assumption].
  destruct call as [b_ amount cliff vesting rev | |]; cbn [Single.exec] in Hexec.
  - apply single_createLockup_inv in Hexec as (_ & _ & Hb & _). contradiction.
  - apply single_release_inv in Hexec as (_ & _ & _ & _ & r & _ & _ & _ & -> & _).
    repeat split; assumption.
  - apply single_revoke_inv in Hexec as (_ & _ & _ & Hnot & _). congruence.
Qed.

Lemma single_frozen_run v calls : forall c,
  single_frozen v c -> single_frozen v (Single.run c calls).
Proof.
  induction calls as [| [[m tok] call] rest IH]; intros c Hc; cbn.
  - exact Hc.
  - apply IH. apply single_frozen_step. exact Hc.
Qed.

Lemma peraddress_frozen_step b v c m tok call :
  peraddress_frozen b v c -> peraddress_frozen b v (PerAddress.step c m tok call).
Proof.
  intros (Hrev & Htot & Hv). unfold PerAddress.step.
  destruct (outcome (PerAddress.exec c m tok call)) as [c' | err] eqn:Hexec;
    [| repeat split; assumption].
  unfold peraddress_frozen.
  destruct call as [b0 amount cliff vesting rev | | b0]; cbn [PerAddress.exec] in Hexec.
  - apply peraddress_createLockup_inv in Hexec
      as (_ & _ & _ & _ & _ & _ & _ & Hfree & _ & -> & _).
    cbn. rewrite lockup_at_insert.
    destruct (decide (b0 = b)) as [-> | _]; [contradiction |].
    repeat split; assumption.
  - apply peraddress_release_inv in Hexec as (_ & _ & _ & r & _ & _ & _ & -> & _).
    cbn. rewrite lockup_at_insert.
    destruct (decide (msg_sender m = b)) as [<- | _]; repeat split; assumption.
  - apply peraddress_revoke_inv in Hexec as (_ & _ & _ & Hnot & _ & v0 & _ & _ & _ & -> & _).
    cbn. rewrite lockup_at_insert.
    destruct (decide (b0 = b)) as [-> | _]; [congruence |].
    repeat split; assumption.
Qed.

Lemma peraddress_frozen_run b v calls : forall c,
  peraddress_frozen b v c -> peraddress_frozen b v (PerAddress.run c calls).
Proof.
  induction calls as [| [[m tok] call] rest IH]; intros c Hc; cbn.
  - exact Hc.
  - apply IH. apply peraddress_frozen_step. exact Hc.
Qed.

(** Only [revoke] changes [vestedAtRevoke]. *)
Lemma single_snapshot_kept c m tok call :
  single_inv c -> call <> Single.Revoke ->
  vestedAtRevoke (Single.lockupInfo (Single.step c m tok call))
    = vestedAtRevoke (Single.lockupInfo c).
Proof.
  intros (_ & _ & _ & _ & Hnone & _) Hcall. unfold Single.step.
  destruct (outcome (Single.exec c m tok call)) as [c' | err] eqn:Hexec;
    [| reflexivity].
  destruct call as [b_ amount cliff vesting rev | |]; cbn [Single.exec] in Hexec.
  - apply single_createLockup_inv in Hexec
      as (_ & _ & Hb & _ & _ & _ & _ & _ & _ & _ & _ & _ & -> & _).
    rewrite (Hnone Hb). reflexivity.
  - apply single_release_inv in Hexec as (_ & _ & _ & _ & r & _ & _ & _ & -> & _).
    reflexivity.
  - contradiction.
Qed.

Lemma peraddress_snapshot_kept c m tok call b :
  peraddress_inv c -> call <> PerAddress.Revoke b ->
  vestedAtRevoke (PerAddress.lockup_at (PerAddress.lockups (PerAddress.step c m tok call)) b)
    = vestedAtRevoke (PerAddress.lockup_at (PerAddress.lockups c) b).
Proof.
  intros (_ & Hall) Hcall. unfold PerAddress.step.
  destruct (outcome (PerAddress.exec c m tok call)) as [c' | err] eqn:Hexec;
    [| reflexivity].
  destruct call as [b0 amount cliff vesting rev | | b0]; cbn [PerAddress.exec] in Hexec.
  - apply peraddress_createLockup_inv in Hexec
      as (_ & _ & _ & _ & _ & _ & _ & Hfree & _ & -> & _).
    cbn. rewrite lockup_at_insert.
    destruct (decide (b0 = b)) as [-> | _]; [| reflexivity].
    destruct (Hall b) as (_ & _ & _ & Hnone & _).
    rewrite (Hnone Hfree). reflexivity.
  - apply peraddress_release_inv in Hexec as (_ & _ & _ & r & _ & _ & _ & -> & _).
    cbn. rewrite lockup_at_insert.
    destruct (decide (msg_sender m = b)) as [<- | _]; reflexivity.
  - apply peraddress_revoke_inv in Hexec as (_ & _ & _ & _ & _ & v0 & _ & _ & _ & -> & _).
    cbn. rewrite lockup_at_insert.
    destruct (decide (b0 = b)) as [-> | _]; [contradiction | reflexivity].
Qed.

(** C5.  When [revoke] goes through, [vestedAtRevoke] is the vested amount
    of that moment; whatever calls follow and at whatever time it is asked, the
    record stays revoked, [vestedAtRevoke] stays what it was and
    [vestedAmount] returns it; and a call other than [revoke] leaves
    [vestedAtRevoke] as it was.  In both shapes. *)
Theorem C5_revocation_freezes_vesting :
  (forall c m tok c',
     Single.reachable c -> outcome (Single.revoke c m tok) = Ok c' ->
     Single._vestedAmount (Single.lockupInfo c) (block_timestamp m)
       = Ok (vestedAtRevoke (Single.lockupInfo c')) /\
     forall calls t',
       let c'' := Single.run c' calls in
       revoked (Single.lockupInfo c'') = true /\
       vestedAtRevoke (Single.lockupInfo c'') = vestedAtRevoke (Single.lockupInfo c') /\
       Single.vestedAmount c'' t' = Ok (vestedAtRevoke (Single.lockupInfo c'))) /\
  (forall c m tok call,
     Single.reachable c -> call <> Single.Revoke ->
     vestedAtRevoke (Single.lockupInfo (Single.step c m tok call))
       = vestedAtRevoke (Single.lockupInfo c)) /\
  (forall c m tok b c',
     let snapshot := vestedAtRevoke (PerAddress.lockup_at (PerAddress.lockups c') b) in
     PerAddress.reachable c -> outcome (PerAddress.revoke c m tok b) = Ok c' ->
     PerAddress.vestedAmount c b (block_timestamp m) = Ok snapshot /\
     forall calls t',
       let c'' := PerAddress.run c' calls in
       revoked (PerAddress.lockup_at (PerAddress.lockups c'') b) = true /\
       vestedAtRevoke (PerAddress.lockup_at (PerAddress.lockups c'') b) = snapshot /\
       PerAddress.vestedAmount c'' b t' = Ok snapshot) /\
  (forall c m tok call b,
     PerAddress.reachable c -> call <> PerAddress.Revoke b ->
     vestedAtRevoke
       (PerAddress.lockup_at (PerAddress.lockups (PerAddress.step c m tok call)) b)
       = vestedAtRevoke (PerAddress.lockup_at (PerAddress.lockups c) b)).
Proof.
  split; [| split; [| split]].
  - intros c m tok c' Hreach Hok.
    apply single_reachable_inv in Hreach as Hinv.
    destruct Hinv as (_ & Htyped & _ & Hsnap & Hnone & _).
    apply single_revoke_inv in Hok
      as (_ & _ & Htot & _ & _ & _ & v & Hv & _ & -> & _).
    apply single_vested_le_total in Hv as Hvb; auto.
    assert (Hben : Single.beneficiary c <> 0).
    { intros Hb. rewrite (Hnone Hb) in Htot. apply Htot. reflexivity. }
    cbn. rewrite Z.min_l by lia. split; [exact Hv |].
    intros calls t'.
    assert (Hfrozen : single_frozen v
              (Single.with_lockup c (Single.beneficiary c)
                 (with_revoked (Single.lockupInfo c) v))).
    { repeat split; auto. }
    apply (single_frozen_run v calls) in Hfrozen
      as (Hrev'' & Htot'' & _ & Hv'').
    cbv zeta. repeat split; auto.
    unfold Single.vestedAmount.
    rewrite single_vestedAmount_revoked by assumption. f_equal. exact Hv''.
  - intros c m tok call Hreach Hcall.
    apply single_snapshot_kept; [apply single_reachable_inv |]; assumption.
  - intros c m tok b c' snapshot Hreach Hok. subst snapshot.
    apply peraddress_reachable_inv in Hreach as (_ & Hall).
    destruct (Hall b) as (Htyped & _ & Hsnap & _).
    apply peraddress_revoke_inv in Hok
      as (_ & _ & Htot & _ & _ & v & Hv & _ & _ & -> & _).
    apply peraddress_vested_le_total in Hv as Hvb; auto.
    cbn. rewrite lockup_at_insert_eq. cbn. rewrite Z.min_l by lia.
    split; [exact Hv |].
    intros calls t'.
    set (c' := PerAddress.with_lockups c _).
    assert (Hfrozen : peraddress_frozen b v c').
    { unfold peraddress_frozen. subst c'. cbn. rewrite lockup_at_insert_eq.
      repeat split; auto. }
    apply (peraddress_frozen_run b v calls) in Hfrozen as (Hrev'' & Htot'' & Hv'').
    cbv zeta. repeat split; auto.
    unfold PerAddress.vestedAmount.
    rewrite peraddress_vestedAmount_revoked by assumption. f_equal. exact Hv''.
  - intros c m tok call b Hreach Hcall.
    apply peraddress_snapshot_kept; [apply peraddress_reachable_inv |]; assumption.
Qed.

(** C5 at work: the owner revokes halfway, the beneficiary releases later, and
    long after the end of the schedule the vested amount is still 500. *)
Lemma C5_witness :
  Single.vestedAmount
    (Single.run (Single.step small_single (at_time 1 1700000500) sample_token Single.Revoke)
       [(at_time 7 1700000900, sample_token, Single.Release)])
    1700002000 = Ok 500 /\
  PerAddress.vestedAmount
    (PerAddress.run
       (PerAddress.step small_per_address (at_time 1 1700000500) sample_token
          (PerAddress.Revoke 7))
       [(at_time 7 1700000900, sample_token, PerAddress.Release)])
    7 1700002000 = Ok 500.
Proof.
  destruct C5_revocation_freezes_vesting as (Hs & _ & Hp & _).
  split.
  - destruct (Hs small_single (at_time 1 1700000500) sample_token
                (Single.step small_single (at_time 1 1700000500) sample_token
                   Single.Revoke)
                small_single_reachable eq_refl) as (_ & Hafter).
    destruct (Hafter [(at_time 7 1700000900, sample_token, Single.Release)] 1700002000)
      as (_ & _ & Hv).
    exact Hv.
  - destruct (Hp small_per_address (at_time 1 1700000500) sample_token 7
                (PerAddress.step small_per_address (at_time 1 1700000500) sample_token
                   (PerAddress.Revoke 7))
                small_per_address_reachable eq_refl) as (_ & Hafter).
    destruct (Hafter [(at_time 7 1700000900, sample_token, PerAddress.Release)]
                1700002000) as (_ & _ & Hv).
    exact Hv.
Defined.

(** ** [revoke] when nothing is left to refund *)

Lemma clamp_min (total vested0 : Z) :
  (if total <? vested0 then total else vested0) = Z.min vested0 total.
Proof. destruct (Z.ltb_spec total vested0); lia. Qed.

(** [Single]: the call is refused before anything is written or asked. *)
Lemma single_revoke_nothing c m tok v :
  Single.owner c = msg_sender m -> Single.entered c = false ->
  totalAmount (Single.lockupInfo c) <> 0 ->
  revoked (Single.lockupInfo c) = false ->
  revocable (Single.lockupInfo c) = true ->
  Single._vestedAmount (Single.lockupInfo c) (block_timestamp m) = Ok v ->
  totalAmount (Single.lockupInfo c) - Z.min v (totalAmount (Single.lockupInfo c)) = 0 ->
  Single.revoke c m tok = mkTx [] (Revert NothingToRevoke).
Proof.
  intros Hown Hent Htot Hrev Hable Hv Hrefund.
  unfold Single.revoke, Single.nonReentrant, Single.onlyOwner.
  open_single c. subst o e.
  rewrite lift_bind, Z.eqb_refl. cbn [revert_if negb].
  rewrite bind_mret, lift_bind. cbn [revert_if].
  rewrite lift_bind.
  destruct (Z.eqb_spec (totalAmount l) 0); [contradiction |]. cbn [revert_if].
  rewrite lift_bind, Hrev. cbn [revert_if].
  rewrite lift_bind, Hable. cbn [revert_if negb].
  rewrite lift_bind, Hv, clamp_min.
  rewrite lift_bind, checked_sub_ok by lia.
  rewrite lift_bind, Hrefund. reflexivity.
Qed.

(** [PerAddress]: the record is marked revoked, the event is emitted, and the
    token is not asked for anything. *)
Lemma peraddress_revoke_nothing c m tok b v :
  let l := PerAddress.lockup_at (PerAddress.lockups c) b in
  PerAddress.owner c = msg_sender m -> PerAddress.entered c = false ->
  totalAmount l <> 0 -> revoked l = false -> revocable l = true ->
  PerAddress._vestedAmount (PerAddress.lockups c) b (block_timestamp m) = Ok v ->
  totalAmount l - Z.min v (totalAmount l) = 0 ->
  PerAddress.revoke c m tok b =
    mkTx [LockupRevoked b 0]
      (Ok (PerAddress.with_lockups c
             (<[b := with_revoked l (totalAmount l)]> (PerAddress.lockups c)))).
Proof.
  intros l Hown Hent Htot Hrev Hable Hv Hrefund.
  unfold PerAddress.revoke, PerAddress.nonReentrant, PerAddress.onlyOwner.
  open_per c. subst o e. cbv zeta. fold l.
  rewrite lift_bind, Z.eqb_refl. cbn [revert_if negb].
  rewrite bind_mret, lift_bind. cbn [revert_if].
  rewrite lift_bind.
  destruct (Z.eqb_spec (totalAmount l) 0); [contradiction |]. cbn [revert_if].
  rewrite lift_bind, Hrev. cbn [revert_if].
  rewrite lift_bind, Hable. cbn [revert_if negb].
  rewrite lift_bind, Hv, clamp_min.
  rewrite lift_bind, checked_sub_ok by lia.
  rewrite Hrefund.
  replace (Z.min v (totalAmount l)) with (totalAmount l) by lia.
  reflexivity.
Qed.

(** C6 as stated fails in the per-address shape: the owner
    revokes an existing, revocable, not yet revoked lockup after the end of its
    schedule, the refund is 0, and the call goes through: the record becomes
    revoked with [vestedAtRevoke = 1000] and [LockupRevoked(7, 0)] is emitted. *)
Lemma C6_counterexample :
  let c := small_per_address in
  let m := at_time 1 1700001000 in
  let l := PerAddress.lockup_at (PerAddress.lockups c) 7 in
  let l' := PerAddress.lockup_at
              (PerAddress.lockups (PerAddress.step c m sample_token (PerAddress.Revoke 7))) 7 in
  (totalAmount l <> 0 /\ revocable l = true /\ revoked l = false /\
   PerAddress.vestedAmount c 7 (block_timestamp m) = Ok (totalAmount l)) /\
  outcome (PerAddress.revoke c m sample_token 7) <> Revert NothingToRevoke /\
  trace (PerAddress.revoke c m sample_token 7) = [LockupRevoked 7 0] /\
  revoked l' = true /\ vestedAtRevoke l' = 1000.
Proof.
  cbv zeta. repeat split; try reflexivity; vm_compute; congruence.
Qed.

(** C6, amended.  In [Single], with nothing to refund [revoke] is refused
    with [NothingToRevoke], nothing is asked of the token and the contract is
    unchanged; when it goes through, the refund is positive, the record is
    revoked with the clamped vested amount and the refund is paid to the owner.
    In [PerAddress], with nothing to refund [revoke] goes through: the record
    becomes revoked with [vestedAtRevoke = totalAmount], [LockupRevoked] is
    emitted with refund 0 and no payout is asked; the payout is asked exactly
    when the refund is positive. *)
Theorem C6_revoke_with_zero_refund :
  (forall c m tok v,
     let l := Single.lockupInfo c in
     Single.owner c = msg_sender m -> Single.entered c = false ->
     totalAmount l <> 0 -> revoked l = false -> revocable l = true ->
     Single._vestedAmount l (block_timestamp m) = Ok v ->
     totalAmount l - Z.min v (totalAmount l) = 0 ->
     Single.revoke c m tok = mkTx [] (Revert NothingToRevoke) /\
     Single.step c m tok Single.Revoke = c) /\
  (forall c m tok c',
     let l := Single.lockupInfo c in
     outcome (Single.revoke c m tok) = Ok c' ->
     exists v,
       Single._vestedAmount l (block_timestamp m) = Ok v /\
       let vested := Z.min v (totalAmount l) in
       let refund := totalAmount l - vested in
       0 < refund /\
       Single.lockupInfo c' = with_revoked l vested /\
       trace (Single.revoke c m tok) =
         [SafeTransfer (Single.owner c) refund;
          LockupRevoked (Single.beneficiary c) refund]) /\
  (forall c m tok b v,
     let l := PerAddress.lockup_at (PerAddress.lockups c) b in
     PerAddress.owner c = msg_sender m -> PerAddress.entered c = false ->
     totalAmount l <> 0 -> revoked l = false -> revocable l = true ->
     PerAddress._vestedAmount (PerAddress.lockups c) b (block_timestamp m) = Ok v ->
     totalAmount l - Z.min v (totalAmount l) = 0 ->
     exists c',
       PerAddress.revoke c m tok b = mkTx [LockupRevoked b 0] (Ok c') /\
       PerAddress.lockup_at (PerAddress.lockups c') b = with_revoked l (totalAmount l)) /\
  (forall c m tok b c',
     let l := PerAddress.lockup_at (PerAddress.lockups c) b in
     outcome (PerAddress.revoke c m tok b) = Ok c' ->
     exists v,
       PerAddress._vestedAmount (PerAddress.lockups c) b (block_timestamp m) = Ok v /\
       let vested := Z.min v (totalAmount l) in
       let refund := totalAmount l - vested in
       PerAddress.lockup_at (PerAddress.lockups c') b = with_revoked l vested /\
       trace (PerAddress.revoke c m tok b) =
         (if 0 <? refund then [SafeTransfer (PerAddress.owner c) refund] else []) ++
         [LockupRevoked b refund]).
Proof.
  split; [| split; [| split]].
  - intros c m tok v l Hown Hent Htot Hrev Hable Hv Hrefund.
    assert (Hrevert : Single.revoke c m tok = mkTx [] (Revert NothingToRevoke))
      by (apply (single_revoke_nothing c m tok v); assumption).
    split; [exact Hrevert |].
    unfold Single.step. cbn [Single.exec]. rewrite Hrevert. reflexivity.
  - intros c m tok c' l Hok.
    apply single_revoke_inv in Hok
      as (_ & _ & _ & _ & _ & _ & v & Hv & Hpos & -> & Htrace).
    exists v. repeat split; assumption.
  - intros c m tok b v l Hown Hent Htot Hrev Hable Hv Hrefund.
    eexists. split.
    + apply (peraddress_revoke_nothing c m tok b v); assumption.
    + cbn. apply lockup_at_insert_eq.
  - intros c m tok b c' l Hok.
    apply peraddress_revoke_inv in Hok
      as (_ & _ & _ & _ & _ & v & Hv & _ & _ & -> & Htrace).
    exists v. split; [exact Hv |]. split; [| exact Htrace].
    cbn. apply lockup_at_insert_eq.
Qed.

(** C6 at work: after the end of the schedule the single shape refuses the
    revocation and the per-address shape records it. *)
Lemma C6_witness :
  Single.revoke small_single (at_time 1 1700001000) sample_token
    = mkTx [] (Revert NothingToRevoke) /\
  exists c',
    PerAddress.revoke small_per_address (at_time 1 1700001000) sample_token 7
      = mkTx [LockupRevoked 7 0] (Ok c') /\
    PerAddress.lockup_at (PerAddress.lockups c') 7 = with_revoked small_lockup 1000.
Proof.
  destruct C6_revoke_with_zero_refund as (Hs & _ & Hp & _).
  split.
  - apply (Hs small_single (at_time 1 1700001000) sample_token 1000); try reflexivity.
    vm_compute. congruence.
  - apply (Hp small_per_address (at_time 1 1700001000) sample_token 7 1000);
      try reflexivity.
    vm_compute. congruence.
Defined.

(** ** [createLockup] and the order of cliff and vesting durations *)

Lemma rejected_now {A : Type} (e : Error) : rejected (@mkTx A [] (Revert e)).
Proof. exists e. reflexivity. Qed.

Lemma rejected_guarded {A B : Type} (e : Error) (g : A -> B) :
  rejected (mkTx (trace (@mkTx A [] (Revert e)))
              (match outcome (@mkTx A [] (Revert e)) with
               | Ok a => Ok (g a)
               | Revert e' => Revert e'
               end)).
Proof. exists e. reflexivity. Qed.

Lemma rejected_outcome {A : Type} (t : Tx A) (a : A) :
  rejected t -> outcome t <> Ok a.
Proof. intros [e ->]. discriminate. Qed.

(** The next check of a call that will be refused. *)
Ltac refuse_with spec :=
  rewrite lift_bind; destruct spec; cbn [revert_if negb];
  try apply rejected_now; try apply rejected_guarded.

(** [Single]: a cliff that is not shorter than the vesting is refused. *)
Lemma single_createLockup_rejected c m tok b_ amount cliff vesting rev :
  vesting <= cliff ->
  rejected (Single.createLockup c m tok b_ amount cliff vesting rev).
Proof.
  intros Hle. unfold Single.createLockup, Single.nonReentrant, Single.onlyOwner.
  open_single c.
  refuse_with (Z.eqb_spec o (msg_sender m)).
  rewrite bind_mret.
  refuse_with e.
  refuse_with (Z.eqb_spec b 0).
  refuse_with (Z.eqb_spec amount 0).
  refuse_with (Z.eqb_spec vesting 0).
  refuse_with (Z.leb_spec vesting cliff).
  lia.
Qed.

Lemma single_createLockup_InvalidDuration c m tok b_ amount cliff vesting rev :
  vesting <= cliff ->
  Single.owner c = msg_sender m -> Single.entered c = false ->
  Single.beneficiary c = 0 -> amount <> 0 ->
  Single.createLockup c m tok b_ amount cliff vesting rev
    = mkTx [] (Revert InvalidDuration).
Proof.
  intros Hle Hown Hent Hben Hamount.
  unfold Single.createLockup, Single.nonReentrant, Single.onlyOwner.
  open_single c. subst o e b.
  rewrite lift_bind, Z.eqb_refl. cbn [revert_if negb].
  rewrite bind_mret, lift_bind. cbn [revert_if].
  rewrite lift_bind. cbn [Z.eqb revert_if negb].
  rewrite lift_bind.
  destruct (Z.eqb_spec amount 0); [contradiction |]. cbn [revert_if].
  rewrite lift_bind.
  destruct (Z.eqb_spec vesting 0); [reflexivity |]. cbn [revert_if].
  rewrite lift_bind.
  destruct (Z.leb_spec vesting cliff); [reflexivity | lia].
Qed.

(** [PerAddress]: a cliff longer than the vesting is refused. *)
Lemma peraddress_createLockup_rejected c m tok b amount cliff vesting rev :
  vesting < cliff ->
  rejected (PerAddress.createLockup c m tok b amount cliff vesting rev).
Proof.
  intros Hlt. unfold PerAddress.createLockup, PerAddress.nonReentrant,
    PerAddress.onlyOwner.
  open_per c.
  refuse_with (Z.eqb_spec o (msg_sender m)).
  rewrite bind_mret.
  refuse_with e.
  refuse_with (Z.eqb_spec b 0).
  refuse_with (Z.eqb_spec b s).
  refuse_with (Z.eqb_spec amount 0).
  refuse_with (Z.eqb_spec vesting 0).
  refuse_with (Z.ltb_spec MAX_VESTING_DURATION vesting).
  refuse_with (Z.ltb_spec vesting cliff).
  lia.
Qed.

Lemma peraddress_createLockup_InvalidDuration c m tok b amount cliff vesting rev :
  vesting < cliff ->
  PerAddress.owner c = msg_sender m -> PerAddress.entered c = false ->
  b <> 0 -> b <> PerAddress.this c -> amount <> 0 ->
  PerAddress.createLockup c m tok b amount cliff vesting rev
    = mkTx [] (Revert InvalidDuration).
Proof.
  intros Hlt Hown Hent Hb Hself Hamount.
  unfold PerAddress.createLockup, PerAddress.nonReentrant, PerAddress.onlyOwner.
  open_per c. subst o e.
  rewrite lift_bind, Z.eqb_refl. cbn [revert_if negb].
  rewrite bind_mret, lift_bind. cbn [revert_if].
  rewrite lift_bind.
  destruct (Z.eqb_spec b 0); [contradiction |]. cbn [revert_if].
  rewrite lift_bind.
  destruct (Z.eqb_spec b s); [contradiction |]. cbn [revert_if].
  rewrite lift_bind.
  destruct (Z.eqb_spec amount 0); [contradiction |]. cbn [revert_if].
  rewrite lift_bind.
  destruct (Z.eqb_spec vesting 0); [reflexivity |]. cbn [revert_if].
  rewrite lift_bind.
  destruct (Z.ltb_spec MAX_VESTING_DURATION vesting); [reflexivity |].
  cbn [revert_if].
  rewrite lift_bind.
  destruct (Z.ltb_spec vesting cliff); [reflexivity | lia].
Qed.

(** [PerAddress]: a cliff as long as the vesting is accepted. *)
Lemma peraddress_createLockup_equal_durations c m tok b amount vesting rev :
  PerAddress.owner c = msg_sender m -> PerAddress.entered c = false ->
  b <> 0 -> b <> PerAddress.this c -> amount <> 0 ->
  0 < vesting <= MAX_VESTING_DURATION ->
  totalAmount (PerAddress.lockup_at (PerAddress.lockups c) b) = 0 ->
  transfer_ok tok = true ->
  PerAddress.createLockup c m tok b amount vesting vesting rev =
    mkTx [SafeTransferFrom (msg_sender m) (PerAddress.this c) amount;
          TokensLocked b amount (block_timestamp m) vesting vesting rev]
      (Ok (PerAddress.with_lockups c (<[b := {|
             totalAmount := amount;
             releasedAmount := 0;
             startTime := block_timestamp m;
             cliffDuration := vesting;
             vestingDuration := vesting;
             revocable := rev;
             revoked := false;
             vestedAtRevoke := 0 |}]> (PerAddress.lockups c)))).
Proof.
  intros Hown Hent Hb Hself Hamount Hvest Hfree Hok.
  unfold PerAddress.createLockup, PerAddress.nonReentrant, PerAddress.onlyOwner.
  open_per c. subst o e.
  rewrite lift_bind, Z.eqb_refl. cbn [revert_if negb].
  rewrite bind_mret, lift_bind. cbn [revert_if].
  rewrite lift_bind.
  destruct (Z.eqb_spec b 0); [contradiction |]. cbn [revert_if].
  rewrite lift_bind.
  destruct (Z.eqb_spec b s); [contradiction |]. cbn [revert_if].
  rewrite lift_bind.
  destruct (Z.eqb_spec amount 0); [contradiction |]. cbn [revert_if].
  rewrite lift_bind.
  destruct (Z.eqb_spec vesting 0); [lia |]. cbn [revert_if].
  rewrite lift_bind.
  destruct (Z.ltb_spec MAX_VESTING_DURATION vesting); [lia |]. cbn [revert_if].
  rewrite lift_bind, Z.ltb_irrefl. cbn [revert_if].
  rewrite lift_bind, Hfree. cbn [Z.eqb revert_if negb].
  rewrite Hok. reflexivity.
Qed.

(** C7 as stated fails.  In the per-address shape, with
    [cliffDuration = vestingDuration = 1000] the owner's [createLockup] goes
    through, the transfer is asked and the record is stored.  In the single
    shape a call with equal durations and a zero amount is refused by the check
    of the amount, which comes first: the error is [InvalidAmount]. *)
Lemma C7_counterexample :
  let c := PerAddress.deployed 1 2 in
  let m := at_time 1 1700000000 in
  let call := PerAddress.createLockup c m sample_token 7 1000 1000 1000 true in
  let l' := PerAddress.lockup_at
              (PerAddress.lockups
                 (PerAddress.step c m sample_token
                    (PerAddress.CreateLockup 7 1000 1000 1000 true))) 7 in
  (outcome call <> Revert InvalidDuration /\
   trace call = [SafeTransferFrom 1 2 1000; TokensLocked 7 1000 1700000000 1000 1000 true] /\
   totalAmount l' = 1000 /\ cliffDuration l' = 1000 /\ vestingDuration l' = 1000) /\
  Single.createLockup (Single.deployed 1 2) m sample_token 7 0 1000 1000 true
    = mkTx [] (Revert InvalidAmount).
Proof.
  cbv zeta. repeat split; try reflexivity. vm_compute. congruence.
Qed.

(** C7, amended.  In [Single] every [createLockup] with
    [cliffDuration >= vestingDuration] is refused before anything is asked of
    the token and leaves the contract as it was, with [InvalidDuration] when the
    caller is the owner, no lockup exists and the amount is not zero (the checks
    that come first have their own errors).  In [PerAddress] the same holds for
    [cliffDuration > vestingDuration], with [InvalidDuration] when the caller is
    the owner, the beneficiary is valid and the amount is not zero; a
    [createLockup] with [cliffDuration = vestingDuration] that passes the other
    checks goes through and stores the record. *)
Theorem C7_createLockup_cliff_against_vesting :
  (forall c m tok b amount cliff vesting rev,
     vesting <= cliff ->
     rejected (Single.createLockup c m tok b amount cliff vesting rev) /\
     Single.step c m tok (Single.CreateLockup b amount cliff vesting rev) = c /\
     (Single.owner c = msg_sender m -> Single.entered c = false ->
      Single.beneficiary c = 0 -> amount <> 0 ->
      Single.createLockup c m tok b amount cliff vesting rev
        = mkTx [] (Revert InvalidDuration))) /\
  (forall c m tok b amount cliff vesting rev,
     vesting < cliff ->
     rejected (PerAddress.createLockup c m tok b amount cliff vesting rev) /\
     PerAddress.step c m tok (PerAddress.CreateLockup b amount cliff vesting rev) = c /\
     (PerAddress.owner c = msg_sender m -> PerAddress.entered c = false ->
      b <> 0 -> b <> PerAddress.this c -> amount <> 0 ->
      PerAddress.createLockup c m tok b amount cliff vesting rev
        = mkTx [] (Revert InvalidDuration))) /\
  (forall c m tok b amount vesting rev,
     PerAddress.owner c = msg_sender m -> PerAddress.entered c = false ->
     b <> 0 -> b <> PerAddress.this c -> amount <> 0 ->
     0 < vesting <= MAX_VESTING_DURATION ->
     totalAmount (PerAddress.lockup_at (PerAddress.lockups c) b) = 0 ->
     transfer_ok tok = true ->
     exists c',
       outcome (PerAddress.createLockup c m tok b amount vesting vesting rev) = Ok c' /\
       let l' := PerAddress.lockup_at (PerAddress.lockups c') b in
       totalAmount l' = amount /\
       cliffDuration l' = vesting /\ vestingDuration l' = vesting).
Proof.
  split; [| split].
  - intros c m tok b amount cliff vesting rev Hle.
    pose proof (single_createLockup_rejected c m tok b amount cliff vesting rev Hle)
      as Hrej.
    split; [exact Hrej |]. split.
    + unfold Single.step. cbn [Single.exec].
      destruct Hrej as [e ->]. reflexivity.
    + intros. apply single_createLockup_InvalidDuration; assumption.
  - intros c m tok b amount cliff vesting rev Hlt.
    pose proof (peraddress_createLockup_rejected c m tok b amount cliff vesting rev Hlt)
      as Hrej.
    split; [exact Hrej |]. split.
    + unfold PerAddress.step. cbn [PerAddress.exec].
      destruct Hrej as [e ->]. reflexivity.
    + intros. apply peraddress_createLockup_InvalidDuration; assumption.
  - intros c m tok b amount vesting rev Hown Hent Hb Hself Hamount Hvest Hfree Hok.
    eexists. split.
    + rewrite peraddress_createLockup_equal_durations by assumption. reflexivity.
    + cbn. rewrite lockup_at_insert_eq. cbn. repeat split; reflexivity.
Qed.

(** C7 at work: equal durations, refused in the single shape with
    [InvalidDuration]; a longer cliff, refused in the per-address shape. *)
Lemma C7_witness :
  Single.createLockup (Single.deployed 1 2) (at_time 1 1700000000) sample_token
    7 1000 1000 1000 true = mkTx [] (Revert InvalidDuration) /\
  PerAddress.createLockup (PerAddress.deployed 1 2) (at_time 1 1700000000) sample_token
    7 1000 1001 1000 true = mkTx [] (Revert InvalidDuration).
Proof.
  destruct C7_createLockup_cliff_against_vesting as (Hs & Hp & _).
  split.
  - destruct (Hs (Single.deployed 1 2) (at_time 1 1700000000) sample_token
                7 1000 1000 1000 true ltac:(lia)) as (_ & _ & Herr).
    apply Herr; try reflexivity. lia.
  - destruct (Hp (PerAddress.deployed 1 2) (at_time 1 1700000000) sample_token
                7 1000 1001 1000 true ltac:(lia)) as (_ & _ & Herr).
    apply Herr; try reflexivity; cbn; lia.
Defined.

(** For a record that is not revoked the vested amount does not decrease with
    time, where it is returned.  In [Single] both calls return for every
    well-typed record whose schedule fits.  In [PerAddress] the order holds
    whenever both calls return, and both return when
    [totalAmount * vestingDuration] fits [uint256]; beyond that a call in the
    linear part can abort. *)
Lemma vested_amount_monotone_where_returned :
  (forall l t1 t2,
     Single.well_typed l -> Single.schedule_fits l -> revoked l = false ->
     0 <= t1 -> t1 <= t2 -> t2 <= UINT256_MAX ->
     exists v1 v2,
       Single._vestedAmount l t1 = Ok v1 /\ Single._vestedAmount l t2 = Ok v2 /\
       v1 <= v2) /\
  (forall (lk : gmap Z LockupInfo) b t1 t2 v1 v2,
     let l := PerAddress.lockup_at lk b in
     PerAddress.well_typed l -> revoked l = false -> t1 <= t2 ->
     PerAddress._vestedAmount lk b t1 = Ok v1 ->
     PerAddress._vestedAmount lk b t2 = Ok v2 ->
     v1 <= v2) /\
  (forall (lk : gmap Z LockupInfo) b t1 t2,
     let l := PerAddress.lockup_at lk b in
     PerAddress.well_typed l -> PerAddress.schedule_fits l -> revoked l = false ->
     totalAmount l * vestingDuration l <= UINT256_MAX ->
     0 <= t1 -> t1 <= t2 ->
     exists v1 v2,
       PerAddress._vestedAmount lk b t1 = Ok v1 /\
       PerAddress._vestedAmount lk b t2 = Ok v2 /\
       v1 <= v2).
Proof.
  split; [| split].
  - intros l t1 t2 Htyped Hfits Hrev Ht1 Ht Ht2.
    exists (vested_spec l t1), (vested_spec l t2). split; [| split].
    + apply single_vestedAmount_spec; auto. lia.
    + apply single_vestedAmount_spec; auto. lia.
    + widths. apply vested_spec_mono; auto; try lia; congruence.
  - intros lk b t1 t2 v1 v2 l Htyped Hrev Ht Hv1 Hv2.
    apply peraddress_vestedAmount_inv in Hv1 as ->.
    apply peraddress_vestedAmount_inv in Hv2 as ->. fold l.
    widths. apply vested_spec_mono; auto; try lia; congruence.
  - intros lk b t1 t2 l Htyped Hfits Hrev Hprod Ht1 Ht.
    assert (Hreturns : forall t, 0 <= t ->
              PerAddress._vestedAmount lk b t = Ok (vested_spec l t)).
    { intros t Ht0. apply peraddress_vestedAmount_spec; auto.
      fold l. intros _ _ Hphase.
      apply Z.le_trans with (totalAmount l * vestingDuration l); [| exact Hprod].
      apply Z.mul_le_mono_nonneg_l; widths; lia. }
    exists (vested_spec l t1), (vested_spec l t2). split; [| split].
    + apply Hreturns. lia.
    + apply Hreturns. lia.
    + widths. apply vested_spec_mono; auto; try lia; congruence.
Qed.

(** On the sample record, a quarter and three quarters in. *)
Example vested_amount_monotone_sample :
  (exists v1 v2,
     Single._vestedAmount small_lockup 1700000250 = Ok v1 /\
     Single._vestedAmount small_lockup 1700000750 = Ok v2 /\ v1 <= v2) /\
  (exists v1 v2,
     PerAddress._vestedAmount (<[7 := small_lockup]> ∅) 7 1700000250 = Ok v1 /\
     PerAddress._vestedAmount (<[7 := small_lockup]> ∅) 7 1700000750 = Ok v2 /\
     v1 <= v2).
Proof.
  destruct vested_amount_monotone_where_returned as (Hs & _ & Hp).
  split.
  - apply (Hs small_lockup 1700000250 1700000750); try reflexivity; concrete.
  - pose proof (Hp (<[7 := small_lockup]> ∅) 7 1700000250 1700000750) as H.
    cbv zeta in H. rewrite lockup_at_insert_eq in H.
    apply H; try reflexivity; concrete.
Qed.

(** C8, on the failing input.  The reachable per-address record of [2^255]
    units over 100 seconds is not revoked.  One second in, the vested amount
    is returned; two seconds in, [totalAmount * timeFromStart] is [2^256], the
    256-bit product overflows and the call aborts with [Panic 0x11]; at the end
    of the schedule the total is returned again.  So for [t1 <= t2] there is no
    pair of returned amounts to compare.  The single shape, with [Math.mulDiv],
    returns both amounts on the same record, in order. *)
Theorem C8_monotonicity_aborts_per_address :
  let l := PerAddress.lockup_at (PerAddress.lockups huge_per_address) 7 in
  let t1 := 1700000001 in
  let t2 := 1700000002 in
  PerAddress.reachable huge_per_address /\
  totalAmount l <> 0 /\ revoked l = false /\ t1 <= t2 /\
  PerAddress.vestedAmount huge_per_address 7 t1 = Ok (TWO_255 / 100) /\
  PerAddress.vestedAmount huge_per_address 7 t2 = Revert (Panic ARITHMETIC_OVERFLOW) /\
  PerAddress.vestedAmount huge_per_address 7 1700000100 = Ok TWO_255 /\
  ~ (exists v1 v2,
       PerAddress.vestedAmount huge_per_address 7 t1 = Ok v1 /\
       PerAddress.vestedAmount huge_per_address 7 t2 = Ok v2 /\ v1 <= v2) /\
  Single._vestedAmount l t1 = Ok (TWO_255 / 100) /\
  Single._vestedAmount l t2 = Ok (TWO_255 * 2 / 100) /\
  TWO_255 / 100 <= TWO_255 * 2 / 100.
Proof.
  cbv zeta.
  assert (Haborts : PerAddress.vestedAmount huge_per_address 7 1700000002
                    = Revert (Panic ARITHMETIC_OVERFLOW)) by reflexivity.
  split.
  - unfold huge_per_address. apply PerAddress.reachable_step.
    + apply PerAddress.reachable_deployed.
    + concrete.
    + concrete.
  - split; [vm_compute; congruence |]. split; [reflexivity |].
    split; [lia |]. split; [reflexivity |]. split; [exact Haborts |].
    split; [reflexivity |]. split.
    + intros (v1 & v2 & _ & Hv2 & _). rewrite Haborts in Hv2. discriminate.
    + split; [reflexivity |]. split; [reflexivity |]. vm_compute. congruence.
Qed.

(** ** The progress percentage *)

Lemma single_getVestingProgress_spec l now :
  Single.well_typed l -> Single.schedule_fits l ->
  0 <= now <= UINT256_MAX ->
  Single.getVestingProgress l now = Ok (progress_spec l now).
Proof.
  intros Htyped Hfits Hnow. unfold Single.getVestingProgress, progress_spec.
  destruct (Z.eqb_spec (totalAmount l) 0); [reflexivity |].
  destruct (revoked l); [reflexivity |].
  rewrite (checked_add_ok 64 (startTime l) (cliffDuration l)) by (widths; lia).
  reduce.
  destruct (Z.ltb_spec now (startTime l + cliffDuration l)); [reflexivity |].
  rewrite (checked_add_ok 64 (startTime l) (vestingDuration l)) by (widths; lia).
  reduce.
  destruct (Z.leb_spec (startTime l + vestingDuration l) now); [reflexivity |].
  rewrite checked_sub_ok by (widths; lia). reduce.
  rewrite checked_mul_ok by (widths; lia). reduce.
  apply checked_div_ok. widths. lia.
Qed.

Lemma peraddress_getVestingProgress_spec (lk : gmap Z LockupInfo) b now :
  let l := PerAddress.lockup_at lk b in
  PerAddress.well_typed l -> PerAddress.schedule_fits l ->
  vestingDuration l <= MAX_VESTING_DURATION ->
  0 <= now ->
  PerAddress.getVestingProgress lk b now = Ok (progress_spec l now).
Proof.
  intros l Htyped Hfits Hmax Hnow.
  unfold PerAddress.getVestingProgress, progress_spec. fold l.
  destruct (Z.eqb_spec (totalAmount l) 0); [reflexivity |].
  destruct (revoked l); [reflexivity |].
  rewrite (checked_add_ok 256 (startTime l) (cliffDuration l)) by (widths; lia).
  reduce.
  destruct (Z.ltb_spec now (startTime l + cliffDuration l)); [reflexivity |].
  rewrite (checked_add_ok 256 (startTime l) (vestingDuration l)) by (widths; lia).
  reduce.
  destruct (Z.leb_spec (startTime l + vestingDuration l) now); [reflexivity |].
  rewrite checked_sub_ok by (widths; lia). reduce.
  rewrite checked_mul_ok by (widths; lia). reduce.
  apply checked_div_ok. widths. lia.
Qed.

(** C9.  [getVestingProgress] is 0 without a record, 100 for a revoked
    record, 0 before the end of the cliff, 100 from the end of the vesting on,
    and [floor((now - startTime) * 100 / vestingDuration)] in between, in both
    shapes; time is counted from [startTime], so that at the end of the cliff
    the progress is [floor(cliffDuration * 100 / vestingDuration)] and not 0. *)
Theorem C9_getVestingProgress_counts_from_start :
  (forall l now,
     Single.well_typed l -> Single.schedule_fits l -> 0 <= now <= UINT256_MAX ->
     Single.getVestingProgress l now = Ok (progress_spec l now)) /\
  (forall (lk : gmap Z LockupInfo) b now,
     let l := PerAddress.lockup_at lk b in
     PerAddress.well_typed l -> PerAddress.schedule_fits l ->
     vestingDuration l <= MAX_VESTING_DURATION -> 0 <= now ->
     PerAddress.getVestingProgress lk b now = Ok (progress_spec l now)) /\
  (forall l,
     totalAmount l <> 0 -> revoked l = false ->
     cliffDuration l < vestingDuration l ->
     progress_spec l (startTime l + cliffDuration l)
       = cliffDuration l * 100 / vestingDuration l).
Proof.
  split; [| split].
  - apply single_getVestingProgress_spec.
  - apply peraddress_getVestingProgress_spec.
  - intros l Htot Hrev Hcliff. unfold progress_spec. rewrite Hrev.
    destruct (Z.eqb_spec (totalAmount l) 0); [contradiction |].
    destruct (Z.ltb_spec (startTime l + cliffDuration l)
                (startTime l + cliffDuration l)); [lia |].
    destruct (Z.leb_spec (startTime l + vestingDuration l)
                (startTime l + cliffDuration l)); [lia |].
    f_equal. lia.
Qed.

(** C9 at work: a ten-year lockup with a one-year cliff shows 10 percent at
    the end of the cliff, in both shapes. *)
Lemma C9_witness :
  Single.lockupInfo decade_single = decade_lockup /\
  PerAddress.lockup_at (PerAddress.lockups decade_per_address) 7 = decade_lockup /\
  Single.getVestingProgress decade_lockup (1700000000 + 31536000) = Ok 10 /\
  PerAddress.getVestingProgress (<[7 := decade_lockup]> ∅) 7 (1700000000 + 31536000)
    = Ok 10 /\
  progress_spec decade_lockup (1700000000 + 31536000) = 10.
Proof.
  destruct C9_getVestingProgress_counts_from_start as (Hs & Hp & Hn).
  split; [reflexivity |]. split; [reflexivity |]. split; [| split].
  - apply (Hs decade_lockup (1700000000 + 31536000)); concrete.
  - pose proof (Hp (<[7 := decade_lockup]> ∅) 7 (1700000000 + 31536000)) as H.
    cbv zeta in H. rewrite lockup_at_insert_eq in H. apply H; concrete.
  - apply (Hn decade_lockup).
    + vm_compute. congruence.
    + reflexivity.
    + concrete.
Defined.

(** ** [Single.release] before any lockup *)

Lemma single_release_NotBeneficiary c m tok :
  Single.entered c = false -> msg_sender m <> Single.beneficiary c ->
  Single.release c m tok = mkTx [] (Revert NotBeneficiary).
Proof.
  intros Hent Hne. unfold Single.release, Single.nonReentrant.
  open_single c. subst e.
  rewrite bind_mret, lift_bind. cbn [revert_if].
  rewrite lift_bind.
  destruct (Z.eqb_spec (msg_sender m) b); [contradiction |]. reflexivity.
Qed.

(** In the per-address shape the record is looked up under the caller, and a
    caller without a record gets [NoLockupFound]. *)
Lemma peraddress_release_NoLockupFound c m tok :
  PerAddress.entered c = false ->
  totalAmount (PerAddress.lockup_at (PerAddress.lockups c) (msg_sender m)) = 0 ->
  PerAddress.release c m tok = mkTx [] (Revert NoLockupFound).
Proof.
  intros Hent Hnone. unfold PerAddress.release, PerAddress.nonReentrant.
  open_per c. subst e.
  rewrite bind_mret, lift_bind. cbn [revert_if].
  rewrite lift_bind, Hnone. reflexivity.
Qed.

(** C10.  In the single shape [release] compares the caller with the stored
    beneficiary first: a caller who is not the beneficiary gets
    [NotBeneficiary] whether a lockup exists or not.  While no lockup has been
    created the beneficiary is the zero address and the record is empty, so
    every caller gets [NotBeneficiary], not [NoLockupFound], nothing is asked of
    the token and the contract is unchanged. *)
Theorem C10_release_before_any_lockup :
  (forall c m tok,
     Single.entered c = false -> msg_sender m <> Single.beneficiary c ->
     Single.release c m tok = mkTx [] (Revert NotBeneficiary)) /\
  (forall c m tok,
     Single.reachable c -> Single.beneficiary c = 0 -> msg_sender m <> 0 ->
     Single.lockupInfo c = noLockup /\
     Single.release c m tok = mkTx [] (Revert NotBeneficiary) /\
     Single.step c m tok Single.Release = c).
Proof.
  split.
  - apply single_release_NotBeneficiary.
  - intros c m tok Hreach Hben Hsender.
    apply single_reachable_inv in Hreach as (Hent & _ & _ & _ & Hnone & _).
    assert (Hrevert : Single.release c m tok = mkTx [] (Revert NotBeneficiary))
      by (apply single_release_NotBeneficiary; [assumption | congruence]).
    split; [apply Hnone; exact Hben |]. split; [exact Hrevert |].
    unfold Single.step. cbn [Single.exec]. rewrite Hrevert. reflexivity.
Qed.

(** C10 at work: address 7 calls [release] on the freshly deployed contract. *)
Lemma C10_witness :
  Single.release (Single.deployed 1 2) (at_time 7 1700000000) sample_token
    = mkTx [] (Revert NotBeneficiary).
Proof.
  destruct C10_release_before_any_lockup as (_ & H).
  destruct (H (Single.deployed 1 2) (at_time 7 1700000000) sample_token) as (_ & Hr & _).
  - apply Single.reachable_deployed.
  - reflexivity.
  - cbn. lia.
  - exact Hr.
Defined.

(** * What else the code shows *)

(** ** The entry points, case by case *)

Lemma single_release_ok c m tok r :
  let l := Single.lockupInfo c in
  Single.entered c = false -> msg_sender m = Single.beneficiary c ->
  totalAmount l <> 0 ->
  Single._releasableAmount l (block_timestamp m) = Ok r -> r <> 0 ->
  releasedAmount l + r <= UINT256_MAX -> transfer_ok tok = true ->
  Single.release c m tok =
    mkTx [SafeTransfer (msg_sender m) r; TokensReleased (msg_sender m) r]
      (Ok (Single.with_lockup c (Single.beneficiary c)
             (with_releasedAmount l (releasedAmount l + r)))).
Proof.
  intros l Hent Hsender Htot Hr Hr0 Hmax Hok. subst l.
  unfold Single.release, Single.nonReentrant.
  open_single c. subst e b.
  rewrite bind_mret, lift_bind. cbn [revert_if].
  rewrite lift_bind, Z.eqb_refl. cbn [revert_if negb].
  rewrite lift_bind.
  destruct (Z.eqb_spec (totalAmount l) 0); [contradiction |]. cbn [revert_if].
  rewrite lift_bind, Hr.
  rewrite lift_bind.
  destruct (Z.eqb_spec r 0); [contradiction |]. cbn [revert_if].
  rewrite lift_bind, checked_add_ok by (rewrite uint_max_256; exact Hmax).
  rewrite Hok. reflexivity.
Qed.

Lemma single_release_NoTokensAvailable c m tok :
  let l := Single.lockupInfo c in
  Single.entered c = false -> msg_sender m = Single.beneficiary c ->
  totalAmount l <> 0 ->
  Single._releasableAmount l (block_timestamp m) = Ok 0 ->
  Single.release c m tok = mkTx [] (Revert NoTokensAvailable).
Proof.
  intros l Hent Hsender Htot Hr. subst l.
  unfold Single.release, Single.nonReentrant.
  open_single c. subst e b.
  rewrite bind_mret, lift_bind. cbn [revert_if].
  rewrite lift_bind, Z.eqb_refl. cbn [revert_if negb].
  rewrite lift_bind.
  destruct (Z.eqb_spec (totalAmount l) 0); [contradiction |]. cbn [revert_if].
  rewrite lift_bind, Hr.
  rewrite lift_bind. reflexivity.
Qed.

Lemma peraddress_release_ok c m tok r :
  let l := PerAddress.lockup_at (PerAddress.lockups c) (msg_sender m) in
  PerAddress.entered c = false -> totalAmount l <> 0 ->
  PerAddress._releasableAmount (PerAddress.lockups c) (msg_sender m)
    (block_timestamp m) = Ok r ->
  r <> 0 -> releasedAmount l + r <= UINT256_MAX -> transfer_ok tok = true ->
  PerAddress.release c m tok =
    mkTx [SafeTransfer (msg_sender m) r; TokensReleased (msg_sender m) r]
      (Ok (PerAddress.with_lockups c
             (<[msg_sender m := with_releasedAmount l (releasedAmount l + r)]>
                (PerAddress.lockups c)))).
Proof.
  intros l Hent Htot Hr Hr0 Hmax Hok.
  unfold PerAddress.release, PerAddress.nonReentrant.
  open_per c. subst e. cbv zeta. fold l.
  rewrite bind_mret, lift_bind. cbn [revert_if].
  rewrite lift_bind.
  destruct (Z.eqb_spec (totalAmount l) 0); [contradiction |]. cbn [revert_if].
  rewrite lift_bind, Hr.
  rewrite lift_bind.
  destruct (Z.eqb_spec r 0); [contradiction |]. cbn [revert_if].
  rewrite lift_bind, checked_add_ok by (rewrite uint_max_256; exact Hmax).
  rewrite Hok. reflexivity.
Qed.

Lemma peraddress_release_NoTokensAvailable c m tok :
  let l := PerAddress.lockup_at (PerAddress.lockups c) (msg_sender m) in
  PerAddress.entered c = false -> totalAmount l <> 0 ->
  PerAddress._releasableAmount (PerAddress.lockups c) (msg_sender m)
    (block_timestamp m) = Ok 0 ->
  PerAddress.release c m tok = mkTx [] (Revert NoTokensAvailable).
Proof.
  intros l Hent Htot Hr.
  unfold PerAddress.release, PerAddress.nonReentrant.
  open_per c. subst e. cbv zeta. fold l.
  rewrite bind_mret, lift_bind. cbn [revert_if].
  rewrite lift_bind.
  destruct (Z.eqb_spec (totalAmount l) 0); [contradiction |]. cbn [revert_if].
  rewrite lift_bind, Hr.
  rewrite lift_bind. reflexivity.
Qed.

(** ** A release pays out everything vested, once *)

Lemma single_releasable_after l now r :
  Single._releasableAmount l now = Ok r ->
  Single._releasableAmount (with_releasedAmount l (releasedAmount l + r)) now = Ok 0.
Proof.
  unfold Single._releasableAmount.
  change (Single._vestedAmount (with_releasedAmount l (releasedAmount l + r)) now)
    with (Single._vestedAmount l now).
  cbn [revoked startTime vestingDuration totalAmount releasedAmount with_releasedAmount].
  destruct (Single._vestedAmount l now) as [v | err]; [| discriminate]. reduce.
  destruct (revoked l); reduce.
  - intros Hr. apply checked_sub_inv in Hr as [-> Hle].
    rewrite checked_sub_ok by lia. f_equal. lia.
  - destruct (checked_add 64 (startTime l) (vestingDuration l)) as [e | err];
      [| discriminate].
    reduce. destruct (e <=? now); intros Hr;
      apply checked_sub_inv in Hr as [-> Hle];
      rewrite checked_sub_ok by lia; f_equal; lia.
Qed.

Lemma peraddress_releasable_after (lk : gmap Z LockupInfo) b now r :
  let l := PerAddress.lockup_at lk b in
  PerAddress._releasableAmount lk b now = Ok r ->
  PerAddress._releasableAmount
    (<[b := with_releasedAmount l (releasedAmount l + r)]> lk) b now = Ok 0.
Proof.
  intros l. unfold PerAddress._releasableAmount, PerAddress._vestedAmount.
  rewrite lockup_at_insert_eq. fold l.
  cbn [revoked startTime vestingDuration cliffDuration totalAmount releasedAmount
       vestedAtRevoke with_releasedAmount].
  set (vested := if totalAmount l =? 0 then _ else _).
  destruct vested as [v | err]; [| discriminate]. reduce.
  destruct (revoked l); reduce.
  - intros Hr. apply checked_sub_inv in Hr as [-> Hle].
    rewrite checked_sub_ok by lia. f_equal. lia.
  - destruct (checked_add 256 (startTime l) (vestingDuration l)) as [e | err];
      [| discriminate].
    reduce. destruct (e <=? now); intros Hr;
      apply checked_sub_inv in Hr as [-> Hle];
      rewrite checked_sub_ok by lia; f_equal; lia.
Qed.

(** X1.  After a release that went through, the released amount is the vested
    amount of that moment, nothing is releasable any more, and a second
    [release] in the same block is refused with [NoTokensAvailable]. *)
Theorem release_leaves_nothing_releasable :
  (forall c m tok c',
     Single.reachable c -> outcome (Single.release c m tok) = Ok c' ->
     Single.vestedAmount c' (block_timestamp m)
       = Ok (releasedAmount (Single.lockupInfo c')) /\
     Single.releasableAmount c' (block_timestamp m) = Ok 0 /\
     forall tok', Single.release c' m tok' = mkTx [] (Revert NoTokensAvailable)) /\
  (forall c m tok c',
     let b := msg_sender m in
     PerAddress.reachable c -> outcome (PerAddress.release c m tok) = Ok c' ->
     PerAddress.vestedAmount c' b (block_timestamp m)
       = Ok (releasedAmount (PerAddress.lockup_at (PerAddress.lockups c') b)) /\
     PerAddress.releasableAmount c' b (block_timestamp m) = Ok 0 /\
     forall tok', PerAddress.release c' m tok' = mkTx [] (Revert NoTokensAvailable)).
Proof.
  split.
  - intros c m tok c' Hreach Hok.
    apply single_reachable_inv in Hreach
      as (_ & Htyped & _ & _ & Hnone & Hsome & _).
    apply single_release_inv in Hok
      as (Hent & Hsender & Htot & _ & r & Hr & _ & _ & -> & _).
    assert (Hben : Single.beneficiary c <> 0).
    { intros Hb. rewrite (Hnone Hb) in Htot. apply Htot. reflexivity. }
    destruct (Hsome Hben) as (Hpos & Hcv).
    pose proof (single_releasable_after _ _ _ Hr) as Hzero.
    apply single_releasableAmount_inv in Hr as Hcases.
    destruct Hcases as (vested & Hv & Hcases).
    unfold Single.vestedAmount, Single.releasableAmount. cbn.
    split; [| split].
    + change (Single._vestedAmount
                (with_releasedAmount (Single.lockupInfo c)
                   (releasedAmount (Single.lockupInfo c) + r)) (block_timestamp m))
        with (Single._vestedAmount (Single.lockupInfo c) (block_timestamp m)).
      rewrite Hv. f_equal.
      destruct Hcases as [(Hrev & Hdone & -> & _) | (_ & -> & _)]; [| lia].
      apply single_vestedAmount_inv in Hv as ->; [| lia].
      unfold vested_spec. rewrite Hrev. widths.
      destruct (Z.eqb_spec (totalAmount (Single.lockupInfo c)) 0); [contradiction |].
      destruct (Z.ltb_spec (block_timestamp m)
                  (startTime (Single.lockupInfo c) + cliffDuration (Single.lockupInfo c)));
        [lia |].
      destruct (Z.leb_spec
                  (startTime (Single.lockupInfo c) + vestingDuration (Single.lockupInfo c))
                  (block_timestamp m)); lia.
    + exact Hzero.
    + intros tok'. apply single_release_NoTokensAvailable; auto.
  - intros c m tok c' b Hreach Hok. subst b.
    apply peraddress_reachable_inv in Hreach as (_ & Hall).
    destruct (Hall (msg_sender m)) as (Htyped & _ & _ & _ & Hsome & _).
    apply peraddress_release_inv in Hok
      as (Hent & Htot & _ & r & Hr & _ & _ & -> & _).
    destruct (Hsome Htot) as (Hpos & Hcv).
    pose proof (peraddress_releasable_after _ _ _ _ Hr) as Hzero.
    apply peraddress_releasableAmount_inv in Hr as Hcases.
    destruct Hcases as (vested & Hv & Hcases).
    unfold PerAddress.vestedAmount, PerAddress.releasableAmount.
    open_per c.
    set (l := PerAddress.lockup_at lk (msg_sender m)) in *.
    rewrite lockup_at_insert_eq.
    cbn [releasedAmount with_releasedAmount].
    split; [| split].
    + assert (Hsame : PerAddress._vestedAmount
                (<[msg_sender m := with_releasedAmount l (releasedAmount l + r)]> lk)
                (msg_sender m) (block_timestamp m)
              = PerAddress._vestedAmount lk (msg_sender m) (block_timestamp m)).
      { unfold PerAddress._vestedAmount. rewrite lockup_at_insert_eq. reflexivity. }
      rewrite Hsame, Hv. f_equal.
      destruct Hcases as [(Hrev & Hdone & -> & _) | (_ & -> & _)]; [| lia].
      apply peraddress_vestedAmount_inv in Hv as ->. fold l.
      unfold vested_spec. rewrite Hrev. widths.
      destruct (Z.eqb_spec (totalAmount l) 0); [contradiction |].
      destruct (Z.ltb_spec (block_timestamp m) (startTime l + cliffDuration l)); [lia |].
      destruct (Z.leb_spec (startTime l + vestingDuration l) (block_timestamp m)); lia.
    + exact Hzero.
    + intros tok'. apply peraddress_release_NoTokensAvailable.
      * exact Hent.
      * cbn [PerAddress.lockups PerAddress.with_lockups].
        rewrite lockup_at_insert_eq. exact Htot.
      * exact Hzero.
Qed.

Lemma release_leaves_nothing_releasable_witness :
  Single.release
    (Single.step small_single (at_time 7 1700000500) sample_token Single.Release)
    (at_time 7 1700000500) sample_token = mkTx [] (Revert NoTokensAvailable) /\
  PerAddress.release
    (PerAddress.step small_per_address (at_time 7 1700000500) sample_token
       PerAddress.Release)
    (at_time 7 1700000500) sample_token = mkTx [] (Revert NoTokensAvailable).
Proof.
  destruct release_leaves_nothing_releasable as (Hs & Hp).
  split.
  - destruct (Hs small_single (at_time 7 1700000500) sample_token
                (Single.step small_single (at_time 7 1700000500) sample_token
                   Single.Release)
                small_single_reachable eq_refl) as (_ & _ & Hagain).
    apply Hagain.
  - destruct (Hp small_per_address (at_time 7 1700000500) sample_token
                (PerAddress.step small_per_address (at_time 7 1700000500) sample_token
                   PerAddress.Release)
                small_per_address_reachable eq_refl) as (_ & _ & Hagain).
    apply Hagain.
Defined.

(** ** The remaining time and the progress percentage *)

Lemma single_getRemainingVestingTime_inv l now rem :
  Single.getRemainingVestingTime l now = Ok rem ->
  (rem = 0 <->
   totalAmount l = 0 \/ revoked l = true \/ startTime l + vestingDuration l <= now) /\
  (rem <> 0 -> 0 < rem /\ now + rem = startTime l + vestingDuration l).
Proof.
  unfold Single.getRemainingVestingTime.
  destruct (Z.eqb_spec (totalAmount l) 0) as [Hz | Hnz].
  { intros Hr. inversion Hr. split; [tauto | congruence]. }
  destruct (revoked l) eqn:Hrev.
  { intros Hr. inversion Hr. split; [tauto | congruence]. }
  intros Hr. apply bind_inv in Hr as (e & He & Hr).
  apply checked_add_inv in He as [-> _].
  destruct (Z.leb_spec (startTime l + vestingDuration l) now).
  - inversion Hr. split; [tauto | congruence].
  - apply checked_sub_inv in Hr as [-> _]. split; [| lia].
    split; [lia |]. intros [Hc | [Hc | Hc]]; [contradiction | discriminate | lia].
Qed.

Lemma peraddress_getRemainingVestingTime_inv (lk : gmap Z LockupInfo) b now rem :
  let l := PerAddress.lockup_at lk b in
  PerAddress.getRemainingVestingTime lk b now = Ok rem ->
  (rem = 0 <->
   totalAmount l = 0 \/ revoked l = true \/ startTime l + vestingDuration l <= now) /\
  (rem <> 0 -> 0 < rem /\ now + rem = startTime l + vestingDuration l).
Proof.
  intros l. unfold PerAddress.getRemainingVestingTime. fold l.
  destruct (Z.eqb_spec (totalAmount l) 0) as [Hz | Hnz].
  { intros Hr. inversion Hr. split; [tauto | congruence]. }
  destruct (revoked l) eqn:Hrev.
  { intros Hr. inversion Hr. split; [tauto | congruence]. }
  intros Hr. apply bind_inv in Hr as (e & He & Hr).
  apply checked_add_inv in He as [-> _].
  destruct (Z.leb_spec (startTime l + vestingDuration l) now).
  - inversion Hr. split; [tauto | congruence].
  - apply checked_sub_inv in Hr as [-> _]. split; [| lia].
    split; [lia |]. intros [Hc | [Hc | Hc]]; [contradiction | discriminate | lia].
Qed.

Lemma single_getRemainingVestingTime_returns l now :
  startTime l + vestingDuration l <= UINT64_MAX ->
  exists rem, Single.getRemainingVestingTime l now = Ok rem.
Proof.
  intros Hfits. unfold Single.getRemainingVestingTime.
  destruct (totalAmount l =? 0); [eauto |].
  destruct (revoked l); [eauto |].
  rewrite checked_add_ok by (rewrite uint_max_64; exact Hfits). reduce.
  destruct (Z.leb_spec (startTime l + vestingDuration l) now); [eauto |].
  rewrite checked_sub_ok by lia. eauto.
Qed.

Lemma peraddress_getRemainingVestingTime_returns (lk : gmap Z LockupInfo) b now :
  let l := PerAddress.lockup_at lk b in
  startTime l + vestingDuration l <= UINT256_MAX ->
  exists rem, PerAddress.getRemainingVestingTime lk b now = Ok rem.
Proof.
  intros l Hfits. unfold PerAddress.getRemainingVestingTime. fold l.
  destruct (totalAmount l =? 0); [eauto |].
  destruct (revoked l); [eauto |].
  rewrite checked_add_ok by (rewrite uint_max_256; exact Hfits). reduce.
  destruct (Z.leb_spec (startTime l + vestingDuration l) now); [eauto |].
  rewrite checked_sub_ok by lia. eauto.
Qed.

(** X2.  [getRemainingVestingTime] returns whenever the end of the schedule fits
    the width of the time fields; it is 0 exactly when there is no record, the
    record is revoked or the schedule has ended, and otherwise it is the time
    left to the end, [startTime + vestingDuration - now]. *)
Theorem remaining_time_counts_down_to_the_end :
  (forall l now,
     startTime l + vestingDuration l <= UINT64_MAX ->
     exists rem,
       Single.getRemainingVestingTime l now = Ok rem /\
       (rem = 0 <->
        totalAmount l = 0 \/ revoked l = true \/
        startTime l + vestingDuration l <= now) /\
       (rem <> 0 -> 0 < rem /\ now + rem = startTime l + vestingDuration l)) /\
  (forall (lk : gmap Z LockupInfo) b now,
     let l := PerAddress.lockup_at lk b in
     startTime l + vestingDuration l <= UINT256_MAX ->
     exists rem,
       PerAddress.getRemainingVestingTime lk b now = Ok rem /\
       (rem = 0 <->
        totalAmount l = 0 \/ revoked l = true \/
        startTime l + vestingDuration l <= now) /\
       (rem <> 0 -> 0 < rem /\ now + rem = startTime l + vestingDuration l)).
Proof.
  split.
  - intros l now Hfits.
    destruct (single_getRemainingVestingTime_returns l now Hfits) as [rem Hrem].
    exists rem. split; [exact Hrem |].
    apply single_getRemainingVestingTime_inv. exact Hrem.
  - intros lk b now l Hfits.
    destruct (peraddress_getRemainingVestingTime_returns lk b now Hfits) as [rem Hrem].
    exists rem. split; [exact Hrem |].
    apply (peraddress_getRemainingVestingTime_inv lk b now rem). exact Hrem.
Qed.

Lemma remaining_time_counts_down_to_the_end_witness :
  (exists rem,
     Single.getRemainingVestingTime small_lockup 1700000400 = Ok rem /\
     (rem <> 0 -> 0 < rem /\ 1700000400 + rem = 1700000000 + 1000)) /\
  (exists rem,
     PerAddress.getRemainingVestingTime (<[7 := small_lockup]> ∅) 7 1700000400 = Ok rem /\
     (rem <> 0 -> 0 < rem /\ 1700000400 + rem = 1700000000 + 1000)).
Proof.
  destruct remaining_time_counts_down_to_the_end as (Hs & Hp).
  split.
  - destruct (Hs small_lockup 1700000400) as (rem & Hrem & _ & Hleft).
    + cbn. unfold UINT64_MAX. lia.
    + exists rem. split; [exact Hrem | exact Hleft].
  - pose proof (Hp (<[7 := small_lockup]> ∅) 7 1700000400) as H.
    cbv zeta in H. rewrite lockup_at_insert_eq in H.
    destruct H as (rem & Hrem & _ & Hleft).
    + cbn. unfold UINT256_MAX. lia.
    + exists rem. split; [exact Hrem | exact Hleft].
Defined.

Lemma single_getVestingProgress_inv l now p :
  Single.getVestingProgress l now = Ok p -> p = progress_spec l now.
Proof.
  unfold Single.getVestingProgress, progress_spec.
  destruct (Z.eqb_spec (totalAmount l) 0); [congruence |].
  destruct (revoked l); [congruence |].
  intros Hp. apply bind_inv in Hp as (cliffEnd & Hc & Hp).
  apply checked_add_inv in Hc as [-> _].
  destruct (Z.ltb_spec now (startTime l + cliffDuration l)); [congruence |].
  apply bind_inv in Hp as (vestEnd & He & Hp).
  apply checked_add_inv in He as [-> _].
  destruct (Z.leb_spec (startTime l + vestingDuration l) now); [congruence |].
  apply bind_inv in Hp as (t & Ht & Hp).
  apply checked_sub_inv in Ht as [-> _].
  apply bind_inv in Hp as (scaled & Hs & Hp).
  apply checked_mul_inv in Hs as [-> _].
  apply checked_div_inv in Hp as [-> _]. reflexivity.
Qed.

Lemma peraddress_getVestingProgress_inv (lk : gmap Z LockupInfo) b now p :
  PerAddress.getVestingProgress lk b now = Ok p ->
  p = progress_spec (PerAddress.lockup_at lk b) now.
Proof.
  unfold PerAddress.getVestingProgress, progress_spec.
  set (l := PerAddress.lockup_at lk b).
  destruct (Z.eqb_spec (totalAmount l) 0); [congruence |].
  destruct (revoked l); [congruence |].
  intros Hp. apply bind_inv in Hp as (cliffEnd & Hc & Hp).
  apply checked_add_inv in Hc as [-> _].
  destruct (Z.ltb_spec now (startTime l + cliffDuration l)); [congruence |].
  apply bind_inv in Hp as (vestEnd & He & Hp).
  apply checked_add_inv in He as [-> _].
  destruct (Z.leb_spec (startTime l + vestingDuration l) now); [congruence |].
  apply bind_inv in Hp as (t & Ht & Hp).
  apply checked_sub_inv in Ht as [-> _].
  apply bind_inv in Hp as (scaled & Hs & Hp).
  apply checked_mul_inv in Hs as [-> _].
  apply checked_div_inv in Hp as [-> _]. reflexivity.
Qed.

(** The percentage of the schedule: between 0 and 100, and 100 only for a
    revoked record or from the end of the schedule on. *)
Lemma progress_spec_range l now :
  0 <= cliffDuration l ->
  0 <= progress_spec l now <= 100 /\
  (progress_spec l now = 100 <->
   totalAmount l <> 0 /\
   (revoked l = true \/
    (startTime l + cliffDuration l <= now /\ startTime l + vestingDuration l <= now))).
Proof.
  intros Hcliff. unfold progress_spec.
  destruct (Z.eqb_spec (totalAmount l) 0); [split; [lia | split; [lia | tauto]] |].
  destruct (revoked l); [split; [lia | tauto] |].
  destruct (Z.ltb_spec now (startTime l + cliffDuration l)).
  { split; [lia |]. split; [lia |]. intros (_ & [Hc | Hc]); [discriminate | lia]. }
  destruct (Z.leb_spec (startTime l + vestingDuration l) now).
  { split; [lia |]. split; [| reflexivity]. intros _. split; [assumption |]. right. lia. }
  assert (Hlo : 0 <= (now - startTime l) * 100 / vestingDuration l)
    by (apply Z.div_pos; lia).
  assert (Hhi : (now - startTime l) * 100 / vestingDuration l < 100)
    by (apply Z.div_lt_upper_bound; lia).
  split; [lia |]. split; [lia |].
  intros (_ & [Hc | Hc]); [discriminate | lia].
Qed.

Lemma progress_spec_mono l t1 t2 :
  0 <= cliffDuration l -> revoked l = false -> t1 <= t2 ->
  progress_spec l t1 <= progress_spec l t2.
Proof.
  intros Hcliff Hrev Ht.
  pose proof (progress_spec_range l t2 Hcliff) as [Hb2 _].
  pose proof (progress_spec_range l t1 Hcliff) as [Hb1 _].
  unfold progress_spec in *. rewrite Hrev in *.
  destruct (Z.eqb_spec (totalAmount l) 0); [lia |].
  destruct (Z.ltb_spec t1 (startTime l + cliffDuration l)); [lia |].
  destruct (Z.ltb_spec t2 (startTime l + cliffDuration l)); [lia |].
  destruct (Z.leb_spec (startTime l + vestingDuration l) t1);
    destruct (Z.leb_spec (startTime l + vestingDuration l) t2); try lia.
  apply Z.div_le_mono; lia.
Qed.

(** X3.  Whatever [getVestingProgress] returns lies between 0 and 100; it is 100
    only for an existing record that is revoked or whose schedule has ended, so
    in the linear part it is at most 99; and for a record that is not revoked
    it does not decrease with time. *)
Theorem progress_is_a_percentage :
  (forall l now p,
     0 <= cliffDuration l -> Single.getVestingProgress l now = Ok p ->
     0 <= p <= 100 /\
     (p = 100 ->
      totalAmount l <> 0 /\
      (revoked l = true \/ startTime l + vestingDuration l <= now))) /\
  (forall l t1 t2 p1 p2,
     0 <= cliffDuration l -> revoked l = false -> t1 <= t2 ->
     Single.getVestingProgress l t1 = Ok p1 ->
     Single.getVestingProgress l t2 = Ok p2 -> p1 <= p2) /\
  (forall (lk : gmap Z LockupInfo) b now p,
     let l := PerAddress.lockup_at lk b in
     0 <= cliffDuration l -> PerAddress.getVestingProgress lk b now = Ok p ->
     0 <= p <= 100 /\
     (p = 100 ->
      totalAmount l <> 0 /\
      (revoked l = true \/ startTime l + vestingDuration l <= now))) /\
  (forall (lk : gmap Z LockupInfo) b t1 t2 p1 p2,
     let l := PerAddress.lockup_at lk b in
     0 <= cliffDuration l -> revoked l = false -> t1 <= t2 ->
     PerAddress.getVestingProgress lk b t1 = Ok p1 ->
     PerAddress.getVestingProgress lk b t2 = Ok p2 -> p1 <= p2).
Proof.
  split; [| split; [| split]].
  - intros l now p Hcliff Hp. apply single_getVestingProgress_inv in Hp as ->.
    destruct (progress_spec_range l now Hcliff) as [Hb Hfull].
    split; [exact Hb |]. intros H100. apply Hfull in H100 as (Htot & Hwhy).
    split; [exact Htot |]. tauto.
  - intros l t1 t2 p1 p2 Hcliff Hrev Ht Hp1 Hp2.
    apply single_getVestingProgress_inv in Hp1 as ->.
    apply single_getVestingProgress_inv in Hp2 as ->.
    apply progress_spec_mono; assumption.
  - intros lk b now p l Hcliff Hp. apply peraddress_getVestingProgress_inv in Hp as ->.
    fold l. destruct (progress_spec_range l now Hcliff) as [Hb Hfull].
    split; [exact Hb |]. intros H100. apply Hfull in H100 as (Htot & Hwhy).
    split; [exact Htot |]. tauto.
  - intros lk b t1 t2 p1 p2 l Hcliff Hrev Ht Hp1 Hp2.
    apply peraddress_getVestingProgress_inv in Hp1 as ->.
    apply peraddress_getVestingProgress_inv in Hp2 as ->.
    apply progress_spec_mono; assumption.
Qed.

Lemma progress_is_a_percentage_witness :
  (Single.getVestingProgress small_lockup 1700000250 = Ok 25 /\
   Single.getVestingProgress small_lockup 1700000750 = Ok 75 /\
   0 <= 25 <= 100 /\ 25 <= 75) /\
  (PerAddress.getVestingProgress (<[7 := small_lockup]> ∅) 7 1700000250 = Ok 25 /\
   PerAddress.getVestingProgress (<[7 := small_lockup]> ∅) 7 1700000750 = Ok 75 /\
   0 <= 25 <= 100 /\ 25 <= 75).
Proof.
  destruct progress_is_a_percentage as (Hs & Hsm & Hp & Hpm).
  split.
  - split; [reflexivity |]. split; [reflexivity |]. split.
    + apply (Hs small_lockup 1700000250 25); [cbn; lia | reflexivity].
    + apply (Hsm small_lockup 1700000250 1700000750 25 75);
        [cbn; lia | reflexivity | lia | reflexivity | reflexivity].
  - split; [reflexivity |]. split; [reflexivity |]. split.
    + pose proof (Hp (<[7 := small_lockup]> ∅) 7 1700000250 25) as H.
      cbv zeta in H. rewrite lockup_at_insert_eq in H.
      apply H; [cbn; lia | reflexivity].
    + pose proof (Hpm (<[7 := small_lockup]> ∅) 7 1700000250 1700000750 25 75) as H.
      cbv zeta in H. rewrite lockup_at_insert_eq in H.
      apply H; [cbn; lia | reflexivity | lia | reflexivity | reflexivity].
Defined.

(** ** The three views agree on the end of the schedule *)

Lemma vested_spec_full l now :
  0 < totalAmount l -> revoked l = false ->
  0 <= cliffDuration l <= vestingDuration l ->
  (vested_spec l now = totalAmount l <-> startTime l + vestingDuration l <= now).
Proof.
  intros Htot Hrev Hcv. unfold vested_spec. rewrite Hrev.
  destruct (Z.eqb_spec (totalAmount l) 0); [lia |].
  destruct (Z.ltb_spec now (startTime l + cliffDuration l)); [lia |].
  destruct (Z.leb_spec (startTime l + vestingDuration l) now); [tauto |].
  pose proof (linear_lt_total (totalAmount l) (now - startTime l) (vestingDuration l)).
  lia.
Qed.

(** X4.  For an existing record that is not revoked, [vestedAmount] is the total,
    [getVestingProgress] is 100 and [getRemainingVestingTime] is 0 at exactly
    the same times: from [startTime + vestingDuration] on. *)
Theorem views_agree_on_the_end_of_the_schedule :
  (forall l now,
     Single.well_typed l -> Single.schedule_fits l ->
     totalAmount l <> 0 -> revoked l = false ->
     cliffDuration l <= vestingDuration l -> 0 <= now <= UINT256_MAX ->
     let ended := startTime l + vestingDuration l <= now in
     (Single._vestedAmount l now = Ok (totalAmount l) <-> ended) /\
     (Single.getVestingProgress l now = Ok 100 <-> ended) /\
     (Single.getRemainingVestingTime l now = Ok 0 <-> ended)) /\
  (forall (lk : gmap Z LockupInfo) b now,
     let l := PerAddress.lockup_at lk b in
     PerAddress.well_typed l -> PerAddress.schedule_fits l ->
     totalAmount l <> 0 -> revoked l = false ->
     cliffDuration l <= vestingDuration l <= MAX_VESTING_DURATION -> 0 <= now ->
     let ended := startTime l + vestingDuration l <= now in
     (PerAddress._vestedAmount lk b now = Ok (totalAmount l) <-> ended) /\
     (PerAddress.getVestingProgress lk b now = Ok 100 <-> ended) /\
     (PerAddress.getRemainingVestingTime lk b now = Ok 0 <-> ended)).
Proof.
  split.
  - intros l now Htyped Hfits Htot Hrev Hcv Hnow ended. subst ended.
    assert (Hpos : 0 < totalAmount l) by (widths; lia).
    assert (Hcliff : 0 <= cliffDuration l) by (widths; lia).
    split; [| split].
    + rewrite single_vestedAmount_spec by assumption.
      rewrite <- (vested_spec_full l now) by (auto; lia).
      split; [intros H; inversion H; reflexivity | intros ->; reflexivity].
    + rewrite single_getVestingProgress_spec by assumption.
      destruct (progress_spec_range l now Hcliff) as [_ Hfull].
      split.
      * intros H. inversion H as [H100]. apply Hfull in H100 as (_ & [Hc | Hc]);
          [congruence | lia].
      * intros Hend. f_equal. apply Hfull. split; [exact Htot |]. right. lia.
    + destruct (single_getRemainingVestingTime_returns l now) as [rem Hrem];
        [widths; lia |].
      destruct (single_getRemainingVestingTime_inv l now rem Hrem) as [Hzero _].
      rewrite Hrem. split.
      * intros H. inversion H as [H0]. apply Hzero in H0 as [Hc | [Hc | Hc]];
          [contradiction | congruence | exact Hc].
      * intros Hend. f_equal. apply Hzero. tauto.
  - intros lk b now l Htyped Hfits Htot Hrev Hcv Hnow ended. subst ended.
    assert (Hpos : 0 < totalAmount l) by (widths; lia).
    assert (Hcliff : 0 <= cliffDuration l) by (widths; lia).
    split; [| split].
    + split.
      * intros Hv. apply peraddress_vestedAmount_inv in Hv. fold l in Hv.
        apply (vested_spec_full l now); auto; lia.
      * intros Hend.
        rewrite peraddress_vestedAmount_spec; fold l; auto; [| lia].
        f_equal. apply vested_spec_full; auto; lia.
    + rewrite peraddress_getVestingProgress_spec; fold l; auto; [| lia].
      destruct (progress_spec_range l now Hcliff) as [_ Hfull].
      split.
      * intros H. inversion H as [H100]. apply Hfull in H100 as (_ & [Hc | Hc]);
          [congruence | lia].
      * intros Hend. f_equal. apply Hfull. split; [exact Htot |]. right. lia.
    + destruct (peraddress_getRemainingVestingTime_returns lk b now) as [rem Hrem];
        [fold l; widths; lia |].
      destruct (peraddress_getRemainingVestingTime_inv lk b now rem Hrem) as [Hzero _].
      fold l in Hzero. rewrite Hrem. split.
      * intros H. inversion H as [H0]. apply Hzero in H0 as [Hc | [Hc | Hc]];
          [contradiction | congruence | exact Hc].
      * intros Hend. f_equal. apply Hzero. tauto.
Qed.

Lemma views_agree_on_the_end_of_the_schedule_witness :
  (Single._vestedAmount small_lockup 1700001000 = Ok 1000 <->
   1700000000 + 1000 <= 1700001000) /\
  (PerAddress.getRemainingVestingTime (<[7 := small_lockup]> ∅) 7 1700000999 = Ok 0 <->
   1700000000 + 1000 <= 1700000999).
Proof.
  destruct views_agree_on_the_end_of_the_schedule as (Hs & Hp).
  split.
  - destruct (Hs small_lockup 1700001000) as (Hv & _ & _);
      [concrete | concrete | concrete | reflexivity | concrete | concrete | exact Hv].
  - pose proof (Hp (<[7 := small_lockup]> ∅) 7 1700000999) as H.
    cbv zeta in H. rewrite lockup_at_insert_eq in H.
    destruct H as (_ & _ & Hr);
      [concrete | concrete | concrete | reflexivity | concrete | concrete | exact Hr].
Defined.

(** ** [createLockup]: when it goes through, and the deposit checks *)

Lemma single_createLockup_ok c m tok b_ amount cliff vesting rev :
  Single.owner c = msg_sender m -> Single.entered c = false ->
  Single.beneficiary c = 0 -> amount <> 0 -> vesting <> 0 ->
  cliff < vesting <= MAX_VESTING_DURATION ->
  b_ <> 0 -> b_ <> Single.this c ->
  amount <= balanceOf_sender tok -> amount <= allowance_sender tok ->
  transfer_ok tok = true ->
  balanceOf_this_before tok <= balanceOf_this_after tok ->
  amount <= balanceOf_this_after tok - balanceOf_this_before tok ->
  Single.createLockup c m tok b_ amount cliff vesting rev =
    mkTx [SafeTransferFrom (msg_sender m) (Single.this c) amount;
          TokensLocked b_ amount (block_timestamp m mod (UINT64_MAX + 1)) cliff vesting rev]
      (Ok (Single.with_lockup c b_ {|
             totalAmount := amount;
             releasedAmount := 0;
             startTime := block_timestamp m mod (UINT64_MAX + 1);
             cliffDuration := cliff;
             vestingDuration := vesting;
             revocable := rev;
             revoked := false;
             vestedAtRevoke := 0 |})).
Proof.
  intros Hown Hent Hben Ha Hv Hcv Hb Hself Hbal Hallow Hok Hgrow Hrecv.
  unfold Single.createLockup, Single.nonReentrant, Single.onlyOwner.
  open_single c. subst.
  rewrite lift_bind, Z.eqb_refl. cbn [revert_if negb].
  rewrite bind_mret, lift_bind. cbn [revert_if].
  rewrite lift_bind. cbn [Z.eqb revert_if negb].
  rewrite lift_bind. destruct (Z.eqb_spec amount 0); [contradiction |]. cbn [revert_if].
  rewrite lift_bind. destruct (Z.eqb_spec vesting 0); [contradiction |]. cbn [revert_if].
  rewrite lift_bind. destruct (Z.leb_spec vesting cliff); [lia |]. cbn [revert_if].
  rewrite lift_bind. destruct (Z.ltb_spec MAX_VESTING_DURATION vesting); [lia |].
  cbn [revert_if].
  rewrite lift_bind. destruct (Z.eqb_spec b_ 0); [contradiction |]. cbn [revert_if].
  rewrite lift_bind. destruct (Z.eqb_spec b_ s); [contradiction |]. cbn [revert_if].
  rewrite lift_bind. destruct (Z.ltb_spec (balanceOf_sender tok) amount); [lia |].
  cbn [revert_if].
  rewrite lift_bind. destruct (Z.ltb_spec (allowance_sender tok) amount); [lia |].
  cbn [revert_if].
  rewrite Hok. reduce.
  rewrite checked_sub_ok by lia. reduce.
  destruct (Z.ltb_spec (balanceOf_this_after tok - balanceOf_this_before tok) amount);
    [lia |].
  reflexivity.
Qed.

Lemma single_createLockup_short_deposit c m tok b_ amount cliff vesting rev :
  Single.owner c = msg_sender m -> Single.entered c = false ->
  Single.beneficiary c = 0 -> amount <> 0 -> vesting <> 0 ->
  cliff < vesting <= MAX_VESTING_DURATION ->
  b_ <> 0 -> b_ <> Single.this c ->
  amount <= balanceOf_sender tok -> amount <= allowance_sender tok ->
  transfer_ok tok = true ->
  balanceOf_this_before tok <= balanceOf_this_after tok ->
  balanceOf_this_after tok - balanceOf_this_before tok < amount ->
  Single.createLockup c m tok b_ amount cliff vesting rev =
    mkTx [SafeTransferFrom (msg_sender m) (Single.this c) amount]
      (Revert (InsufficientTokensReceived
                 (balanceOf_this_after tok - balanceOf_this_before tok) amount)).
Proof.
  intros Hown Hent Hben Ha Hv Hcv Hb Hself Hbal Hallow Hok Hgrow Hshort.
  unfold Single.createLockup, Single.nonReentrant, Single.onlyOwner.
  open_single c. subst.
  rewrite lift_bind, Z.eqb_refl. cbn [revert_if negb].
  rewrite bind_mret, lift_bind. cbn [revert_if].
  rewrite lift_bind. cbn [Z.eqb revert_if negb].
  rewrite lift_bind. destruct (Z.eqb_spec amount 0); [contradiction |]. cbn [revert_if].
  rewrite lift_bind. destruct (Z.eqb_spec vesting 0); [contradiction |]. cbn [revert_if].
  rewrite lift_bind. destruct (Z.leb_spec vesting cliff); [lia |]. cbn [revert_if].
  rewrite lift_bind. destruct (Z.ltb_spec MAX_VESTING_DURATION vesting); [lia |].
  cbn [revert_if].
  rewrite lift_bind. destruct (Z.eqb_spec b_ 0); [contradiction |]. cbn [revert_if].
  rewrite lift_bind. destruct (Z.eqb_spec b_ s); [contradiction |]. cbn [revert_if].
  rewrite lift_bind. destruct (Z.ltb_spec (balanceOf_sender tok) amount); [lia |].
  cbn [revert_if].
  rewrite lift_bind. destruct (Z.ltb_spec (allowance_sender tok) amount); [lia |].
  cbn [revert_if].
  rewrite Hok. reduce.
  rewrite checked_sub_ok by lia. reduce.
  destruct (Z.ltb_spec (balanceOf_this_after tok - balanceOf_this_before tok) amount);
    [| lia].
  reflexivity.
Qed.

Lemma single_createLockup_InsufficientBalance c m tok b_ amount cliff vesting rev :
  Single.owner c = msg_sender m -> Single.entered c = false ->
  Single.beneficiary c = 0 -> amount <> 0 -> vesting <> 0 ->
  cliff < vesting <= MAX_VESTING_DURATION ->
  b_ <> 0 -> b_ <> Single.this c ->
  balanceOf_sender tok < amount ->
  Single.createLockup c m tok b_ amount cliff vesting rev
    = mkTx [] (Revert InsufficientBalance).
Proof.
  intros Hown Hent Hben Ha Hv Hcv Hb Hself Hbal.
  unfold Single.createLockup, Single.nonReentrant, Single.onlyOwner.
  open_single c. subst.
  rewrite lift_bind, Z.eqb_refl. cbn [revert_if negb].
  rewrite bind_mret, lift_bind. cbn [revert_if].
  rewrite lift_bind. cbn [Z.eqb revert_if negb].
  rewrite lift_bind. destruct (Z.eqb_spec amount 0); [contradiction |]. cbn [revert_if].
  rewrite lift_bind. destruct (Z.eqb_spec vesting 0); [contradiction |]. cbn [revert_if].
  rewrite lift_bind. destruct (Z.leb_spec vesting cliff); [lia |]. cbn [revert_if].
  rewrite lift_bind. destruct (Z.ltb_spec MAX_VESTING_DURATION vesting); [lia |].
  cbn [revert_if].
  rewrite lift_bind. destruct (Z.eqb_spec b_ 0); [contradiction |]. cbn [revert_if].
  rewrite lift_bind. destruct (Z.eqb_spec b_ s); [contradiction |]. cbn [revert_if].
  rewrite lift_bind. destruct (Z.ltb_spec (balanceOf_sender tok) amount); [| lia].
  reflexivity.
Qed.

Lemma single_createLockup_InsufficientAllowance c m tok b_ amount cliff vesting rev :
  Single.owner c = msg_sender m -> Single.entered c = false ->
  Single.beneficiary c = 0 -> amount <> 0 -> vesting <> 0 ->
  cliff < vesting <= MAX_VESTING_DURATION ->
  b_ <> 0 -> b_ <> Single.this c ->
  amount <= balanceOf_sender tok -> allowance_sender tok < amount ->
  Single.createLockup c m tok b_ amount cliff vesting rev
    = mkTx [] (Revert InsufficientAllowance).
Proof.
  intros Hown Hent Hben Ha Hv Hcv Hb Hself Hbal Hallow.
  unfold Single.createLockup, Single.nonReentrant, Single.onlyOwner.
  open_single c. subst.
  rewrite lift_bind, Z.eqb_refl. cbn [revert_if negb].
  rewrite bind_mret, lift_bind. cbn [revert_if].
  rewrite lift_bind. cbn [Z.eqb revert_if negb].
  rewrite lift_bind. destruct (Z.eqb_spec amount 0); [contradiction |]. cbn [revert_if].
  rewrite lift_bind. destruct (Z.eqb_spec vesting 0); [contradiction |]. cbn [revert_if].
  rewrite lift_bind. destruct (Z.leb_spec vesting cliff); [lia |]. cbn [revert_if].
  rewrite lift_bind. destruct (Z.ltb_spec MAX_VESTING_DURATION vesting); [lia |].
  cbn [revert_if].
  rewrite lift_bind. destruct (Z.eqb_spec b_ 0); [contradiction |]. cbn [revert_if].
  rewrite lift_bind. destruct (Z.eqb_spec b_ s); [contradiction |]. cbn [revert_if].
  rewrite lift_bind. destruct (Z.ltb_spec (balanceOf_sender tok) amount); [lia |].
  cbn [revert_if].
  rewrite lift_bind. destruct (Z.ltb_spec (allowance_sender tok) amount); [| lia].
  reflexivity.
Qed.

Lemma peraddress_createLockup_ok c m tok b amount cliff vesting rev :
  PerAddress.owner c = msg_sender m -> PerAddress.entered c = false ->
  b <> 0 -> b <> PerAddress.this c -> amount <> 0 -> vesting <> 0 ->
  cliff <= vesting <= MAX_VESTING_DURATION ->
  totalAmount (PerAddress.lockup_at (PerAddress.lockups c) b) = 0 ->
  transfer_ok tok = true ->
  PerAddress.createLockup c m tok b amount cliff vesting rev =
    mkTx [SafeTransferFrom (msg_sender m) (PerAddress.this c) amount;
          TokensLocked b amount (block_timestamp m) cliff vesting rev]
      (Ok (PerAddress.with_lockups c (<[b := {|
             totalAmount := amount;
             releasedAmount := 0;
             startTime := block_timestamp m;
             cliffDuration := cliff;
             vestingDuration := vesting;
             revocable := rev;
             revoked := false;
             vestedAtRevoke := 0 |}]> (PerAddress.lockups c)))).
Proof.
  intros Hown Hent Hb Hself Hamount Hv Hcv Hfree Hok.
  unfold PerAddress.createLockup, PerAddress.nonReentrant, PerAddress.onlyOwner.
  open_per c. subst o e.
  rewrite lift_bind, Z.eqb_refl. cbn [revert_if negb].
  rewrite bind_mret, lift_bind. cbn [revert_if].
  rewrite lift_bind. destruct (Z.eqb_spec b 0); [contradiction |]. cbn [revert_if].
  rewrite lift_bind. destruct (Z.eqb_spec b s); [contradiction |]. cbn [revert_if].
  rewrite lift_bind. destruct (Z.eqb_spec amount 0); [contradiction |]. cbn [revert_if].
  rewrite lift_bind. destruct (Z.eqb_spec vesting 0); [contradiction |]. cbn [revert_if].
  rewrite lift_bind. destruct (Z.ltb_spec MAX_VESTING_DURATION vesting); [lia |].
  cbn [revert_if].
  rewrite lift_bind. destruct (Z.ltb_spec vesting cliff); [lia |]. cbn [revert_if].
  rewrite lift_bind, Hfree. cbn [Z.eqb revert_if negb].
  rewrite Hok. reflexivity.
Qed.

(** X5.  [createLockup] goes through exactly when every check of the function
    passes and the token carries the transfer out: in [Single] that includes
    the owner's balance and allowance and a balance of the contract that grew by
    at least [amount]; in [PerAddress] the cliff may be as long as the vesting
    and what the contract received is not looked at. *)
Theorem createLockup_goes_through_exactly_when :
  (forall c m tok b_ amount cliff vesting rev,
     0 <= amount ->
     (exists c',
        outcome (Single.createLockup c m tok b_ amount cliff vesting rev) = Ok c') <->
     (Single.owner c = msg_sender m /\ Single.entered c = false /\
      Single.beneficiary c = 0 /\ amount <> 0 /\ vesting <> 0 /\
      cliff < vesting <= MAX_VESTING_DURATION /\
      b_ <> 0 /\ b_ <> Single.this c /\
      amount <= balanceOf_sender tok /\ amount <= allowance_sender tok /\
      transfer_ok tok = true /\
      amount <= balanceOf_this_after tok - balanceOf_this_before tok)) /\
  (forall c m tok b amount cliff vesting rev,
     (exists c',
        outcome (PerAddress.createLockup c m tok b amount cliff vesting rev) = Ok c') <->
     (PerAddress.owner c = msg_sender m /\ PerAddress.entered c = false /\
      b <> 0 /\ b <> PerAddress.this c /\ amount <> 0 /\ vesting <> 0 /\
      cliff <= vesting <= MAX_VESTING_DURATION /\
      totalAmount (PerAddress.lockup_at (PerAddress.lockups c) b) = 0 /\
      transfer_ok tok = true)).
Proof.
  split.
  - intros c m tok b_ amount cliff vesting rev Hamount. split.
    + intros [c' Hok]. apply single_createLockup_inv in Hok. tauto.
    + intros (Hown & Hent & Hben & Ha & Hv & Hcv & Hb & Hself & Hbal & Hallow & Hok
              & Hrecv).
      eexists. rewrite single_createLockup_ok by (auto; lia). reflexivity.
  - intros c m tok b amount cliff vesting rev. split.
    + intros [c' Hok]. apply peraddress_createLockup_inv in Hok. tauto.
    + intros (Hown & Hent & Hb & Hself & Ha & Hv & Hcv & Hfree & Hok).
      eexists. rewrite peraddress_createLockup_ok by auto. reflexivity.
Qed.

Lemma createLockup_goes_through_exactly_when_witness :
  exists c',
    outcome (Single.createLockup (Single.deployed 1 2) (at_time 1 1700000000)
               sample_token 7 1000 0 1000 true) = Ok c'.
Proof.
  destruct createLockup_goes_through_exactly_when as (Hs & _).
  apply (Hs (Single.deployed 1 2) (at_time 1 1700000000) sample_token 7 1000 0 1000 true).
  - lia.
  - cbn. unfold MAX_VESTING_DURATION, UINT256_MAX. repeat split; try lia; reflexivity.
Defined.

(** X6.  [Single.createLockup], once its parameters are accepted: an owner short
    of balance or of allowance is refused before the token is asked for
    anything; when the contract's balance grew by less than [amount] the call
    is undone with [InsufficientTokensReceived(received, amount)] after the
    transfer was asked, and the contract is as it was. *)
Theorem createLockup_checks_the_deposit :
  forall c m tok b_ amount cliff vesting rev,
    Single.owner c = msg_sender m -> Single.entered c = false ->
    Single.beneficiary c = 0 -> amount <> 0 -> vesting <> 0 ->
    cliff < vesting <= MAX_VESTING_DURATION ->
    b_ <> 0 -> b_ <> Single.this c ->
    let call := Single.createLockup c m tok b_ amount cliff vesting rev in
    let received := balanceOf_this_after tok - balanceOf_this_before tok in
    (balanceOf_sender tok < amount -> call = mkTx [] (Revert InsufficientBalance)) /\
    (amount <= balanceOf_sender tok -> allowance_sender tok < amount ->
     call = mkTx [] (Revert InsufficientAllowance)) /\
    (amount <= balanceOf_sender tok -> amount <= allowance_sender tok ->
     transfer_ok tok = true -> 0 <= received < amount ->
     call = mkTx [SafeTransferFrom (msg_sender m) (Single.this c) amount]
              (Revert (InsufficientTokensReceived received amount)) /\
     Single.step c m tok (Single.CreateLockup b_ amount cliff vesting rev) = c).
Proof.
  intros c m tok b_ amount cliff vesting rev Hown Hent Hben Ha Hv Hcv Hb Hself
    call received.
  subst call received. split; [| split].
  - intros Hbal. apply single_createLockup_InsufficientBalance; assumption.
  - intros Hbal Hallow. apply single_createLockup_InsufficientAllowance; assumption.
  - intros Hbal Hallow Hok Hshort.
    assert (Hcall : Single.createLockup c m tok b_ amount cliff vesting rev =
              mkTx [SafeTransferFrom (msg_sender m) (Single.this c) amount]
                (Revert (InsufficientTokensReceived
                   (balanceOf_this_after tok - balanceOf_this_before tok) amount)))
      by (apply single_createLockup_short_deposit; auto; lia).
    split; [exact Hcall |].
    unfold Single.step. cbn [Single.exec]. rewrite Hcall. reflexivity.
Qed.

(** A token that takes a fee of 1 percent on the transfer. *)
Lemma createLockup_checks_the_deposit_witness :
  let fee_token := {| balanceOf_sender := 5000; allowance_sender := 5000;
                      balanceOf_this_before := 0; balanceOf_this_after := 990;
                      transfer_ok := true |} in
  Single.createLockup (Single.deployed 1 2) (at_time 1 1700000000) fee_token
    7 1000 0 1000 true
  = mkTx [SafeTransferFrom 1 2 1000] (Revert (InsufficientTokensReceived 990 1000)).
Proof.
  intros fee_token.
  destruct (createLockup_checks_the_deposit (Single.deployed 1 2)
              (at_time 1 1700000000) fee_token 7 1000 0 1000 true)
    as (_ & _ & Hshort);
    [reflexivity | reflexivity | reflexivity | lia | lia
    | unfold MAX_VESTING_DURATION; lia | lia | cbn; lia | ].
  destruct Hshort as (Hcall & _);
    [cbn; lia | cbn; lia | reflexivity | cbn; lia | exact Hcall].
Defined.

(** ** A lockup is created once, and its schedule never changes *)

Lemma single_run_keeps (P : Single.Contract -> Prop) :
  (forall c m tok call, P c -> P (Single.step c m tok call)) ->
  forall calls c, P c -> P (Single.run c calls).
Proof.
  intros Hstep calls. induction calls as [| [[m tok] call] rest IH]; intros c Hc; cbn.
  - exact Hc.
  - apply IH. apply Hstep. exact Hc.
Qed.

Lemma peraddress_run_keeps (P : PerAddress.Contract -> Prop) :
  (forall c m tok call, P c -> P (PerAddress.step c m tok call)) ->
  forall calls c, P c -> P (PerAddress.run c calls).
Proof.
  intros Hstep calls. induction calls as [| [[m tok] call] rest IH]; intros c Hc; cbn.
  - exact Hc.
  - apply IH. apply Hstep. exact Hc.
Qed.

(** What no call changes: the owner, the address of the contract, and the
    released guard. *)
Lemma single_step_frame c m tok call :
  Single.owner (Single.step c m tok call) = Single.owner c /\
  Single.this (Single.step c m tok call) = Single.this c /\
  (Single.entered c = false -> Single.entered (Single.step c m tok call) = false).
Proof.
  unfold Single.step.
  destruct (outcome (Single.exec c m tok call)) as [c' | err] eqn:Hexec; [| auto].
  destruct call as [b_ amount cliff vesting rev | |]; cbn [Single.exec] in Hexec.
  - apply single_createLockup_inv in Hexec
      as (_ & Hent & _ & _ & _ & _ & _ & _ & _ & _ & _ & _ & -> & _). auto.
  - apply single_release_inv in Hexec as (Hent & _ & _ & _ & r & _ & _ & _ & -> & _).
    auto.
  - apply single_revoke_inv in Hexec as (_ & Hent & _ & _ & _ & _ & v & _ & _ & -> & _).
    auto.
Qed.

Lemma peraddress_step_frame c m tok call :
  PerAddress.owner (PerAddress.step c m tok call) = PerAddress.owner c /\
  PerAddress.this (PerAddress.step c m tok call) = PerAddress.this c /\
  (PerAddress.entered c = false ->
   PerAddress.entered (PerAddress.step c m tok call) = false).
Proof.
  unfold PerAddress.step.
  destruct (outcome (PerAddress.exec c m tok call)) as [c' | err] eqn:Hexec; [| auto].
  destruct call as [b amount cliff vesting rev | | b]; cbn [PerAddress.exec] in Hexec.
  - apply peraddress_createLockup_inv in Hexec
      as (_ & Hent & _ & _ & _ & _ & _ & _ & _ & -> & _). auto.
  - apply peraddress_release_inv in Hexec as (Hent & _ & _ & r & _ & _ & _ & -> & _).
    auto.
  - apply peraddress_revoke_inv in Hexec as (_ & Hent & _ & _ & _ & v & _ & _ & _ & -> & _).
    auto.
Qed.

Lemma single_run_frame calls : forall c,
  Single.owner (Single.run c calls) = Single.owner c /\
  Single.this (Single.run c calls) = Single.this c /\
  (Single.entered c = false -> Single.entered (Single.run c calls) = false).
Proof.
  induction calls as [| [[m tok] call] rest IH]; intros c; cbn; [auto |].
  destruct (IH (Single.step c m tok call)) as (Ho & Ht & He).
  destruct (single_step_frame c m tok call) as (Ho' & Ht' & He').
  repeat split; try congruence. auto.
Qed.

Lemma peraddress_run_frame calls : forall c,
  PerAddress.owner (PerAddress.run c calls) = PerAddress.owner c /\
  PerAddress.this (PerAddress.run c calls) = PerAddress.this c /\
  (PerAddress.entered c = false -> PerAddress.entered (PerAddress.run c calls) = false).
Proof.
  induction calls as [| [[m tok] call] rest IH]; intros c; cbn; [auto |].
  destruct (IH (PerAddress.step c m tok call)) as (Ho & Ht & He).
  destruct (peraddress_step_frame c m tok call) as (Ho' & Ht' & He').
  repeat split; try congruence. auto.
Qed.











(** ** [revoke]: its refusals, at most once, never for a lockup that is not revocable *)

Lemma single_revoke_refusals c m tok :
  let l := Single.lockupInfo c in
  (totalAmount l = 0 \/ revoked l = true \/ revocable l = false ->
   rejected (Single.revoke c m tok)) /\
  (Single.owner c = msg_sender m -> Single.entered c = false ->
   (totalAmount l = 0 -> Single.revoke c m tok = mkTx [] (Revert NoLockupFound)) /\
   (totalAmount l <> 0 -> revoked l = true ->
    Single.revoke c m tok = mkTx [] (Revert AlreadyRevoked)) /\
   (totalAmount l <> 0 -> revoked l = false -> revocable l = false ->
    Single.revoke c m tok = mkTx [] (Revert NotRevocable))).
Proof.
  unfold Single.revoke, Single.nonReentrant, Single.onlyOwner.
  open_single c. cbv zeta. split.
  - intros Hwhy.
    refuse_with (Z.eqb_spec o (msg_sender m)).
    rewrite bind_mret.
    refuse_with e.
    refuse_with (Z.eqb_spec (totalAmount l) 0).
    rewrite lift_bind. destruct (revoked l); cbn [revert_if];
      [apply rejected_guarded |].
    rewrite lift_bind. destruct (revocable l); cbn [revert_if negb];
      [| apply rejected_guarded].
    destruct Hwhy as [Hc | [Hc | Hc]]; [contradiction | discriminate | discriminate].
  - intros -> ->.
    rewrite lift_bind, Z.eqb_refl. cbn [revert_if negb].
    rewrite bind_mret, lift_bind. cbn [revert_if].
    rewrite lift_bind. split; [| split].
    + intros ->. reflexivity.
    + intros Htot Hrev.
      destruct (Z.eqb_spec (totalAmount l) 0); [contradiction |]. cbn [revert_if].
      rewrite lift_bind, Hrev. reflexivity.
    + intros Htot Hrev Hable.
      destruct (Z.eqb_spec (totalAmount l) 0); [contradiction |]. cbn [revert_if].
      rewrite lift_bind, Hrev. cbn [revert_if].
      rewrite lift_bind, Hable. reflexivity.
Qed.

Lemma peraddress_revoke_refusals c m tok b :
  let l := PerAddress.lockup_at (PerAddress.lockups c) b in
  (totalAmount l = 0 \/ revoked l = true \/ revocable l = false ->
   rejected (PerAddress.revoke c m tok b)) /\
  (PerAddress.owner c = msg_sender m -> PerAddress.entered c = false ->
   (totalAmount l = 0 -> PerAddress.revoke c m tok b = mkTx [] (Revert NoLockupFound)) /\
   (totalAmount l <> 0 -> revoked l = true ->
    PerAddress.revoke c m tok b = mkTx [] (Revert AlreadyRevoked)) /\
   (totalAmount l <> 0 -> revoked l = false -> revocable l = false ->
    PerAddress.revoke c m tok b = mkTx [] (Revert NotRevocable))).
Proof.
  unfold PerAddress.revoke, PerAddress.nonReentrant, PerAddress.onlyOwner.
  open_per c. cbv zeta. set (l := PerAddress.lockup_at lk b). split.
  - intros Hwhy.
    refuse_with (Z.eqb_spec o (msg_sender m)).
    rewrite bind_mret.
    refuse_with e.
    refuse_with (Z.eqb_spec (totalAmount l) 0).
    rewrite lift_bind. destruct (revoked l); cbn [revert_if];
      [apply rejected_guarded |].
    rewrite lift_bind. destruct (revocable l); cbn [revert_if negb];
      [| apply rejected_guarded].
    destruct Hwhy as [Hc | [Hc | Hc]]; [contradiction | discriminate | discriminate].
  - intros -> ->.
    rewrite lift_bind, Z.eqb_refl. cbn [revert_if negb].
    rewrite bind_mret, lift_bind. cbn [revert_if].
    rewrite lift_bind. split; [| split].
    + intros ->. reflexivity.
    + intros Htot Hrev.
      destruct (Z.eqb_spec (totalAmount l) 0); [contradiction |]. cbn [revert_if].
      rewrite lift_bind, Hrev. reflexivity.
    + intros Htot Hrev Hable.
      destruct (Z.eqb_spec (totalAmount l) 0); [contradiction |]. cbn [revert_if].
      rewrite lift_bind, Hrev. cbn [revert_if].
      rewrite lift_bind, Hable. reflexivity.
Qed.

(** X8.  After a [revoke] that went through, whatever calls follow, every further
    [revoke] is refused before the token is asked for anything, the owner's
    with [AlreadyRevoked]: the refund is paid once. *)
Theorem revocation_happens_at_most_once :
  (forall c m tok c' calls m' tok',
     Single.reachable c -> outcome (Single.revoke c m tok) = Ok c' ->
     let c'' := Single.run c' calls in
     rejected (Single.revoke c'' m' tok') /\
     (msg_sender m' = Single.owner c ->
      Single.revoke c'' m' tok' = mkTx [] (Revert AlreadyRevoked))) /\
  (forall c m tok b c' calls m' tok',
     outcome (PerAddress.revoke c m tok b) = Ok c' ->
     let c'' := PerAddress.run c' calls in
     rejected (PerAddress.revoke c'' m' tok' b) /\
     (msg_sender m' = PerAddress.owner c ->
      PerAddress.revoke c'' m' tok' b = mkTx [] (Revert AlreadyRevoked))).
Proof.
  split.
  - intros c m tok c' calls m' tok' Hreach Hok c''. subst c''.
    apply single_reachable_inv in Hreach as (_ & _ & _ & _ & Hnone & _).
    apply single_revoke_inv in Hok
      as (_ & Hent & Htot & _ & _ & _ & v & _ & _ & -> & _).
    assert (Hben : Single.beneficiary c <> 0).
    { intros Hb. rewrite (Hnone Hb) in Htot. apply Htot. reflexivity. }
    set (c' := Single.with_lockup c _ _).
    assert (Hfrozen : single_frozen (vestedAtRevoke (Single.lockupInfo c')) c')
      by (repeat split; assumption).
    apply (single_frozen_run _ calls) in Hfrozen as (Hrev & Htot' & _ & _).
    destruct (single_run_frame calls c') as (Hown & _ & Hent').
    destruct (single_revoke_refusals (Single.run c' calls) m' tok') as (Hrej & Herr).
    split; [apply Hrej; auto |].
    intros Hsender. apply Herr; auto. rewrite Hown. subst c'. cbn. congruence.
  - intros c m tok b c' calls m' tok' Hok c''. subst c''.
    apply peraddress_revoke_inv in Hok
      as (_ & Hent & Htot & _ & _ & v & _ & _ & _ & -> & _).
    set (c' := PerAddress.with_lockups c _).
    assert (Hfrozen : peraddress_frozen b
              (vestedAtRevoke (PerAddress.lockup_at (PerAddress.lockups c') b)) c').
    { unfold peraddress_frozen. subst c'. cbn. rewrite lockup_at_insert_eq.
      repeat split; assumption. }
    apply (peraddress_frozen_run _ _ calls) in Hfrozen as (Hrev & Htot' & _).
    destruct (peraddress_run_frame calls c') as (Hown & _ & Hent').
    destruct (peraddress_revoke_refusals (PerAddress.run c' calls) m' tok' b)
      as (Hrej & Herr).
    split; [apply Hrej; auto |].
    intros Hsender. apply Herr; auto. rewrite Hown. subst c'. cbn. congruence.
Qed.

Lemma revocation_happens_at_most_once_witness :
  Single.revoke
    (Single.run
       (Single.step small_single (at_time 1 1700000500) sample_token Single.Revoke)
       [(at_time 7 1700000900, sample_token, Single.Release)])
    (at_time 1 1700000950) sample_token = mkTx [] (Revert AlreadyRevoked) /\
  PerAddress.revoke
    (PerAddress.run
       (PerAddress.step small_per_address (at_time 1 1700000500) sample_token
          (PerAddress.Revoke 7))
       [(at_time 7 1700000900, sample_token, PerAddress.Release)])
    (at_time 1 1700000950) sample_token 7 = mkTx [] (Revert AlreadyRevoked).
Proof.
  destruct revocation_happens_at_most_once as (Hs & Hp).
  split.
  - destruct (Hs small_single (at_time 1 1700000500) sample_token
                (Single.step small_single (at_time 1 1700000500) sample_token
                   Single.Revoke)
                [(at_time 7 1700000900, sample_token, Single.Release)]
                (at_time 1 1700000950) sample_token
                small_single_reachable eq_refl) as (_ & Herr).
    apply Herr. reflexivity.
  - destruct (Hp small_per_address (at_time 1 1700000500) sample_token 7
                (PerAddress.step small_per_address (at_time 1 1700000500) sample_token
                   (PerAddress.Revoke 7))
                [(at_time 7 1700000900, sample_token, PerAddress.Release)]
                (at_time 1 1700000950) sample_token eq_refl) as (_ & Herr).
    apply Herr. reflexivity.
Defined.

Lemma single_revoked_was_revocable c :
  Single.reachable c ->
  revoked (Single.lockupInfo c) = true -> revocable (Single.lockupInfo c) = true.
Proof.
  induction 1 as [deployer self | c m tok call _ IH _ _]; [discriminate |].
  unfold Single.step.
  destruct (outcome (Single.exec c m tok call)) as [c' | err] eqn:Hexec; [| exact IH].
  destruct call as [b_ amount cliff vesting rev | |]; cbn [Single.exec] in Hexec.
  - apply single_createLockup_inv in Hexec
      as (_ & _ & _ & _ & _ & _ & _ & _ & _ & _ & _ & _ & -> & _).
    discriminate.
  - apply single_release_inv in Hexec as (_ & _ & _ & _ & r & _ & _ & _ & -> & _).
    exact IH.
  - apply single_revoke_inv in Hexec as (_ & _ & _ & _ & Hable & _ & v & _ & _ & -> & _).
    intros _. exact Hable.
Qed.

Lemma peraddress_revoked_was_revocable c :
  PerAddress.reachable c ->
  forall b,
    revoked (PerAddress.lockup_at (PerAddress.lockups c) b) = true ->
    revocable (PerAddress.lockup_at (PerAddress.lockups c) b) = true.
Proof.
  induction 1 as [deployer self | c m tok call _ IH _ _]; intros b.
  { cbn. rewrite lockup_at_empty. discriminate. }
  unfold PerAddress.step.
  destruct (outcome (PerAddress.exec c m tok call)) as [c' | err] eqn:Hexec;
    [| apply IH].
  destruct call as [b0 amount cliff vesting rev | | b0]; cbn [PerAddress.exec] in Hexec.
  - apply peraddress_createLockup_inv in Hexec
      as (_ & _ & _ & _ & _ & _ & _ & _ & _ & -> & _).
    cbn. rewrite lockup_at_insert.
    destruct (decide (b0 = b)) as [_ | _]; [discriminate | apply IH].
  - apply peraddress_release_inv in Hexec as (_ & _ & _ & r & _ & _ & _ & -> & _).
    cbn. rewrite lockup_at_insert.
    destruct (decide (msg_sender m = b)) as [<- | _]; apply IH.
  - apply peraddress_revoke_inv in Hexec
      as (_ & _ & _ & _ & Hable & v & _ & _ & _ & -> & _).
    cbn. rewrite lockup_at_insert.
    destruct (decide (b0 = b)) as [-> | _]; [intros _; exact Hable | apply IH].
Qed.

Lemma single_not_revocable_step c m tok call :
  let keeps c :=
    Single.beneficiary c <> 0 /\ totalAmount (Single.lockupInfo c) <> 0 /\
    revocable (Single.lockupInfo c) = false /\ revoked (Single.lockupInfo c) = false in
  keeps c -> keeps (Single.step c m tok call).
Proof.
  intros keeps (Hben & Htot & Hable & Hrev). subst keeps. cbv beta. unfold Single.step.
  destruct (outcome (Single.exec c m tok call)) as [c' | err] eqn:Hexec; [| auto].
  destruct call as [b_ amount cliff vesting rev | |]; cbn [Single.exec] in Hexec.
  - apply single_createLockup_inv in Hexec as (_ & _ & Hb & _). contradiction.
  - apply single_release_inv in Hexec as (_ & _ & _ & _ & r & _ & _ & _ & -> & _).
    auto.
  - apply single_revoke_inv in Hexec as (_ & _ & _ & _ & Hc & _). congruence.
Qed.

Lemma peraddress_not_revocable_step b c m tok call :
  let keeps c :=
    let l := PerAddress.lockup_at (PerAddress.lockups c) b in
    totalAmount l <> 0 /\ revocable l = false /\ revoked l = false in
  keeps c -> keeps (PerAddress.step c m tok call).
Proof.
  intros keeps (Htot & Hable & Hrev). subst keeps. cbv beta zeta. unfold PerAddress.step.
  destruct (outcome (PerAddress.exec c m tok call)) as [c' | err] eqn:Hexec; [| auto].
  destruct call as [b0 amount cliff vesting rev | | b0]; cbn [PerAddress.exec] in Hexec.
  - apply peraddress_createLockup_inv in Hexec
      as (_ & _ & _ & _ & _ & _ & _ & Hfree & _ & -> & _).
    cbn. rewrite lockup_at_insert.
    destruct (decide (b0 = b)) as [-> | _]; [contradiction | auto].
  - apply peraddress_release_inv in Hexec as (_ & _ & _ & r & _ & _ & _ & -> & _).
    cbn. rewrite lockup_at_insert.
    destruct (decide (msg_sender m = b)) as [<- | _]; auto.
  - apply peraddress_revoke_inv in Hexec as (_ & _ & _ & _ & Hc & v & _ & _ & _ & -> & _).
    cbn. rewrite lockup_at_insert.
    destruct (decide (b0 = b)) as [-> | _]; [congruence | auto].
Qed.

(** X9.  A lockup created as not revocable is never revoked: whatever calls follow,
    [revoked] stays false and every [revoke] is refused before the token is asked
    for anything, the owner's with [NotRevocable]. *)
Theorem not_revocable_is_never_revoked :
  (forall c calls m tok,
     Single.reachable c ->
     totalAmount (Single.lockupInfo c) <> 0 ->
     revocable (Single.lockupInfo c) = false ->
     let c' := Single.run c calls in
     revoked (Single.lockupInfo c') = false /\
     rejected (Single.revoke c' m tok) /\
     (msg_sender m = Single.owner c ->
      Single.revoke c' m tok = mkTx [] (Revert NotRevocable))) /\
  (forall c calls m tok b,
     PerAddress.reachable c ->
     totalAmount (PerAddress.lockup_at (PerAddress.lockups c) b) <> 0 ->
     revocable (PerAddress.lockup_at (PerAddress.lockups c) b) = false ->
     let c' := PerAddress.run c calls in
     revoked (PerAddress.lockup_at (PerAddress.lockups c') b) = false /\
     rejected (PerAddress.revoke c' m tok b) /\
     (msg_sender m = PerAddress.owner c ->
      PerAddress.revoke c' m tok b = mkTx [] (Revert NotRevocable))).
Proof.
  split.
  - intros c calls m tok Hreach Htot Hable c'. subst c'.
    pose proof (single_revoked_was_revocable c Hreach) as Hwas.
    apply single_reachable_inv in Hreach as (Hent & _ & _ & _ & Hnone & _).
    assert (Hben : Single.beneficiary c <> 0).
    { intros Hb. rewrite (Hnone Hb) in Htot. apply Htot. reflexivity. }
    assert (Hrev : revoked (Single.lockupInfo c) = false).
    { destruct (revoked (Single.lockupInfo c)); [| reflexivity].
      rewrite Hwas in Hable by reflexivity. discriminate. }
    pose proof (single_run_keeps _
      (fun c m tok call => single_not_revocable_step c m tok call) calls c
      (conj Hben (conj Htot (conj Hable Hrev)))) as (_ & Htot' & Hable' & Hrev').
    destruct (single_run_frame calls c) as (Hown & _ & Hent').
    destruct (single_revoke_refusals (Single.run c calls) m tok) as (Hrej & Herr).
    split; [exact Hrev' |]. split; [apply Hrej; auto |].
    intros Hsender. apply Herr; auto. congruence.
  - intros c calls m tok b Hreach Htot Hable c'. subst c'.
    pose proof (peraddress_revoked_was_revocable c Hreach b) as Hwas.
    apply peraddress_reachable_inv in Hreach as (Hent & _).
    assert (Hrev : revoked (PerAddress.lockup_at (PerAddress.lockups c) b) = false).
    { destruct (revoked (PerAddress.lockup_at (PerAddress.lockups c) b));
        [| reflexivity].
      rewrite Hwas in Hable by reflexivity. discriminate. }
    pose proof (peraddress_run_keeps _
      (fun c m tok call => peraddress_not_revocable_step b c m tok call) calls c
      (conj Htot (conj Hable Hrev))) as (Htot' & Hable' & Hrev').
    destruct (peraddress_run_frame calls c) as (Hown & _ & Hent').
    destruct (peraddress_revoke_refusals (PerAddress.run c calls) m tok b)
      as (Hrej & Herr).
    split; [exact Hrev' |]. split; [apply Hrej; auto |].
    intros Hsender. apply Herr; auto. congruence.
Qed.

Lemma firm_single_reachable : Single.reachable firm_single.
Proof.
  unfold firm_single. apply Single.reachable_step.
  - apply Single.reachable_deployed.
  - concrete.
  - concrete.
Qed.

Lemma firm_per_address_reachable : PerAddress.reachable firm_per_address.
Proof.
  unfold firm_per_address. apply PerAddress.reachable_step.
  - apply PerAddress.reachable_deployed.
  - concrete.
  - concrete.
Qed.

Lemma not_revocable_is_never_revoked_witness :
  Single.revoke
    (Single.run firm_single [(at_time 7 1700000500, sample_token, Single.Release)])
    (at_time 1 1700000900) sample_token = mkTx [] (Revert NotRevocable) /\
  PerAddress.revoke
    (PerAddress.run firm_per_address
       [(at_time 7 1700000500, sample_token, PerAddress.Release)])
    (at_time 1 1700000900) sample_token 7 = mkTx [] (Revert NotRevocable).
Proof.
  destruct not_revocable_is_never_revoked as (Hs & Hp).
  split.
  - destruct (Hs firm_single [(at_time 7 1700000500, sample_token, Single.Release)]
                (at_time 1 1700000900) sample_token firm_single_reachable)
      as (_ & _ & Herr).
    + vm_compute. discriminate.
    + reflexivity.
    + apply Herr. reflexivity.
  - destruct (Hp firm_per_address
                [(at_time 7 1700000500, sample_token, PerAddress.Release)]
                (at_time 1 1700000900) sample_token 7 firm_per_address_reachable)
      as (_ & _ & Herr).
    + vm_compute. discriminate.
    + reflexivity.
    + apply Herr. reflexivity.
Defined.

(** ** The requests to the token balance the records *)

Lemma net_inflow_app tr tr' :
  net_inflow (tr ++ tr') = net_inflow tr + net_inflow tr'.
Proof.
  unfold net_inflow. induction tr as [| e tr IH]; cbn; [reflexivity | ].
  rewrite IH. lia.
Qed.

Lemma held_all_empty : held_all ∅ = 0.
Proof. unfold held_all. apply map_fold_empty. Qed.

Lemma held_all_fresh (lk : gmap Z LockupInfo) b l :
  lk !! b = None -> held_all (<[b := l]> lk) = held l + held_all lk.
Proof.
  intros Hnone. unfold held_all.
  rewrite map_fold_insert_L; [reflexivity | intros; lia | exact Hnone].
Qed.

Lemma held_all_insert (lk : gmap Z LockupInfo) b l :
  held_all (<[b := l]> lk) =
  held_all lk - held (PerAddress.lockup_at lk b) + held l.
Proof.
  unfold PerAddress.lockup_at.
  destruct (lk !! b) as [l0 |] eqn:Hb; cbn [default id].
  - assert (Hold : held_all lk = held l0 + held_all (delete b lk)).
    { rewrite <- (insert_delete_id lk b l0 Hb) at 1.
      apply held_all_fresh, lookup_delete_eq. }
    rewrite <- (insert_delete_eq lk b l), held_all_fresh by apply lookup_delete_eq.
    lia.
  - rewrite held_all_fresh by exact Hb. change (held noLockup) with 0. lia.
Qed.

Lemma single_blank_step c m tok call :
  (Single.beneficiary c = 0 -> Single.lockupInfo c = noLockup) ->
  Single.beneficiary (Single.step c m tok call) = 0 ->
  Single.lockupInfo (Single.step c m tok call) = noLockup.
Proof.
  intros Hblank. unfold Single.step.
  destruct (outcome (Single.exec c m tok call)) as [c' | err] eqn:Hexec;
    [| exact Hblank].
  destruct call as [b_ amount cliff vesting rev | |]; cbn [Single.exec] in Hexec.
  - apply single_createLockup_inv in Hexec
      as (_ & _ & _ & _ & _ & _ & Hb & _ & _ & _ & _ & _ & -> & _).
    cbn. intros Hb'. contradiction.
  - apply single_release_inv in Hexec as (_ & _ & Htot & _ & r & _ & _ & _ & -> & _).
    cbn. intros Hb. rewrite (Hblank Hb) in Htot. contradiction.
  - apply single_revoke_inv in Hexec as (_ & _ & Htot & _ & _ & _ & v & _ & _ & -> & _).
    cbn. intros Hb. rewrite (Hblank Hb) in Htot. contradiction.
Qed.

Lemma single_step_account c m tok call :
  (Single.beneficiary c = 0 -> Single.lockupInfo c = noLockup) ->
  net_inflow (carried_out (Single.exec c m tok call)) =
  held (Single.lockupInfo (Single.step c m tok call)) - held (Single.lockupInfo c).
Proof.
  intros Hblank. unfold Single.step, carried_out.
  destruct (outcome (Single.exec c m tok call)) as [c' | err] eqn:Hexec;
    [| cbn; lia].
  destruct call as [b_ amount cliff vesting rev | |]; cbn [Single.exec] in *.
  - apply single_createLockup_inv in Hexec
      as (_ & _ & Hb & _ & _ & _ & _ & _ & _ & _ & _ & _ & -> & ->).
    rewrite (Hblank Hb). unfold held. cbn. lia.
  - apply single_release_inv in Hexec as (_ & _ & _ & _ & r & _ & _ & _ & -> & ->).
    unfold held. cbn. lia.
  - apply single_revoke_inv in Hexec
      as (_ & _ & _ & Hrev & _ & _ & v & _ & _ & -> & ->).
    unfold held. rewrite Hrev. cbn. lia.
Qed.

Lemma peraddress_blank_step c m tok call :
  (forall b, totalAmount (PerAddress.lockup_at (PerAddress.lockups c) b) = 0 ->
             PerAddress.lockup_at (PerAddress.lockups c) b = noLockup) ->
  forall b,
    totalAmount
      (PerAddress.lockup_at (PerAddress.lockups (PerAddress.step c m tok call)) b) = 0 ->
    PerAddress.lockup_at (PerAddress.lockups (PerAddress.step c m tok call)) b = noLockup.
Proof.
  intros Hblank b. unfold PerAddress.step.
  destruct (outcome (PerAddress.exec c m tok call)) as [c' | err] eqn:Hexec;
    [| apply Hblank].
  destruct call as [b0 amount cliff vesting rev | | b0]; cbn [PerAddress.exec] in Hexec.
  - apply peraddress_createLockup_inv in Hexec
      as (_ & _ & _ & _ & Hamount & _ & _ & _ & _ & -> & _).
    cbn. rewrite lockup_at_insert.
    destruct (decide (b0 = b)) as [_ | _]; [cbn; contradiction | apply Hblank].
  - apply peraddress_release_inv in Hexec as (_ & Htot & _ & r & _ & _ & _ & -> & _).
    cbn. rewrite lockup_at_insert.
    destruct (decide (msg_sender m = b)) as [_ | _]; [cbn; contradiction | apply Hblank].
  - apply peraddress_revoke_inv in Hexec
      as (_ & _ & Htot & _ & _ & v & _ & _ & _ & -> & _).
    cbn. rewrite lockup_at_insert.
    destruct (decide (b0 = b)) as [_ | _]; [cbn; contradiction | apply Hblank].
Qed.

Lemma peraddress_step_account c m tok call :
  (forall b, totalAmount (PerAddress.lockup_at (PerAddress.lockups c) b) = 0 ->
             PerAddress.lockup_at (PerAddress.lockups c) b = noLockup) ->
  net_inflow (carried_out (PerAddress.exec c m tok call)) =
  held_all (PerAddress.lockups (PerAddress.step c m tok call)) -
  held_all (PerAddress.lockups c).
Proof.
  intros Hblank. unfold PerAddress.step, carried_out.
  destruct (outcome (PerAddress.exec c m tok call)) as [c' | err] eqn:Hexec;
    [| cbn; lia].
  destruct call as [b0 amount cliff vesting rev | | b0]; cbn [PerAddress.exec] in *.
  - apply peraddress_createLockup_inv in Hexec
      as (_ & _ & _ & _ & _ & _ & _ & Hfree & _ & -> & ->).
    cbn [PerAddress.lockups PerAddress.with_lockups].
    rewrite held_all_insert, (Hblank _ Hfree). unfold held. cbn. lia.
  - apply peraddress_release_inv in Hexec as (_ & _ & _ & r & _ & _ & _ & -> & ->).
    cbn [PerAddress.lockups PerAddress.with_lockups].
    rewrite held_all_insert. unfold held. cbn. lia.
  - apply peraddress_revoke_inv in Hexec
      as (_ & _ & _ & Hrev & _ & v & _ & Hrefund & _ & -> & ->).
    cbn [PerAddress.lockups PerAddress.with_lockups].
    rewrite held_all_insert, net_inflow_app. unfold held. rewrite Hrev. cbn.
    destruct (Z.ltb_spec 0
                (totalAmount (PerAddress.lockup_at (PerAddress.lockups c) b0) -
                 Z.min v (totalAmount (PerAddress.lockup_at (PerAddress.lockups c) b0))));
      cbn; lia.
Qed.

Lemma single_history_account calls : forall c,
  (Single.beneficiary c = 0 -> Single.lockupInfo c = noLockup) ->
  net_inflow (single_history c calls) =
  held (Single.lockupInfo (Single.run c calls)) - held (Single.lockupInfo c).
Proof.
  induction calls as [| [[m tok] call] rest IH]; intros c Hblank; cbn.
  - lia.
  - rewrite net_inflow_app, (single_step_account c m tok call Hblank).
    rewrite IH by (apply single_blank_step; exact Hblank). lia.
Qed.

Lemma peraddress_history_account calls : forall c,
  (forall b, totalAmount (PerAddress.lockup_at (PerAddress.lockups c) b) = 0 ->
             PerAddress.lockup_at (PerAddress.lockups c) b = noLockup) ->
  net_inflow (peraddress_history c calls) =
  held_all (PerAddress.lockups (PerAddress.run c calls)) -
  held_all (PerAddress.lockups c).
Proof.
  induction calls as [| [[m tok] call] rest IH]; intros c Hblank; cbn.
  - lia.
  - rewrite net_inflow_app, (peraddress_step_account c m tok call Hblank).
    rewrite IH by (apply peraddress_blank_step; exact Hblank). lia.
Qed.

(** X10.  What the contract has asked the token to bring in, less what it has asked it
    to pay out, over any sequence of calls, is what its records still set
    aside: the total of each lockup, or the amount frozen at its revocation,
    less what has been released.  Calls that revert count for nothing. *)
Theorem requests_balance_the_records :
  (forall c calls,
     Single.reachable c ->
     net_inflow (single_history c calls) =
     held (Single.lockupInfo (Single.run c calls)) - held (Single.lockupInfo c)) /\
  (forall c calls,
     PerAddress.reachable c ->
     net_inflow (peraddress_history c calls) =
     held_all (PerAddress.lockups (PerAddress.run c calls)) -
     held_all (PerAddress.lockups c)).
Proof.
  split.
  - intros c calls Hreach. apply single_history_account.
    apply single_reachable_inv in Hreach as (_ & _ & _ & _ & Hblank & _).
    exact Hblank.
  - intros c calls Hreach. apply peraddress_history_account.
    intros b. apply peraddress_reachable_inv in Hreach as (_ & Hrec).
    destruct (Hrec b) as (_ & _ & _ & Hb & _). exact Hb.
Qed.

Lemma requests_balance_the_records_witness :
  (let calls := [(at_time 1 1700000000, sample_token,
                  Single.CreateLockup 7 1000 0 1000 true);
                 (at_time 7 1700000500, sample_token, Single.Release);
                 (at_time 1 1700000900, sample_token, Single.Revoke)] in
   net_inflow (single_history (Single.deployed 1 2) calls) =
   held (Single.lockupInfo (Single.run (Single.deployed 1 2) calls)) -
   held (Single.lockupInfo (Single.deployed 1 2))) /\
  (let calls := [(at_time 1 1700000000, sample_token,
                  PerAddress.CreateLockup 7 1000 0 1000 true);
                 (at_time 7 1700000500, sample_token, PerAddress.Release);
                 (at_time 1 1700000900, sample_token, PerAddress.Revoke 7)] in
   net_inflow (peraddress_history (PerAddress.deployed 1 2) calls) =
   held_all (PerAddress.lockups (PerAddress.run (PerAddress.deployed 1 2) calls)) -
   held_all (PerAddress.lockups (PerAddress.deployed 1 2))).
Proof.
  destruct requests_balance_the_records as (Hs & Hp).
  split; cbv zeta.
  - apply Hs, Single.reachable_deployed.
  - apply Hp, PerAddress.reachable_deployed.
Defined.

(** ** With timestamps in order, nothing is paid out twice *)

Lemma paid_within_later t t' l : t <= t' -> paid_within t l -> paid_within t' l.
Proof.
  intros Ht (Hfrozen & Hopen). split; [exact Hfrozen |].
  intros Hrev t'' Hle. apply Hopen; [exact Hrev | lia].
Qed.

Lemma paid_within_held t l :
  releasedAmount l <= totalAmount l -> paid_within t l -> 0 <= held l.
Proof.
  intros Hle (Hfrozen & _). unfold held.
  destruct (revoked l); [specialize (Hfrozen eq_refl) |]; lia.
Qed.

Lemma paid_within_noLockup t : paid_within t noLockup.
Proof. split; [discriminate |]. intros _ t' _. cbn. lia. Qed.

Lemma paid_within_created t amount start cliff vesting rev :
  0 <= amount -> 0 <= cliff ->
  paid_within t {| totalAmount := amount; releasedAmount := 0; startTime := start;
                   cliffDuration := cliff; vestingDuration := vesting;
                   revocable := rev; revoked := false; vestedAtRevoke := 0 |}.
Proof.
  intros Hamount Hcliff. split; [discriminate |]. intros _ t' _.
  apply vested_spec_bounds; cbn; [lia | lia | discriminate].
Qed.

(** After a release at [now] of [r], where [r] is what the schedule gave. *)
Lemma paid_within_released t now l vested r :
  0 < totalAmount l -> 0 <= cliffDuration l <= vestingDuration l ->
  paid_within t l -> t <= now ->
  vested = vested_spec l now ->
  (revoked l = false /\ startTime l + vestingDuration l <= now /\
   r = totalAmount l - releasedAmount l /\ releasedAmount l <= totalAmount l) \/
  ((revoked l = true \/ now < startTime l + vestingDuration l) /\
   r = vested - releasedAmount l /\ releasedAmount l <= vested) ->
  paid_within now (with_releasedAmount l (releasedAmount l + r)).
Proof.
  intros Htot Hcv (Hfrozen & Hopen) Ht -> Hcases.
  assert (Hsame : forall t', vested_spec (with_releasedAmount l (releasedAmount l + r)) t'
                             = vested_spec l t') by reflexivity.
  split; cbn [revoked releasedAmount vestedAtRevoke with_releasedAmount];
    [intros Hrev | intros Hrev t' Hle; rewrite Hsame].
  - destruct Hcases as [(Hno & _) | (_ & -> & _)]; [congruence |].
    unfold vested_spec. rewrite Hrev.
    destruct (Z.eqb_spec (totalAmount l) 0); lia.
  - destruct Hcases as [(_ & Hend & -> & _) | (_ & -> & _)].
    + assert (Hfull : vested_spec l t' = totalAmount l).
      { apply vested_spec_full; [lia | exact Hrev | exact Hcv | lia]. }
      lia.
    + assert (Hmono : vested_spec l now <= vested_spec l t').
      { apply vested_spec_mono; [lia | lia | intros; congruence | exact Hrev | exact Hle]. }
      lia.
Qed.

(** After a revocation at [now]. *)
Lemma paid_within_revoked t now l :
  releasedAmount l <= totalAmount l -> revoked l = false ->
  paid_within t l -> t <= now ->
  paid_within now (with_revoked l (Z.min (vested_spec l now) (totalAmount l))).
Proof.
  intros Hle Hrev (_ & Hopen) Ht. split; cbn; [intros _ | discriminate].
  specialize (Hopen Hrev now Ht). lia.
Qed.

Lemma single_paid_step t c m tok call :
  single_inv c -> Single.valid_call call ->
  paid_within t (Single.lockupInfo c) -> t <= block_timestamp m ->
  paid_within (block_timestamp m) (Single.lockupInfo (Single.step c m tok call)).
Proof.
  intros (_ & Htyped & Hle & Hsnap & Hnone & Hset & _) Hcall Hpaid Ht.
  unfold Single.step.
  destruct (outcome (Single.exec c m tok call)) as [c' | err] eqn:Hexec;
    [| apply (paid_within_later t); assumption].
  destruct call as [b_ amount cliff vesting rev | |]; cbn [Single.exec] in Hexec.
  - apply single_createLockup_inv in Hexec
      as (_ & _ & _ & _ & _ & _ & _ & _ & _ & _ & _ & _ & -> & _).
    cbn in Hcall. cbn [Single.lockupInfo Single.with_lockup].
    apply paid_within_created; widths; lia.
  - apply single_release_inv in Hexec
      as (_ & Hsender & Htot & _ & r & Hr & _ & _ & -> & _).
    cbn [Single.lockupInfo Single.with_lockup].
    apply single_releasableAmount_inv in Hr as (vested & Hv & Hcases).
    assert (Hben : Single.beneficiary c <> 0).
    { intros Hb. rewrite (Hnone Hb) in Htot. contradiction. }
    destruct (Hset Hben) as (Hpos & Hcv1 & _).
    apply (paid_within_released t _ _ vested); try assumption.
    + widths. lia.
    + apply single_vestedAmount_inv in Hv; [exact Hv | lia].
  - apply single_revoke_inv in Hexec
      as (_ & _ & Htot & Hrev & _ & _ & v & Hv & _ & -> & _).
    cbn [Single.lockupInfo Single.with_lockup].
    apply single_vestedAmount_inv in Hv; [| widths; lia]. subst v.
    apply (paid_within_revoked t); assumption.
Qed.

Lemma peraddress_paid_step t c m tok call :
  peraddress_inv c -> PerAddress.valid_call call ->
  (forall b, paid_within t (PerAddress.lockup_at (PerAddress.lockups c) b)) ->
  t <= block_timestamp m ->
  forall b,
    paid_within (block_timestamp m)
      (PerAddress.lockup_at (PerAddress.lockups (PerAddress.step c m tok call)) b).
Proof.
  intros (_ & Hrec) Hcall Hpaid Ht b.
  assert (Hkept : paid_within (block_timestamp m)
                    (PerAddress.lockup_at (PerAddress.lockups c) b))
    by (apply (paid_within_later t); auto).
  unfold PerAddress.step.
  destruct (outcome (PerAddress.exec c m tok call)) as [c' | err] eqn:Hexec;
    [| exact Hkept].
  destruct call as [b0 amount cliff vesting rev | | b0]; cbn [PerAddress.exec] in Hexec.
  - apply peraddress_createLockup_inv in Hexec
      as (_ & _ & _ & _ & _ & _ & _ & _ & _ & -> & _).
    cbn [PerAddress.lockups PerAddress.with_lockups]. rewrite lockup_at_insert.
    destruct (decide (b0 = b)) as [_ | _]; [| exact Hkept].
    cbn in Hcall. apply paid_within_created; widths; lia.
  - apply peraddress_release_inv in Hexec as (_ & Htot & _ & r & Hr & _ & _ & -> & _).
    cbn [PerAddress.lockups PerAddress.with_lockups]. rewrite lockup_at_insert.
    destruct (decide (msg_sender m = b)) as [_ | _]; [| exact Hkept].
    apply peraddress_releasableAmount_inv in Hr as (vested & Hv & Hcases).
    destruct (Hrec (msg_sender m)) as (Htyped & _ & _ & _ & Hset & _).
    destruct (Hset Htot) as (_ & Hcv & _).
    apply (paid_within_released t _ _ vested); auto.
    + widths. lia.
    + widths. lia.
    + apply peraddress_vestedAmount_inv in Hv. exact Hv.
  - apply peraddress_revoke_inv in Hexec
      as (_ & _ & Htot & Hrev & _ & v & Hv & _ & _ & -> & _).
    cbn [PerAddress.lockups PerAddress.with_lockups]. rewrite lockup_at_insert.
    destruct (decide (b0 = b)) as [_ | _]; [| exact Hkept].
    apply peraddress_vestedAmount_inv in Hv. subst v.
    destruct (Hrec b0) as (_ & Hle & _).
    apply (paid_within_revoked t); auto.
Qed.

Lemma single_paid_run calls : forall t c,
  single_inv c -> paid_within t (Single.lockupInfo c) ->
  Forall single_valid calls -> in_time_order t calls ->
  single_inv (Single.run c calls) /\
  exists t', paid_within t' (Single.lockupInfo (Single.run c calls)).
Proof.
  induction calls as [| [[m tok] call] rest IH]; intros t c Hinv Hpaid Hvalid Horder.
  - split; [exact Hinv | exists t; exact Hpaid].
  - apply Forall_cons in Hvalid as ((Hmsg & Hcall) & Hvalid).
    destruct Horder as (Ht & Horder). cbn in Hmsg, Hcall. cbn [Single.run].
    apply (IH (block_timestamp m)); auto.
    + apply single_inv_step; assumption.
    + apply (single_paid_step t); assumption.
Qed.

Lemma peraddress_paid_run calls : forall t c,
  peraddress_inv c ->
  (forall b, paid_within t (PerAddress.lockup_at (PerAddress.lockups c) b)) ->
  Forall peraddress_valid calls -> in_time_order t calls ->
  peraddress_inv (PerAddress.run c calls) /\
  exists t', forall b,
    paid_within t' (PerAddress.lockup_at (PerAddress.lockups (PerAddress.run c calls)) b).
Proof.
  induction calls as [| [[m tok] call] rest IH]; intros t c Hinv Hpaid Hvalid Horder.
  - split; [exact Hinv | exists t; exact Hpaid].
  - apply Forall_cons in Hvalid as ((Hmsg & Hcall) & Hvalid).
    destruct Horder as (Ht & Horder). cbn in Hmsg, Hcall. cbn [PerAddress.run].
    apply (IH (block_timestamp m)); auto.
    + apply peraddress_inv_step; assumption.
    + apply (peraddress_paid_step t); assumption.
Qed.

Lemma held_all_nonneg (lk : gmap Z LockupInfo) :
  (forall b, 0 <= held (PerAddress.lockup_at lk b)) -> 0 <= held_all lk.
Proof.
  intros Hall.
  assert (Hsome : forall b l, lk !! b = Some l -> 0 <= held l).
  { intros b l Hb. specialize (Hall b). unfold PerAddress.lockup_at in Hall.
    rewrite Hb in Hall. exact Hall. }
  clear Hall. revert Hsome. unfold held_all.
  apply (map_fold_weak_ind
           (fun r (lk : gmap Z LockupInfo) =>
              (forall b l, lk !! b = Some l -> 0 <= held l) -> 0 <= r)).
  - intros _. lia.
  - intros b l lk' r Hnone IH Hsome.
    pose proof (Hsome b l (lookup_insert_eq lk' b l)).
    assert (0 <= r); [| lia].
    apply IH. intros b' l' Hb'. apply (Hsome b').
    rewrite lookup_insert_ne; [exact Hb' | congruence].
Qed.

(** X11.  When block timestamps never go back, a lockup never pays its beneficiary
    more than it vested: after a revocation the released amount stays within
    the amount frozen, so every record still sets aside a non-negative amount
    and, from deployment on, the contract has not asked the token to pay out
    more than it asked it to bring in. *)
Theorem payouts_stay_within_deposits :
  (forall deployer self calls,
     Forall single_valid calls -> in_time_order 0 calls ->
     let c := Single.run (Single.deployed deployer self) calls in
     (revoked (Single.lockupInfo c) = true ->
      releasedAmount (Single.lockupInfo c) <= vestedAtRevoke (Single.lockupInfo c)) /\
     0 <= held (Single.lockupInfo c) /\
     0 <= net_inflow (single_history (Single.deployed deployer self) calls)) /\
  (forall deployer self calls,
     Forall peraddress_valid calls -> in_time_order 0 calls ->
     let c := PerAddress.run (PerAddress.deployed deployer self) calls in
     (forall b,
        let l := PerAddress.lockup_at (PerAddress.lockups c) b in
        (revoked l = true -> releasedAmount l <= vestedAtRevoke l) /\ 0 <= held l) /\
     0 <= net_inflow (peraddress_history (PerAddress.deployed deployer self) calls)).
Proof.
  split.
  - intros deployer self calls Hvalid Horder c. subst c.
    destruct (single_paid_run calls 0 (Single.deployed deployer self))
      as ((_ & _ & Hle & _) & t & Hpaid); auto.
    { apply single_inv_deployed. }
    { apply paid_within_noLockup. }
    pose proof (paid_within_held _ _ Hle Hpaid) as Hheld.
    split; [apply Hpaid |]. split; [exact Hheld |].
    rewrite single_history_account by reflexivity.
    change (held (Single.lockupInfo (Single.deployed deployer self))) with 0. lia.
  - intros deployer self calls Hvalid Horder c. subst c.
    destruct (peraddress_paid_run calls 0 (PerAddress.deployed deployer self))
      as ((_ & Hrec) & t & Hpaid); auto.
    { apply peraddress_inv_deployed. }
    { intros b. cbn. rewrite lockup_at_empty. apply paid_within_noLockup. }
    assert (Hheld : forall b,
              0 <= held (PerAddress.lockup_at
                           (PerAddress.lockups
                              (PerAddress.run (PerAddress.deployed deployer self) calls)) b)).
    { intros b. destruct (Hrec b) as (_ & Hle & _).
      apply (paid_within_held t); auto. }
    split.
    + intros b. split; [apply Hpaid | apply Hheld].
    + rewrite peraddress_history_account.
      * cbn [PerAddress.lockups PerAddress.deployed]. rewrite held_all_empty.
        pose proof (held_all_nonneg _ Hheld). lia.
      * intros b _. cbn. apply lockup_at_empty.
Qed.

Lemma payouts_stay_within_deposits_witness :
  (let calls := [(at_time 1 1700000000, sample_token,
                  Single.CreateLockup 7 1000 0 1000 true);
                 (at_time 7 1700000500, sample_token, Single.Release);
                 (at_time 1 1700000900, sample_token, Single.Revoke);
                 (at_time 7 1700000950, sample_token, Single.Release)] in
   0 <= net_inflow (single_history (Single.deployed 1 2) calls)) /\
  (let calls := [(at_time 1 1700000000, sample_token,
                  PerAddress.CreateLockup 7 1000 0 1000 true);
                 (at_time 7 1700000500, sample_token, PerAddress.Release);
                 (at_time 1 1700000900, sample_token, PerAddress.Revoke 7);
                 (at_time 7 1700000950, sample_token, PerAddress.Release)] in
   0 <= net_inflow (peraddress_history (PerAddress.deployed 1 2) calls)).
Proof.
  destruct payouts_stay_within_deposits as (Hs & Hp).
  split; cbv zeta.
  - apply Hs.
    + repeat (apply Forall_cons; split; [split; concrete |]). constructor.
    + cbn. lia.
  - apply Hp.
    + repeat (apply Forall_cons; split; [split; concrete |]). constructor.
    + cbn. lia.
Defined.

(** The order of the timestamps is needed: were a revocation dated before an
    earlier release, the two payments together would exceed the deposit. *)
Example payouts_out_of_time_order :
  let calls := [(at_time 1 1700000000, sample_token,
                 Single.CreateLockup 7 1000 0 1000 true);
                (at_time 7 1700000900, sample_token, Single.Release);
                (at_time 1 1700000100, sample_token, Single.Revoke)] in
  Forall single_valid calls /\
  net_inflow (single_history (Single.deployed 1 2) calls) = -800.
Proof.
  split.
  - repeat (apply Forall_cons; split; [split; concrete |]). constructor.
  - reflexivity.
Qed.

(** ** Who can change what *)

(** X12.  Whoever is not the owner changes nothing of a lockup but the released
    amount, and whoever is not its beneficiary does not change the released
    amount: the schedule, the revocation and its snapshot are the owner's, the
    released amount is the beneficiary's.  So a caller who is neither changes
    nothing. *)
Theorem only_the_parties_change_a_lockup :
  (forall c m tok call,
     msg_sender m <> Single.owner c ->
     let c' := Single.step c m tok call in
     Single.beneficiary c' = Single.beneficiary c /\
     same_schedule (Single.lockupInfo c) (Single.lockupInfo c') /\
     revoked (Single.lockupInfo c') = revoked (Single.lockupInfo c) /\
     vestedAtRevoke (Single.lockupInfo c') = vestedAtRevoke (Single.lockupInfo c)) /\
  (forall c m tok call,
     Single.reachable c -> msg_sender m <> Single.beneficiary c ->
     releasedAmount (Single.lockupInfo (Single.step c m tok call)) =
     releasedAmount (Single.lockupInfo c)) /\
  (forall c m tok call b,
     msg_sender m <> PerAddress.owner c ->
     let l := PerAddress.lockup_at (PerAddress.lockups c) b in
     let l' := PerAddress.lockup_at (PerAddress.lockups (PerAddress.step c m tok call)) b in
     same_schedule l l' /\ revoked l' = revoked l /\
     vestedAtRevoke l' = vestedAtRevoke l) /\
  (forall c m tok call b,
     PerAddress.reachable c -> msg_sender m <> b ->
     releasedAmount
       (PerAddress.lockup_at (PerAddress.lockups (PerAddress.step c m tok call)) b) =
     releasedAmount (PerAddress.lockup_at (PerAddress.lockups c) b)).
Proof.
  split; [| split; [| split]].
  - intros c m tok call Hstranger c'. subst c'. unfold Single.step.
    destruct (outcome (Single.exec c m tok call)) as [c' | err] eqn:Hexec;
      [| repeat split; reflexivity].
    destruct call as [b_ amount cliff vesting rev | |]; cbn [Single.exec] in Hexec.
    + apply single_createLockup_inv in Hexec as (Howner & _). congruence.
    + apply single_release_inv in Hexec as (_ & _ & _ & _ & r & _ & _ & _ & -> & _).
      repeat split; reflexivity.
    + apply single_revoke_inv in Hexec as (Howner & _). congruence.
  - intros c m tok call Hreach Hother. unfold Single.step.
    apply single_reachable_inv in Hreach as (_ & _ & _ & _ & Hnone & _).
    destruct (outcome (Single.exec c m tok call)) as [c' | err] eqn:Hexec;
      [| reflexivity].
    destruct call as [b_ amount cliff vesting rev | |]; cbn [Single.exec] in Hexec.
    + apply single_createLockup_inv in Hexec
        as (_ & _ & Hb & _ & _ & _ & _ & _ & _ & _ & _ & _ & -> & _).
      rewrite (Hnone Hb). reflexivity.
    + apply single_release_inv in Hexec as (_ & Hsender & _). congruence.
    + apply single_revoke_inv in Hexec as (_ & _ & _ & _ & _ & _ & v & _ & _ & -> & _).
      reflexivity.
  - intros c m tok call b Hstranger l l'. subst l l'. unfold PerAddress.step.
    destruct (outcome (PerAddress.exec c m tok call)) as [c' | err] eqn:Hexec;
      [| repeat split; reflexivity].
    destruct call as [b0 amount cliff vesting rev | | b0]; cbn [PerAddress.exec] in Hexec.
    + apply peraddress_createLockup_inv in Hexec as (Howner & _). congruence.
    + apply peraddress_release_inv in Hexec as (_ & _ & _ & r & _ & _ & _ & -> & _).
      cbn [PerAddress.lockups PerAddress.with_lockups]. rewrite lockup_at_insert.
      destruct (decide (msg_sender m = b)) as [-> | _]; repeat split; reflexivity.
    + apply peraddress_revoke_inv in Hexec as (Howner & _). congruence.
  - intros c m tok call b Hreach Hother. unfold PerAddress.step.
    apply peraddress_reachable_inv in Hreach as (_ & Hrec).
    destruct (outcome (PerAddress.exec c m tok call)) as [c' | err] eqn:Hexec;
      [| reflexivity].
    destruct call as [b0 amount cliff vesting rev | | b0]; cbn [PerAddress.exec] in Hexec.
    + apply peraddress_createLockup_inv in Hexec
        as (_ & _ & _ & _ & _ & _ & _ & Hfree & _ & -> & _).
      cbn [PerAddress.lockups PerAddress.with_lockups]. rewrite lockup_at_insert.
      destruct (decide (b0 = b)) as [-> | _]; [| reflexivity].
      destruct (Hrec b) as (_ & _ & _ & Hnone & _). rewrite (Hnone Hfree). reflexivity.
    + apply peraddress_release_inv in Hexec as (_ & _ & _ & r & _ & _ & _ & -> & _).
      cbn [PerAddress.lockups PerAddress.with_lockups]. rewrite lockup_at_insert.
      destruct (decide (msg_sender m = b)) as [Heq | _]; [contradiction | reflexivity].
    + apply peraddress_revoke_inv in Hexec
        as (_ & _ & _ & _ & _ & v & _ & _ & _ & -> & _).
      cbn [PerAddress.lockups PerAddress.with_lockups]. rewrite lockup_at_insert.
      destruct (decide (b0 = b)) as [-> | _]; reflexivity.
Qed.

Lemma only_the_parties_change_a_lockup_witness :
  revoked
    (Single.lockupInfo (Single.step small_single (at_time 7 1700000500) sample_token
                          Single.Revoke)) = false /\
  releasedAmount
    (Single.lockupInfo (Single.step small_single (at_time 1 1700000500) sample_token
                          Single.Release)) = 0 /\
  revoked
    (PerAddress.lockup_at
       (PerAddress.lockups
          (PerAddress.step small_per_address (at_time 7 1700000500) sample_token
             (PerAddress.Revoke 7))) 7) = false /\
  releasedAmount
    (PerAddress.lockup_at
       (PerAddress.lockups
          (PerAddress.step small_per_address (at_time 1 1700000500) sample_token
             PerAddress.Release)) 7) = 0.
Proof.
  destruct only_the_parties_change_a_lockup as (Hs1 & Hs2 & Hp1 & Hp2).
  split; [| split; [| split]].
  - destruct (Hs1 small_single (at_time 7 1700000500) sample_token Single.Revoke)
      as (_ & _ & Hrev & _); [vm_compute; congruence |].
    rewrite Hrev. reflexivity.
  - rewrite (Hs2 small_single (at_time 1 1700000500) sample_token Single.Release
               small_single_reachable); [reflexivity | vm_compute; congruence].
  - destruct (Hp1 small_per_address (at_time 7 1700000500) sample_token
                (PerAddress.Revoke 7) 7) as (_ & Hrev & _); [vm_compute; congruence |].
    rewrite Hrev. reflexivity.
  - rewrite (Hp2 small_per_address (at_time 1 1700000500) sample_token
               PerAddress.Release 7 small_per_address_reachable);
      [reflexivity | vm_compute; congruence].
Defined.

(** ** A revocation before the end of the cliff *)

Lemma single_revoke_ok c m tok v :
  let l := Single.lockupInfo c in
  let vested := Z.min v (totalAmount l) in
  Single.owner c = msg_sender m -> Single.entered c = false ->
  totalAmount l <> 0 -> revoked l = false -> revocable l = true ->
  Single._vestedAmount l (block_timestamp m) = Ok v ->
  0 < totalAmount l - vested -> transfer_ok tok = true ->
  Single.revoke c m tok =
    mkTx [SafeTransfer (Single.owner c) (totalAmount l - vested);
          LockupRevoked (Single.beneficiary c) (totalAmount l - vested)]
      (Ok (Single.with_lockup c (Single.beneficiary c) (with_revoked l vested))).
Proof.
  intros l0 vested Hown Hent Htot Hrev Hable Hv Hrefund Hok. subst l0 vested.
  unfold Single.revoke, Single.nonReentrant, Single.onlyOwner.
  open_single c. subst o e.
  rewrite lift_bind, Z.eqb_refl. cbn [revert_if negb].
  rewrite bind_mret, lift_bind. cbn [revert_if].
  rewrite lift_bind.
  destruct (Z.eqb_spec (totalAmount l) 0); [contradiction |]. cbn [revert_if].
  rewrite lift_bind, Hrev. cbn [revert_if].
  rewrite lift_bind, Hable. cbn [revert_if negb].
  rewrite lift_bind, Hv, clamp_min.
  rewrite lift_bind, checked_sub_ok by lia.
  rewrite lift_bind.
  destruct (Z.eqb_spec (totalAmount l - Z.min v (totalAmount l)) 0); [lia |].
  cbn [revert_if]. rewrite Hok. reflexivity.
Qed.

Lemma peraddress_revoke_ok c m tok b v :
  let l := PerAddress.lockup_at (PerAddress.lockups c) b in
  let vested := Z.min v (totalAmount l) in
  PerAddress.owner c = msg_sender m -> PerAddress.entered c = false ->
  totalAmount l <> 0 -> revoked l = false -> revocable l = true ->
  PerAddress._vestedAmount (PerAddress.lockups c) b (block_timestamp m) = Ok v ->
  0 < totalAmount l - vested -> transfer_ok tok = true ->
  PerAddress.revoke c m tok b =
    mkTx [SafeTransfer (PerAddress.owner c) (totalAmount l - vested);
          LockupRevoked b (totalAmount l - vested)]
      (Ok (PerAddress.with_lockups c
             (<[b := with_revoked l vested]> (PerAddress.lockups c)))).
Proof.
  intros l vested Hown Hent Htot Hrev Hable Hv Hrefund Hok. subst vested.
  unfold PerAddress.revoke, PerAddress.nonReentrant, PerAddress.onlyOwner.
  open_per c. subst o e. cbv zeta. fold l.
  rewrite lift_bind, Z.eqb_refl. cbn [revert_if negb].
  rewrite bind_mret, lift_bind. cbn [revert_if].
  rewrite lift_bind.
  destruct (Z.eqb_spec (totalAmount l) 0); [contradiction |]. cbn [revert_if].
  rewrite lift_bind, Hrev. cbn [revert_if].
  rewrite lift_bind, Hable. cbn [revert_if negb].
  rewrite lift_bind, Hv, clamp_min.
  rewrite lift_bind, checked_sub_ok by lia.
  destruct (Z.ltb_spec 0 (totalAmount l - Z.min v (totalAmount l))); [| lia].
  rewrite Hok. reflexivity.
Qed.

Lemma single_vestedAmount_cliff l now :
  totalAmount l <> 0 -> revoked l = false ->
  startTime l + cliffDuration l <= UINT64_MAX -> now < startTime l + cliffDuration l ->
  Single._vestedAmount l now = Ok 0.
Proof.
  intros Htot Hrev Hfits Hnow. unfold Single._vestedAmount.
  destruct (Z.eqb_spec (totalAmount l) 0); [contradiction |]. rewrite Hrev.
  rewrite (checked_add_ok 64 (startTime l) (cliffDuration l))
    by (rewrite uint_max_64; exact Hfits).
  cbn [mbind Result_bind].
  destruct (Z.ltb_spec now (startTime l + cliffDuration l)); [reflexivity | lia].
Qed.

Lemma peraddress_vestedAmount_cliff (lk : gmap Z LockupInfo) b now :
  let l := PerAddress.lockup_at lk b in
  totalAmount l <> 0 -> revoked l = false ->
  startTime l + cliffDuration l <= UINT256_MAX -> now < startTime l + cliffDuration l ->
  PerAddress._vestedAmount lk b now = Ok 0.
Proof.
  intros l Htot Hrev Hfits Hnow. unfold PerAddress._vestedAmount. fold l. cbv zeta.
  destruct (Z.eqb_spec (totalAmount l) 0); [contradiction |]. rewrite Hrev.
  rewrite (checked_add_ok 256 (startTime l) (cliffDuration l))
    by (rewrite uint_max_256; exact Hfits).
  cbn [mbind Result_bind].
  destruct (Z.ltb_spec now (startTime l + cliffDuration l)); [reflexivity | lia].
Qed.

(** Nothing can be released from a record frozen at 0. *)
Lemma single_frozen_at_zero_step c m tok call :
  revoked (Single.lockupInfo c) = true -> totalAmount (Single.lockupInfo c) <> 0 ->
  Single.beneficiary c <> 0 -> vestedAtRevoke (Single.lockupInfo c) = 0 ->
  0 <= releasedAmount (Single.lockupInfo c) ->
  Single.step c m tok call = c.
Proof.
  intros Hrev Htot Hben Hzero Hpos. unfold Single.step.
  destruct (outcome (Single.exec c m tok call)) as [c' | err] eqn:Hexec;
    [| reflexivity].
  destruct call as [b_ amount cliff vesting rev | |]; cbn [Single.exec] in Hexec.
  - apply single_createLockup_inv in Hexec as (_ & _ & Hb & _). contradiction.
  - apply single_release_inv in Hexec as (_ & _ & _ & _ & r & Hr & Hr0 & _).
    apply single_releasableAmount_inv in Hr as (vested & Hv & Hcases).
    rewrite single_vestedAmount_revoked in Hv by assumption.
    injection Hv as <-.
    destruct Hcases as [(Hno & _) | (_ & -> & Hle)]; [congruence | lia].
  - apply single_revoke_inv in Hexec as (_ & _ & _ & Hno & _). congruence.
Qed.

Lemma peraddress_frozen_at_zero_step b c m tok call :
  let l := PerAddress.lockup_at (PerAddress.lockups c) b in
  revoked l = true -> totalAmount l <> 0 -> vestedAtRevoke l = 0 ->
  0 <= releasedAmount l ->
  PerAddress.lockup_at (PerAddress.lockups (PerAddress.step c m tok call)) b = l.
Proof.
  intros l Hrev Htot Hzero Hpos. subst l. unfold PerAddress.step.
  destruct (outcome (PerAddress.exec c m tok call)) as [c' | err] eqn:Hexec;
    [| reflexivity].
  destruct call as [b0 amount cliff vesting rev | | b0]; cbn [PerAddress.exec] in Hexec.
  - apply peraddress_createLockup_inv in Hexec
      as (_ & _ & _ & _ & _ & _ & _ & Hfree & _ & -> & _).
    cbn [PerAddress.lockups PerAddress.with_lockups]. rewrite lockup_at_insert.
    destruct (decide (b0 = b)) as [-> | _]; [contradiction | reflexivity].
  - apply peraddress_release_inv in Hexec as (_ & _ & _ & r & Hr & Hr0 & _ & -> & _).
    cbn [PerAddress.lockups PerAddress.with_lockups]. rewrite lockup_at_insert.
    destruct (decide (msg_sender m = b)) as [Heq | _]; [| reflexivity].
    rewrite Heq in Hr.
    apply peraddress_releasableAmount_inv in Hr as (vested & Hv & Hcases).
    rewrite peraddress_vestedAmount_revoked in Hv by assumption.
    injection Hv as <-.
    destruct Hcases as [(Hno & _) | (_ & -> & Hle)]; [congruence | lia].
  - apply peraddress_revoke_inv in Hexec
      as (_ & _ & _ & Hno & _ & v & _ & _ & _ & -> & _).
    cbn [PerAddress.lockups PerAddress.with_lockups]. rewrite lockup_at_insert.
    destruct (decide (b0 = b)) as [-> | _]; [congruence | reflexivity].
Qed.

(** X13.  The owner's revocation of a revocable lockup before the end of its cliff
    pays the whole total back to the owner and freezes the vested amount at 0.
    Nothing is left for the beneficiary: in [Single] no later call changes the
    contract at all, in [PerAddress] none changes that record. *)
Theorem revoke_before_the_cliff_returns_everything :
  (forall c m tok,
     let l := Single.lockupInfo c in
     let c' := Single.with_lockup c (Single.beneficiary c) (with_revoked l 0) in
     Single.reachable c -> Single.owner c = msg_sender m ->
     totalAmount l <> 0 -> revoked l = false -> revocable l = true ->
     transfer_ok tok = true ->
     block_timestamp m < startTime l + cliffDuration l ->
     startTime l + cliffDuration l <= UINT64_MAX ->
     Single.revoke c m tok =
       mkTx [SafeTransfer (Single.owner c) (totalAmount l);
             LockupRevoked (Single.beneficiary c) (totalAmount l)] (Ok c') /\
     forall calls, Single.run c' calls = c') /\
  (forall c m tok b,
     let l := PerAddress.lockup_at (PerAddress.lockups c) b in
     let c' := PerAddress.with_lockups c
                 (<[b := with_revoked l 0]> (PerAddress.lockups c)) in
     PerAddress.reachable c -> PerAddress.owner c = msg_sender m ->
     totalAmount l <> 0 -> revoked l = false -> revocable l = true ->
     transfer_ok tok = true ->
     block_timestamp m < startTime l + cliffDuration l ->
     startTime l + cliffDuration l <= UINT256_MAX ->
     PerAddress.revoke c m tok b =
       mkTx [SafeTransfer (PerAddress.owner c) (totalAmount l);
             LockupRevoked b (totalAmount l)] (Ok c') /\
     forall calls,
       PerAddress.lockup_at (PerAddress.lockups (PerAddress.run c' calls)) b =
       with_revoked l 0).
Proof.
  split.
  - intros c m tok l c' Hreach Hown Htot Hrev Hable Hok Hnow Hfits.
    apply single_reachable_inv in Hreach
      as (Hent & Htyped & _ & _ & Hnone & _).
    assert (Hpos : 0 < totalAmount l) by (subst l; widths; lia).
    assert (Hben : Single.beneficiary c <> 0).
    { intros Hb. apply Htot. subst l. rewrite (Hnone Hb). reflexivity. }
    split.
    + pose proof (single_revoke_ok c m tok 0 Hown Hent Htot Hrev Hable
                    (single_vestedAmount_cliff _ _ Htot Hrev Hfits Hnow)) as Hgo.
      cbv zeta in Hgo. fold l in Hgo.
      replace (Z.min 0 (totalAmount l)) with 0 in Hgo by lia.
      replace (totalAmount l - 0) with (totalAmount l) in Hgo by lia.
      apply Hgo; [lia | exact Hok].
    + induction calls as [| [[m' tok'] call] rest IH]; [reflexivity |].
      cbn [Single.run]. rewrite single_frozen_at_zero_step; [exact IH | ..];
        subst c'; cbn; try assumption; try reflexivity.
      subst l. widths. lia.
  - intros c m tok b l c' Hreach Hown Htot Hrev Hable Hok Hnow Hfits.
    apply peraddress_reachable_inv in Hreach as (Hent & Hrec).
    destruct (Hrec b) as (Htyped & _). fold l in Htyped.
    assert (Hpos : 0 < totalAmount l) by (widths; lia).
    split.
    + pose proof (peraddress_revoke_ok c m tok b 0 Hown Hent Htot Hrev Hable
                    (peraddress_vestedAmount_cliff _ _ _ Htot Hrev Hfits Hnow)) as Hgo.
      cbv zeta in Hgo. fold l in Hgo.
      replace (Z.min 0 (totalAmount l)) with 0 in Hgo by lia.
      replace (totalAmount l - 0) with (totalAmount l) in Hgo by lia.
      apply Hgo; [lia | exact Hok].
    + assert (Hstart : PerAddress.lockup_at (PerAddress.lockups c') b = with_revoked l 0).
      { subst c'. cbn [PerAddress.lockups PerAddress.with_lockups].
        apply lockup_at_insert_eq. }
      clearbody c'. intros calls. revert c' Hstart.
      induction calls as [| [[m' tok'] call] rest IH]; intros c' Hstart;
        [exact Hstart |].
      cbn [PerAddress.run]. apply IH.
      rewrite peraddress_frozen_at_zero_step; rewrite Hstart; cbn;
        try assumption; try reflexivity.
      widths. lia.
Qed.

Lemma decade_single_reachable : Single.reachable decade_single.
Proof.
  unfold decade_single. apply Single.reachable_step.
  - apply Single.reachable_deployed.
  - concrete.
  - concrete.
Qed.

Lemma decade_per_address_reachable : PerAddress.reachable decade_per_address.
Proof.
  unfold decade_per_address. apply PerAddress.reachable_step.
  - apply PerAddress.reachable_deployed.
  - concrete.
  - concrete.
Qed.

Lemma revoke_before_the_cliff_returns_everything_witness :
  Single.revoke decade_single (at_time 1 1700000500) sample_token =
    mkTx [SafeTransfer 1 TWO_230; LockupRevoked 7 TWO_230]
      (Ok (Single.with_lockup decade_single 7 (with_revoked decade_lockup 0))) /\
  PerAddress.revoke decade_per_address (at_time 1 1700000500) sample_token 7 =
    mkTx [SafeTransfer 1 TWO_230; LockupRevoked 7 TWO_230]
      (Ok (PerAddress.with_lockups decade_per_address
             (<[7 := with_revoked decade_lockup 0]>
                (PerAddress.lockups decade_per_address)))).
Proof.
  destruct revoke_before_the_cliff_returns_everything as (Hs & Hp).
  split.
  - destruct (Hs decade_single (at_time 1 1700000500) sample_token
                decade_single_reachable) as (Hgo & _);
      [reflexivity | vm_compute; congruence | reflexivity | reflexivity | reflexivity
      | vm_compute; reflexivity | vm_compute; congruence | exact Hgo].
  - destruct (Hp decade_per_address (at_time 1 1700000500) sample_token 7
                decade_per_address_reachable) as (Hgo & _);
      [reflexivity | vm_compute; congruence | reflexivity | reflexivity | reflexivity
      | vm_compute; reflexivity | vm_compute; congruence | exact Hgo].
Defined.
